(** * The content-extension compiler: action serializer and orchestrator

    A shallow embedding of
    [Source/WebCore/contentextensions/ContentExtensionCompiler.cpp]:
    [serializeSelector], [resolvePendingDisplayNoneActions],
    [serializeActions], [addUniversalActionsToDFA] and [compileRuleList].

    Conventions.
    - Bytes, action locations, resource flags and 64-bit action words are
      integers in [Z]; positions in a [Vector] are [nat].
    - A [WTF::Vector] is a [list]; [v.size()] is [length v].  An access
      [v[i]] past the end crashes in a release build, which is written out
      as [Crash VectorOverflow].
    - [RELEASE_ASSERT]s are modelled ([Crash]); [ASSERT]s, which a release
      build drops, logging and timing are not.
    - A [HashMap<uint32_t, uint32_t>] is a [gmap Z Z], a [HashSet<uint64_t>]
      is a [gset Z].  The map keyed by [Trigger] is iterated by the code, and
      the order of that iteration decides the layout of the action buffer:
      it is an association list together with a bucket ranking that stands
      for [TriggerHash]. *)

From Stdlib Require Import ZArith Lia.
From stdpp Require Import base option list sorting gmap.

Local Open Scope Z_scope.

(** ** Outcomes of a run *)

(** The three ways a release build aborts in this file. *)
Inductive Fatal : Type :=
| NotReached               (* RELEASE_ASSERT_NOT_REACHED in serializeActions *)
| VectorOverflow           (* Vector::operator[] past the end *)
| TooManyUniversalActions. (* RELEASE_ASSERT_WITH_MESSAGE in addUniversalActionsToDFA *)

Inductive Run (A : Type) : Type :=
| Done (a : A)
| Crash (f : Fatal).
Arguments Done {A} a.
Arguments Crash {A} f.

#[global] Instance Run_ret : MRet Run := λ A a, Done a.
#[global] Instance Run_bind : MBind Run := λ A B k m,
  match m with Done a => k a | Crash f => Crash f end.

#[global] Instance Fatal_eq_dec : EqDecision Fatal.
Proof. solve_decision. Defined.

(** A loop [for (x : l) st = body(st, x)] whose body may abort. *)
Fixpoint foldlM {A B : Type} (body : B → A → Run B) (st : B) (l : list A) : Run B :=
  match l with
  | [] => Done st
  | x :: l' => st' ← body st x; foldlM body st' l'
  end.

(** [v[i] = x] on a Vector. *)
Definition vectorSet {A : Type} (v : list A) (i : nat) (x : A) : Run (list A) :=
  if decide (i < length v)%nat then Done (<[i := x]> v) else Crash VectorOverflow.

(** [v[i]] on a Vector. *)
Definition vectorGet {A : Type} (v : list A) (i : nat) : Run A :=
  match v !! i with
  | Some x => Done x
  | None => Crash VectorOverflow
  end.

(** ** Rules, triggers and actions *)

(** A [WTF::String] by its UTF-16 code units. *)
Definition String : Type := list Z.

Inductive ActionType : Type :=
| BlockLoad
| BlockCookies
| CSSDisplayNoneSelector
| CSSDisplayNoneStyleSheet
| IgnorePreviousRules
| MakeHTTPS
| InvalidAction.

#[global] Instance ActionType_eq_dec : EqDecision ActionType.
Proof. solve_decision. Defined.

(** [Trigger::ConditionType]; [CondNone] is the source's [None]. *)
Inductive ConditionType : Type :=
| CondNone
| IfDomain
| UnlessDomain.

#[global] Instance ConditionType_eq_dec : EqDecision ConditionType.
Proof. solve_decision. Defined.

Record Trigger : Type := mkTrigger {
  urlFilter : String;
  urlFilterIsCaseSensitive : bool;
  flags : Z;                       (* ResourceFlags *)
  conditions : list String;
  conditionType : ConditionType
}.

#[global] Instance Trigger_eq_dec : EqDecision Trigger.
Proof. solve_decision. Defined.

Record Action : Type := mkAction {
  type : ActionType;
  stringArgument : String
}.

Record ContentExtensionRule : Type := mkRule {
  trigger : Trigger;
  action : Action
}.

(** [std::numeric_limits<unsigned>::max()], the location of a selector
    action that waits in a pending group. *)
Definition UINT_MAX : Z := 4294967295.

(** [std::numeric_limits<uint16_t>::max()]. *)
Definition UINT16_MAX : Z := 65535.

(** The [n] low bytes of [v], least significant first: what a store
    through a reinterpreted pointer writes on the little-endian targets of
    the port. *)
Definition leBytes (n : nat) (v : Z) : list Z :=
  (λ i, Z.land (Z.shiftr v (8 * i)) 255) <$> seqZ 0 (Z.of_nat n).

Record PendingDisplayNoneActions : Type := mkPending {
  selectors : list String;
  clientLocations : list nat
}.

(** [PendingDisplayNoneActionsMap], in insertion order. *)
Definition PendingDisplayNoneActionsMap : Type :=
  list (Trigger * PendingDisplayNoneActions).

(** [HashMap::add(key, value)]: a key already there keeps its value. *)
Definition hashMapAdd (k : Trigger) (v : PendingDisplayNoneActions)
    (m : PendingDisplayNoneActionsMap) : PendingDisplayNoneActionsMap :=
  if decide (k ∈ m.*1) then m else m ++ [(k, v)].

(** A write through the iterator [HashMap::add] returned. *)
Fixpoint hashMapUpdate (k : Trigger)
    (f : PendingDisplayNoneActions → PendingDisplayNoneActions)
    (m : PendingDisplayNoneActionsMap) : PendingDisplayNoneActionsMap :=
  match m with
  | [] => []
  | (k', v) :: m' =>
      if decide (k' = k) then (k', f v) :: m' else (k', v) :: hashMapUpdate k f m'
  end.

(** ** The action serializer *)

Section Serializer.

(** What the headers outside this file decide: the numbering of
    [enum class ActionType], whether a string is stored with 8-bit code
    units, and the bucket a [Trigger] hashes to among the keys of a table
    (smaller ranks are visited first). *)
Variable actionTypeByte : ActionType → Z.
Variable is8Bit : String → bool.
Variable slotRank : list Trigger → Trigger → nat.

Definition serializeSelector (actions : list Z) (selector : String) : list Z :=
  (* Append action type (1 byte). *)
  let actions := actions ++ [actionTypeByte CSSDisplayNoneSelector] in
  (* Append Selector length (4 bytes). *)
  let selectorLength := Z.of_nat (length selector) in
  let actions := actions ++ leBytes 4 selectorLength in
  let wideCharacters := negb (is8Bit selector) in
  let actions := actions ++ [Z.b2z wideCharacters] in
  (* Append Selector. *)
  if wideCharacters
  then actions ++ mjoin (leBytes 2 <$> selector)
  else actions ++ ((λ c, Z.land c 255) <$> selector).

(** The [StringBuilder] loop of [resolvePendingDisplayNoneActions]: a
    comma before every selector but the first. *)
Fixpoint combineSelectors (i : nat) (selectors : list String) (combinedSelectors : String)
    : String :=
  match selectors with
  | [] => combinedSelectors
  | s :: rest =>
      let combinedSelectors :=
        match i with O => combinedSelectors | S _ => combinedSelectors ++ [44] end in
      combineSelectors (S i) rest (combinedSelectors ++ s)
  end.

(** [a] is visited no later than [b] in a table with the given keys. *)
Definition slotBefore (keys : list Trigger) (a b : Trigger * PendingDisplayNoneActions)
    : Prop :=
  (slotRank keys a.1 ≤ slotRank keys b.1)%nat.

#[local] Instance slotBefore_dec keys a b : Decision (slotBefore keys a b).
Proof. unfold slotBefore. apply _. Defined.

(** The order in which [for (auto& slot : map)] visits the slots. *)
Definition slotOrder (m : PendingDisplayNoneActionsMap) : PendingDisplayNoneActionsMap :=
  merge_sort (slotBefore (m.*1)) m.

(** One iteration of the loop over the slots. *)
Definition resolveSlot (st : list Z * list Z) (slot : Trigger * PendingDisplayNoneActions)
    : Run (list Z * list Z) :=
  let '(actions, actionLocations) := st in
  let pendingActions := slot.2 in
  let combinedSelectors := combineSelectors 0 (selectors pendingActions) [] in
  let actionLocation := Z.of_nat (length actions) in
  let actions := serializeSelector actions combinedSelectors in
  actionLocations ←
    foldlM (λ locs clientLocation, vectorSet locs clientLocation actionLocation)
           actionLocations (clientLocations pendingActions);
  mret (actions, actionLocations).

(** Returns the buffer and the locations; the map is left empty. *)
Definition resolvePendingDisplayNoneActions (actions : list Z) (actionLocations : list Z)
    (pendingDisplayNoneActionsMap : PendingDisplayNoneActionsMap) : Run (list Z * list Z) :=
  foldlM resolveSlot (actions, actionLocations) (slotOrder pendingDisplayNoneActionsMap).

Record SerializerState : Type := mkState {
  actions : list Z;
  actionLocations : list Z;
  blockLoadActionsMap : gmap Z Z;
  blockCookiesActionsMap : gmap Z Z;
  cssDisplayNoneActionsMap : PendingDisplayNoneActionsMap;
  ignorePreviousRuleActionsMap : gmap Z Z;
  makeHTTPSActionsMap : gmap Z Z
}.

Definition initialState : SerializerState :=
  mkState [] [] ∅ ∅ [] ∅ ∅.

(** The lambda [findOrMakeActionLocation]: the location, the buffer and the
    map after the call. *)
Definition findOrMakeActionLocation (flags : Z) (actionType : ActionType)
    (actions : list Z) (map : gmap Z Z) : Z * list Z * gmap Z Z :=
  match map !! flags with
  | None =>
      let actionLocation := Z.of_nat (length actions) in
      (actionLocation, actions ++ [actionTypeByte actionType], <[flags := actionLocation]> map)
  | Some existingAction => (existingAction, actions, map)
  end.

(** The head of the loop body: what an [IgnorePreviousRules] rule, and any
    other rule, does to the maps before its own action is looked at. *)
Definition clearMaps (st : SerializerState) (actionType : ActionType) : Run SerializerState :=
  if decide (actionType = IgnorePreviousRules) then
    '(acts, locs) ← resolvePendingDisplayNoneActions
                      (actions st) (actionLocations st) (cssDisplayNoneActionsMap st);
    mret (mkState acts locs ∅ ∅ [] (ignorePreviousRuleActionsMap st) ∅)
  else
    mret (mkState (actions st) (actionLocations st) (blockLoadActionsMap st)
            (blockCookiesActionsMap st) (cssDisplayNoneActionsMap st) ∅
            (makeHTTPSActionsMap st)).

(** The rest of the loop body: the rule's action gets its location. *)
Definition pushAction (st : SerializerState) (rule : ContentExtensionRule)
    : Run SerializerState :=
  let actionType := type (action rule) in
  let acts := actions st in
  let locs := actionLocations st in
  (* Anything with condition is just pushed. *)
  if decide (conditions (trigger rule) ≠ []) then
    let locs := locs ++ [Z.of_nat (length acts)] in
    let acts :=
      if decide (actionType = CSSDisplayNoneSelector)
      then serializeSelector acts (stringArgument (action rule))
      else acts ++ [actionTypeByte actionType] in
    mret (mkState acts locs (blockLoadActionsMap st) (blockCookiesActionsMap st)
            (cssDisplayNoneActionsMap st) (ignorePreviousRuleActionsMap st)
            (makeHTTPSActionsMap st))
  else
    let flags := flags (trigger rule) in
    match actionType with
    | CSSDisplayNoneStyleSheet | InvalidAction => Crash NotReached
    | CSSDisplayNoneSelector =>
        let m := hashMapAdd (trigger rule) (mkPending [] []) (cssDisplayNoneActionsMap st) in
        let m := hashMapUpdate (trigger rule)
                   (λ p, mkPending (selectors p ++ [stringArgument (action rule)])
                                   (clientLocations p ++ [length locs])) m in
        mret (mkState acts (locs ++ [UINT_MAX]) (blockLoadActionsMap st)
                (blockCookiesActionsMap st) m (ignorePreviousRuleActionsMap st)
                (makeHTTPSActionsMap st))
    | IgnorePreviousRules =>
        let '(loc, acts, map) :=
          findOrMakeActionLocation flags actionType acts (ignorePreviousRuleActionsMap st) in
        mret (mkState acts (locs ++ [loc]) (blockLoadActionsMap st)
                (blockCookiesActionsMap st) (cssDisplayNoneActionsMap st) map
                (makeHTTPSActionsMap st))
    | BlockLoad =>
        let '(loc, acts, map) :=
          findOrMakeActionLocation flags actionType acts (blockLoadActionsMap st) in
        mret (mkState acts (locs ++ [loc]) map (blockCookiesActionsMap st)
                (cssDisplayNoneActionsMap st) (ignorePreviousRuleActionsMap st)
                (makeHTTPSActionsMap st))
    | BlockCookies =>
        let '(loc, acts, map) :=
          findOrMakeActionLocation flags actionType acts (blockCookiesActionsMap st) in
        mret (mkState acts (locs ++ [loc]) (blockLoadActionsMap st) map
                (cssDisplayNoneActionsMap st) (ignorePreviousRuleActionsMap st)
                (makeHTTPSActionsMap st))
    | MakeHTTPS =>
        let '(loc, acts, map) :=
          findOrMakeActionLocation flags actionType acts (makeHTTPSActionsMap st) in
        mret (mkState acts (locs ++ [loc]) (blockLoadActionsMap st)
                (blockCookiesActionsMap st) (cssDisplayNoneActionsMap st)
                (ignorePreviousRuleActionsMap st) map)
    end.

(** One iteration of the loop over the rules. *)
Definition serializeRule (st : SerializerState) (rule : ContentExtensionRule)
    : Run SerializerState :=
  st ← clearMaps st (type (action rule));
  pushAction st rule.

(** [serializeActions]: the action locations and the action buffer. *)
Definition serializeActions (ruleList : list ContentExtensionRule) : Run (list Z * list Z) :=
  st ← foldlM serializeRule initialState ruleList;
  '(acts, locs) ← resolvePendingDisplayNoneActions
                    (actions st) (actionLocations st) (cssDisplayNoneActionsMap st);
  mret (locs, acts).

End Serializer.

(** ** Deterministic automata *)

(** Modelled from the spec: [DFA.h] and [DFANode.h] are not under src/.
    A node has a transition table keyed by character ranges and an actions
    sub-range (offset and length) into the actions array its automaton
    shares among its nodes; an automaton has exactly one root. *)
Record DFANode : Type := mkDFANode {
  transitions : list (Z * Z * nat);   (* first character, last character, destination *)
  actionsStart : Z;
  actionsLength : Z
}.

Record DFA : Type := mkDFA {
  nodes : list DFANode;
  dfaActions : list Z;
  root : nat
}.

(** Modelled from the spec: [DFANode::setActions(start, length)] records the
    node's actions sub-range. *)
Definition setActions (node : DFANode) (start length : Z) : DFANode :=
  mkDFANode (transitions node) start length.

(** The action words a node's sub-range selects. *)
Definition nodeActions (dfa : DFA) (node : DFANode) : list Z :=
  take (Z.to_nat (actionsLength node)) (drop (Z.to_nat (actionsStart node)) (dfaActions dfa)).

(** The action words on the root; none when the root is not a node. *)
Definition rootActions (dfa : DFA) : list Z :=
  match nodes dfa !! root dfa with
  | Some node => nodeActions dfa node
  | None => []
  end.

Definition addUniversalActionsToDFA (dfa : DFA) (universalActions : gset Z) : Run DFA :=
  if decide (universalActions = ∅) then mret dfa
  else
    rootNode ← vectorGet (nodes dfa) (root dfa);
    let actionsStart := Z.of_nat (length (dfaActions dfa)) in
    let actions := dfaActions dfa ++ elements universalActions in
    let actionsEnd := Z.of_nat (length actions) in
    let actionsLength := actionsEnd - actionsStart in
    if decide (actionsLength < UINT16_MAX) then
      (* static_cast<uint16_t>(actionsLength) *)
      let rootNode := setActions rootNode actionsStart (actionsLength `mod` 2 ^ 16) in
      nodes ← vectorSet (nodes dfa) (root dfa) rootNode;
      mret (mkDFA nodes actions (root dfa))
    else Crash TooManyUniversalActions.

(** ** The orchestrator *)

(** [URLFilterParser::ParseStatus]: of the failures only that they are
    neither [Ok] nor [MatchesEverything] matters here. *)
Inductive ParseStatus : Type :=
| Ok
| MatchesEverything
| ParseError (reason : nat).

#[global] Instance ParseStatus_eq_dec : EqDecision ParseStatus.
Proof. solve_decision. Defined.

(** [std::error_code]: the empty code of a success, or a
    [ContentExtensionError], of which this file names [JSONInvalidRegex]. *)
Inductive error_code : Type :=
| NoError
| JSONInvalidRegex
| OtherContentExtensionError (e : nat).

#[global] Instance error_code_eq_dec : EqDecision error_code.
Proof. solve_decision. Defined.

(** The calls a [ContentExtensionCompilationClient] receives. *)
Inductive ClientCall : Type :=
| writeActions (actions : list Z)
| writeFiltersWithoutConditionsBytecode (bytecode : list Z)
| writeFiltersWithConditionsBytecode (bytecode : list Z)
| writeConditionedFiltersBytecode (bytecode : list Z)
| finalize.

#[global] Instance ClientCall_eq_dec : EqDecision ClientCall.
Proof. solve_decision. Defined.

Definition maxNFASize : Z := 75000.
Definition smallDFASize : Z := 100.

Section Orchestrator.

Variable actionTypeByte : ActionType → Z.
Variable is8Bit : String → bool.
Variable slotRank : list Trigger → Trigger → nat.

(** The collaborators of [compileRuleList], none of them under src/:
    the rule-list parser, [CombinedURLFilters] with [URLFilterParser],
    [NFAToDFA], [DFA::minimize] and [DFA::graphSize], [DFACombiner],
    [DFABytecodeCompiler], [DFA::empty] and the constant
    [IfConditionFlag].  State they mutate is passed in and out. *)
Variable parseRuleList : String → error_code + list ContentExtensionRule.
Variable CombinedURLFilters : Type.
Variable emptyFilters : CombinedURLFilters.
Variable addPattern : CombinedURLFilters → String → bool → Z → ParseStatus * CombinedURLFilters.
Variable addDomain : CombinedURLFilters → Z → String → CombinedURLFilters.
Variable NFA : Type.
Variable processNFAs : Z → CombinedURLFilters → list NFA.
Variable convert : NFA → DFA.
Variable graphSize : DFA → Z.
Variable minimize : DFA → DFA.
Variable DFACombiner : Type.
Variable emptyCombiner : DFACombiner.
Variable addDFA : DFACombiner → DFA → DFACombiner.
Variable combineDFAs : Z → DFACombiner → list DFA.
Variable compile : DFA → list Z.
Variable emptyDFA : DFA.
Variable IfConditionFlag : Z.

(** The locals of [compileRuleList] that the loop over the rules fills. *)
Record Partition : Type := mkPartition {
  universalActionsWithoutConditions : gset Z;
  universalActionsWithConditions : gset Z;
  filtersWithoutConditions : CombinedURLFilters;
  filtersWithConditions : CombinedURLFilters;
  conditionFilters : CombinedURLFilters
}.

Definition emptyPartition : Partition :=
  mkPartition ∅ ∅ emptyFilters emptyFilters emptyFilters.

(** The action word of a rule before the condition flag is set. *)
Definition actionLocationAndFlagsOf (flags : Z) (actionLocation : Z) : Z :=
  Z.lor (Z.shiftl flags 32) actionLocation.

(** One iteration of the loop over [parsedRuleList]: [inl] is an early
    [return] with an error code. *)
Definition partitionRule (actionLocations : list Z) (st : Partition) (ruleIndex : nat)
    (contentExtensionRule : ContentExtensionRule) : Run (error_code + Partition) :=
  let trigger := trigger contentExtensionRule in
  actionLocation ← vectorGet actionLocations ruleIndex;
  let actionLocationAndFlags := actionLocationAndFlagsOf (flags trigger) actionLocation in
  if decide (conditions trigger = []) then
    let '(status, filters) :=
      addPattern (filtersWithoutConditions st) (urlFilter trigger)
                 (urlFilterIsCaseSensitive trigger) actionLocationAndFlags in
    let '(status, universal) :=
      if decide (status = MatchesEverything)
      then (Ok, {[actionLocationAndFlags]} ∪ universalActionsWithoutConditions st)
      else (status, universalActionsWithoutConditions st) in
    if decide (status ≠ Ok) then mret (inl JSONInvalidRegex)
    else mret (inr (mkPartition universal (universalActionsWithConditions st) filters
                      (filtersWithConditions st) (conditionFilters st)))
  else
    let actionLocationAndFlags :=
      match conditionType trigger with
      | IfDomain => Z.lor actionLocationAndFlags IfConditionFlag
      | CondNone | UnlessDomain => actionLocationAndFlags
      end in
    let '(status, filters) :=
      addPattern (filtersWithConditions st) (urlFilter trigger)
                 (urlFilterIsCaseSensitive trigger) actionLocationAndFlags in
    let '(status, universal) :=
      if decide (status = MatchesEverything)
      then (Ok, {[actionLocationAndFlags]} ∪ universalActionsWithConditions st)
      else (status, universalActionsWithConditions st) in
    if decide (status ≠ Ok) then mret (inl JSONInvalidRegex)
    else
      let domains :=
        foldl (λ f condition, addDomain f actionLocationAndFlags condition)
              (conditionFilters st) (conditions trigger) in
      mret (inr (mkPartition (universalActionsWithoutConditions st) universal
                   (filtersWithoutConditions st) filters domains)).

Fixpoint partitionRules (actionLocations : list Z) (ruleIndex : nat)
    (parsedRuleList : list ContentExtensionRule) (st : Partition)
    : Run (error_code + Partition) :=
  match parsedRuleList with
  | [] => mret (inr st)
  | rule :: rest =>
      r ← partitionRule actionLocations st ruleIndex rule;
      match r with
      | inl e => mret (inl e)
      | inr st => partitionRules actionLocations (S ruleIndex) rest st
      end
  end.

(** What a stream's lowering carries from one automaton to the next: the
    flag [firstNFA...Seen], the combiner of small automata, and the calls
    the client has received. *)
Record Lowering : Type := mkLowering {
  firstNFASeen : bool;
  smallDFACombiner : DFACombiner;
  client : list ClientCall
}.

(** The lambdas [lowerFiltersWithoutConditionsDFAToBytecode] and
    [lowerFiltersWithConditionsDFAToBytecode], which differ in the
    universal actions and the client call. *)
Definition lowerDFAToBytecode (write : list Z → ClientCall) (universalActions : gset Z)
    (st : Lowering) (dfa : DFA) : Run Lowering :=
  dfa ← (if firstNFASeen st then mret dfa
         else (* Put all the universal actions on the first DFA. *)
              addUniversalActionsToDFA dfa universalActions);
  let bytecode := compile dfa in
  mret (mkLowering true (smallDFACombiner st) (client st ++ [write bytecode])).

(** The callback of [processNFAs] for the two filter streams. *)
Definition lowerNFA (write : list Z → ClientCall) (universalActions : gset Z)
    (st : Lowering) (nfa : NFA) : Run Lowering :=
  let dfa := convert nfa in
  if decide (graphSize dfa < smallDFASize) then
    mret (mkLowering (firstNFASeen st) (addDFA (smallDFACombiner st) dfa) (client st))
  else
    lowerDFAToBytecode write universalActions st (minimize dfa).

(** One filter stream from [processNFAs] to the dummy automaton. *)
Definition lowerFilters (write : list Z → ClientCall) (universalActions : gset Z)
    (filters : CombinedURLFilters) (calls : list ClientCall) : Run (list ClientCall) :=
  let st := mkLowering false emptyCombiner calls in
  st ← foldlM (lowerNFA write universalActions) st (processNFAs maxNFASize filters);
  st ← foldlM (lowerDFAToBytecode write universalActions) st
         (combineDFAs smallDFASize (smallDFACombiner st));
  if firstNFASeen st then mret (client st)
  else
    (* Our bytecode interpreter expects to have at least one DFA, so if we
       haven't seen any create a dummy one and add any universal actions. *)
    dummyDFA ← addUniversalActionsToDFA emptyDFA universalActions;
    mret (client st ++ [write (compile dummyDFA)]).

(** The stream of the domain conditions. *)
Definition lowerConditionFilters (filters : CombinedURLFilters) (calls : list ClientCall)
    : list ClientCall :=
  foldl (λ calls nfa, calls ++ [writeConditionedFiltersBytecode (compile (convert nfa))])
        calls (processNFAs maxNFASize filters).

(** [compileRuleList] after the rule list is parsed: the calls the client
    received and the error code returned. *)
Definition compileParsedRuleList (parsedRuleList : list ContentExtensionRule)
    : Run (list ClientCall * error_code) :=
  '(actionLocations, actions) ← serializeActions actionTypeByte is8Bit slotRank parsedRuleList;
  let calls := [writeActions actions] in
  r ← partitionRules actionLocations 0 parsedRuleList emptyPartition;
  match r with
  | inl e => mret (calls, e)
  | inr st =>
      calls ← lowerFilters writeFiltersWithoutConditionsBytecode
                (universalActionsWithoutConditions st) (filtersWithoutConditions st) calls;
      calls ← lowerFilters writeFiltersWithConditionsBytecode
                (universalActionsWithConditions st) (filtersWithConditions st) calls;
      let calls := lowerConditionFilters (conditionFilters st) calls in
      mret (calls ++ [finalize], NoError)
  end.

Definition compileRuleList (ruleJSON : String) : Run (list ClientCall * error_code) :=
  match parseRuleList ruleJSON with
  | inl e => mret ([], e)
  | inr parsedRuleList => compileParsedRuleList parsedRuleList
  end.

End Orchestrator.

(** An instance for running examples: [ActionType] numbered in the order of
    its declaration, Latin-1 strings stored 8-bit, and every trigger in the
    same bucket (slots are then visited as inserted). *)
Definition enumActionTypeByte (t : ActionType) : Z :=
  match t with
  | BlockLoad => 0
  | BlockCookies => 1
  | CSSDisplayNoneSelector => 2
  | CSSDisplayNoneStyleSheet => 3
  | IgnorePreviousRules => 4
  | MakeHTTPS => 5
  | InvalidAction => 6
  end.

Definition latin1 (s : String) : bool := forallb (λ c, c <? 256) s.

Definition oneBucket (keys : list Trigger) (k : Trigger) : nat := 0%nat.

Definition serializeActionsEx : list ContentExtensionRule → Run (list Z * list Z) :=
  serializeActions enumActionTypeByte latin1 oneBucket.

(** A small instance of the collaborators.  Filters are the list of the
    patterns added, [".*"] is the one pattern that matches everything, a
    pattern with a non-ASCII character does not parse, a set of filters is
    one NFA unless it is empty, an automaton keeps one node for each
    pattern beside its root, and nothing is minimized or combined. *)
Definition exFilters : Type := list (String * Z).

Definition exAddPattern (filters : exFilters) (pattern : String) (caseSensitive : bool)
    (actionLocationAndFlags : Z) : ParseStatus * exFilters :=
  if decide (pattern = [46; 42]) then (MatchesEverything, filters)
  else if forallb (λ c, c <? 128) pattern
       then (Ok, filters ++ [(pattern, actionLocationAndFlags)])
       else (ParseError 0, filters).

Definition exAddDomain (filters : exFilters) (actionLocationAndFlags : Z) (domain : String)
    : exFilters :=
  filters ++ [(domain, actionLocationAndFlags)].

Definition exProcessNFAs (maxSize : Z) (filters : exFilters) : list exFilters :=
  match filters with
  | [] => []
  | _ => [filters]
  end.

Definition exConvert (nfa : exFilters) : DFA :=
  mkDFA (mkDFANode [] 0 0 :: imap (λ i _, mkDFANode [] (Z.of_nat i) 1) nfa) (nfa.*2) 0.

Definition exGraphSize (dfa : DFA) : Z := Z.of_nat (length (nodes dfa)).

(** The chunk of an automaton: its number of nodes, the number of actions
    on its root, these actions, and the actions of all its nodes. *)
Definition exCompile (dfa : DFA) : list Z :=
  Z.of_nat (length (nodes dfa)) :: Z.of_nat (length (rootActions dfa))
  :: rootActions dfa ++ dfaActions dfa.

Definition exEmptyDFA : DFA := mkDFA [mkDFANode [] 0 0] [] 0.

Definition exIfConditionFlag : Z := 2 ^ 47.

Definition exParseRuleList (parsed : list ContentExtensionRule) (ruleJSON : String)
    : error_code + list ContentExtensionRule :=
  if decide (ruleJSON = []) then inl (OtherContentExtensionError 1) else inr parsed.

Definition exMinimize (dfa : DFA) : DFA := dfa.

Definition exAddDFA (combiner : list DFA) (dfa : DFA) : list DFA := combiner ++ [dfa].

Definition exCombineDFAs (minimumSize : Z) (combiner : list DFA) : list DFA := combiner.

Definition compileRuleListEx (parsed : list ContentExtensionRule)
    : String → Run (list ClientCall * error_code) :=
  compileRuleList enumActionTypeByte latin1 oneBucket (exParseRuleList parsed)
    exFilters [] exAddPattern exAddDomain exFilters exProcessNFAs exConvert exGraphSize
    exMinimize (list DFA) [] exAddDFA exCombineDFAs exCompile exEmptyDFA
    exIfConditionFlag.

Definition partitionRulesEx
    : list Z → nat → list ContentExtensionRule → Partition exFilters →
      Run (error_code + Partition exFilters) :=
  partitionRules exFilters exAddPattern exAddDomain exIfConditionFlag.

(** Rules for the examples: [rule0] has no condition and the pattern ["a"],
    [ruleOn] is the general form. *)
Definition rule0 (t : ActionType) (f : Z) : ContentExtensionRule :=
  mkRule (mkTrigger [97] false f [] CondNone) (mkAction t []).

Definition ruleOn (pattern : String) (f : Z) (domains : list String) (c : ConditionType)
    (t : ActionType) (selector : String) : ContentExtensionRule :=
  mkRule (mkTrigger pattern false f domains c) (mkAction t selector).

(** ** Vocabulary of the statements *)

(** Strings joined with a comma between neighbours. *)
Fixpoint joinComma (l : list String) : String :=
  match l with
  | [] => []
  | s :: rest =>
      match rest with
      | [] => s
      | _ :: _ => s ++ 44 :: joinComma rest
      end
  end.

(** The buffer [buf] holds the bytes [entry] from offset [l] on. *)
Definition entryAt (buf : list Z) (l : Z) (entry : list Z) : Prop :=
  ∃ before after, buf = before ++ entry ++ after ∧ Z.of_nat (length before) = l.

(** Every client location in a map of pending groups. *)
Definition pendingIndices (m : PendingDisplayNoneActionsMap) : list nat :=
  m ≫= (λ slot, clientLocations slot.2).

(** A rule whose selector waits in the pending group of trigger [t]. *)
Definition pendingFor (t : Trigger) (rule : ContentExtensionRule) : Prop :=
  conditions (trigger rule) = [] ∧
  type (action rule) = CSSDisplayNoneSelector ∧
  trigger rule = t.

#[global] Instance pendingFor_dec t rule : Decision (pendingFor t rule).
Proof. unfold pendingFor. apply _. Defined.

(** The selectors of the rules of [seg] that wait for trigger [t], in the
    order of the rules. *)
Definition groupSelectors (t : Trigger) (seg : list ContentExtensionRule) : list String :=
  (λ rule, stringArgument (action rule)) <$> filter (pendingFor t) seg.

(** A selector rule of trigger [t], with conditions or without. *)
Definition selectorOf (t : Trigger) (rule : ContentExtensionRule) : Prop :=
  type (action rule) = CSSDisplayNoneSelector ∧ trigger rule = t.

#[global] Instance selectorOf_dec t rule : Decision (selectorOf t rule).
Proof. unfold selectorOf. apply _. Defined.

(** Modelled from the spec: the combined selector entry of a trigger read
    as the sentence on the backfill has it, over every selector rule of
    [seg] with the trigger [t], whether [t] has conditions or not. *)
Definition triggerSelectors (t : Trigger) (seg : list ContentExtensionRule) : list String :=
  (λ rule, stringArgument (action rule)) <$> filter (selectorOf t) seg.

(** The action types [serializeActions] has a case for. *)
Definition serializable (rule : ContentExtensionRule) : Prop :=
  conditions (trigger rule) ≠ [] ∨
  (type (action rule) ≠ CSSDisplayNoneStyleSheet ∧ type (action rule) ≠ InvalidAction).

#[global] Instance serializable_dec rule : Decision (serializable rule).
Proof. unfold serializable. apply _. Defined.

Definition isIgnore (rule : ContentExtensionRule) : Prop :=
  type (action rule) = IgnorePreviousRules.

#[global] Instance isIgnore_dec rule : Decision (isIgnore rule).
Proof. unfold isIgnore. apply _. Defined.

(** The bytes of one selector entry. *)
Definition selectorEntry (actionTypeByte : ActionType → Z) (is8Bit : String → bool)
    (selector : String) : list Z :=
  serializeSelector actionTypeByte is8Bit [] selector.

(** [locs[i] = l] for each [i] of [cs], as [resolveSlot] writes them. *)
Definition assign (locs : list Z) (cs : list nat) (l : Z) : list Z :=
  foldl (λ locs c, <[c := l]> locs) locs cs.

(** The map in which [serializeActions] looks up an action of type [T]. *)
Definition dedupMap (T : ActionType) (st : SerializerState) : gmap Z Z :=
  match T with
  | BlockLoad => blockLoadActionsMap st
  | BlockCookies => blockCookiesActionsMap st
  | IgnorePreviousRules => ignorePreviousRuleActionsMap st
  | MakeHTTPS => makeHTTPSActionsMap st
  | CSSDisplayNoneSelector | CSSDisplayNoneStyleSheet | InvalidAction => ∅
  end.

(** The action types that are looked up in a map. *)
Definition dedupType (T : ActionType) : Prop :=
  T = BlockLoad ∨ T = BlockCookies ∨ T = IgnorePreviousRules ∨ T = MakeHTTPS.

#[global] Instance dedupType_dec T : Decision (dedupType T).
Proof. unfold dedupType. apply _. Defined.

(** [HashMap::get] on the map of pending groups. *)
Fixpoint pendingGet (t : Trigger) (m : PendingDisplayNoneActionsMap)
    : option PendingDisplayNoneActions :=
  match m with
  | [] => None
  | (k, v) :: m' => if decide (k = t) then Some v else pendingGet t m'
  end.

(** The state of the serializer is well formed: the pending groups have
    distinct keys and disjoint members, every member is a position of the
    location vector, and every location that is not pending, in the vector
    or in a map, is an offset into the buffer. *)
Record wfState (st : SerializerState) : Prop := mkWf {
  wf_keys : NoDup (cssDisplayNoneActionsMap st).*1;
  wf_members : NoDup (pendingIndices (cssDisplayNoneActionsMap st));
  wf_range : Forall (λ c, (c < length (actionLocations st))%nat)
               (pendingIndices (cssDisplayNoneActionsMap st));
  wf_resolved : ∀ i, (i < length (actionLocations st))%nat →
                  i ∉ pendingIndices (cssDisplayNoneActionsMap st) →
                  ∃ l, actionLocations st !! i = Some l ∧
                       0 ≤ l < Z.of_nat (length (actions st));
  wf_maps : ∀ T f l, dedupMap T st !! f = Some l →
              0 ≤ l < Z.of_nat (length (actions st))
}.

(** What [serializeActions] does to the pending groups for a selector rule
    with no condition: [add], then two [append]s through the iterator. *)
Definition addPending (t : Trigger) (selector : String) (c : nat)
    (m : PendingDisplayNoneActionsMap) : PendingDisplayNoneActionsMap :=
  hashMapUpdate t (λ p, mkPending (selectors p ++ [selector]) (clientLocations p ++ [c]))
    (hashMapAdd t (mkPending [] []) m).

(** [resolveSlot] when no write leaves the vector. *)
Definition resolveSlotPure (actionTypeByte : ActionType → Z) (is8Bit : String → bool)
    (st : list Z * list Z) (slot : Trigger * PendingDisplayNoneActions) : list Z * list Z :=
  (serializeSelector actionTypeByte is8Bit st.1 (combineSelectors 0 (selectors slot.2) []),
   assign st.2 (clientLocations slot.2) (Z.of_nat (length st.1))).

(** The bytes a rule's action takes when it is serialized on its own. *)
Definition ownEntry (actionTypeByte : ActionType → Z) (is8Bit : String → bool)
    (rule : ContentExtensionRule) : list Z :=
  if decide (type (action rule) = CSSDisplayNoneSelector)
  then selectorEntry actionTypeByte is8Bit (stringArgument (action rule))
  else [actionTypeByte (type (action rule))].

(** What [clearMaps] does, case by case. *)
Inductive clearEffect (actionTypeByte : ActionType → Z) (is8Bit : String → bool)
    (slotRank : list Trigger → Trigger → nat)
    (st : SerializerState) (T : ActionType) (st' : SerializerState) : Prop :=
| clear_ignore :
    T = IgnorePreviousRules →
    (actions st', actionLocations st')
      = foldl (resolveSlotPure actionTypeByte is8Bit) (actions st, actionLocations st)
          (slotOrder slotRank (cssDisplayNoneActionsMap st)) →
    cssDisplayNoneActionsMap st' = [] →
    (∀ T', dedupMap T' st'
           = if decide (T' = IgnorePreviousRules) then ignorePreviousRuleActionsMap st else ∅) →
    clearEffect actionTypeByte is8Bit slotRank st T st'
| clear_other :
    T ≠ IgnorePreviousRules →
    actions st' = actions st →
    actionLocations st' = actionLocations st →
    cssDisplayNoneActionsMap st' = cssDisplayNoneActionsMap st →
    (∀ T', dedupMap T' st'
           = if decide (T' = IgnorePreviousRules) then ∅ else dedupMap T' st) →
    clearEffect actionTypeByte is8Bit slotRank st T st'.

(** What [pushAction] does, case by case: a rule with conditions, a
    selector that joins a pending group, an action found in its map, and an
    action new to its map. *)
Inductive pushEffect (actionTypeByte : ActionType → Z) (is8Bit : String → bool)
    (st : SerializerState) (rule : ContentExtensionRule) (st' : SerializerState) : Prop :=
| push_conditioned :
    conditions (trigger rule) ≠ [] →
    actions st' = actions st ++ ownEntry actionTypeByte is8Bit rule →
    actionLocations st' = actionLocations st ++ [Z.of_nat (length (actions st))] →
    cssDisplayNoneActionsMap st' = cssDisplayNoneActionsMap st →
    (∀ T, dedupMap T st' = dedupMap T st) →
    pushEffect actionTypeByte is8Bit st rule st'
| push_pending :
    conditions (trigger rule) = [] →
    type (action rule) = CSSDisplayNoneSelector →
    actions st' = actions st →
    actionLocations st' = actionLocations st ++ [UINT_MAX] →
    cssDisplayNoneActionsMap st'
      = addPending (trigger rule) (stringArgument (action rule))
          (length (actionLocations st)) (cssDisplayNoneActionsMap st) →
    (∀ T, dedupMap T st' = dedupMap T st) →
    pushEffect actionTypeByte is8Bit st rule st'
| push_found (l : Z) :
    conditions (trigger rule) = [] →
    dedupType (type (action rule)) →
    dedupMap (type (action rule)) st !! flags (trigger rule) = Some l →
    actions st' = actions st →
    actionLocations st' = actionLocations st ++ [l] →
    cssDisplayNoneActionsMap st' = cssDisplayNoneActionsMap st →
    (∀ T, dedupMap T st' = dedupMap T st) →
    pushEffect actionTypeByte is8Bit st rule st'
| push_fresh :
    conditions (trigger rule) = [] →
    dedupType (type (action rule)) →
    dedupMap (type (action rule)) st !! flags (trigger rule) = None →
    actions st' = actions st ++ [actionTypeByte (type (action rule))] →
    actionLocations st' = actionLocations st ++ [Z.of_nat (length (actions st))] →
    cssDisplayNoneActionsMap st' = cssDisplayNoneActionsMap st →
    (∀ T, dedupMap T st'
          = if decide (T = type (action rule))
            then <[flags (trigger rule) := Z.of_nat (length (actions st))]> (dedupMap T st)
            else dedupMap T st) →
    pushEffect actionTypeByte is8Bit st rule st'.

(** [st'] is a later state than [st]: the buffer has grown at its end, the
    location vector has not shrunk, and a position of [st] that is not
    pending holds the same location in [st'] and is not pending there. *)
Definition extends (st st' : SerializerState) : Prop :=
  (∃ ext, actions st' = actions st ++ ext) ∧
  (length (actionLocations st) ≤ length (actionLocations st'))%nat ∧
  ∀ i, (i < length (actionLocations st))%nat →
       i ∉ pendingIndices (cssDisplayNoneActionsMap st) →
       actionLocations st' !! i = actionLocations st !! i ∧
       i ∉ pendingIndices (cssDisplayNoneActionsMap st').

(** The pending groups [m] are those of the rules [seg], which stand at
    the positions from [base] on: the group of a trigger holds the
    selectors of its rules in their order, and their positions. *)
Definition groupsOf (base : nat) (seg : list ContentExtensionRule)
    (m : PendingDisplayNoneActionsMap) : Prop :=
  ∀ t, match pendingGet t m with
       | None => filter (pendingFor t) seg = []
       | Some p =>
           selectors p = groupSelectors t seg ∧
           ∀ i rule, seg !! i = Some rule → pendingFor t rule →
                     (base + i)%nat ∈ clientLocations p
       end.

(** [seg] is a whole run of rules between two flushes of the list
    [pre ++ seg ++ post]: no rule of it is an [IgnorePreviousRules] rule,
    the rule before it, if any, is one, and so is the rule after it. *)
Definition segment (pre seg post : list ContentExtensionRule) : Prop :=
  from_option isIgnore True (last pre) ∧
  Forall (λ rule, ¬ isIgnore rule) seg ∧
  from_option isIgnore True (head post).

#[global] Instance segment_dec pre seg post : Decision (segment pre seg post).
Proof.
  unfold segment. apply and_dec; [|apply and_dec].
  - destruct (last pre); simpl; apply _.
  - apply _.
  - destruct (head post); simpl; apply _.
Defined.

(** A rule leaves the entries of the map of [T] in place: the map of
    [IgnorePreviousRules] survives the rules of that type, the other maps
    survive the rules of the other types. *)
Definition keeps (T : ActionType) (rule : ContentExtensionRule) : Prop :=
  T = IgnorePreviousRules ↔ isIgnore rule.

#[global] Instance keeps_dec T rule : Decision (keeps T rule).
Proof. unfold keeps. apply _. Defined.

(** A property [φ] of locations is tracked from a state on: every location
    still to be made has it, and so has every location that a map of a type
    in [K] holds. *)
Definition tracks (φ : Z → Prop) (K : ActionType → Prop) (st : SerializerState) : Prop :=
  (∀ v, Z.of_nat (length (actions st)) ≤ v → φ v) ∧
  (∀ T f v, K T → dedupMap T st !! f = Some v → φ v).

(** Position [i] is pending, or holds a location with property [φ]. *)
Definition settled (φ : Z → Prop) (st : SerializerState) (i : nat) : Prop :=
  i ∈ pendingIndices (cssDisplayNoneActionsMap st) ∨
  ∃ v, actionLocations st !! i = Some v ∧ φ v.

(** ** Vocabulary of the statements about the orchestrator *)

Section StreamVocabulary.

Variable CombinedURLFilters : Type.
Variable addPattern : CombinedURLFilters → String → bool → Z → ParseStatus * CombinedURLFilters.
Variable NFA : Type.
Variable processNFAs : Z → CombinedURLFilters → list NFA.
Variable convert : NFA → DFA.
Variable graphSize : DFA → Z.
Variable minimize : DFA → DFA.
Variable DFACombiner : Type.
Variable emptyCombiner : DFACombiner.
Variable addDFA : DFACombiner → DFA → DFACombiner.
Variable combineDFAs : Z → DFACombiner → list DFA.
Variable addDomain : CombinedURLFilters → Z → String → CombinedURLFilters.
Variable IfConditionFlag : Z.

Definition isSmall (dfa : DFA) : Prop := graphSize dfa < smallDFASize.

#[global] Instance isSmall_dec dfa : Decision (isSmall dfa).
Proof. unfold isSmall. apply _. Defined.

Definition isLarge (dfa : DFA) : Prop := ¬ isSmall dfa.

#[global] Instance isLarge_dec dfa : Decision (isLarge dfa).
Proof. unfold isLarge. apply _. Defined.

(** The automata a filter stream hands to its lowering lambda, in the order
    of the calls: the large ones, minimized, as [processNFAs] comes to
    them, then what [combineDFAs] makes of the small ones. *)
Definition streamDFAs (filters : CombinedURLFilters) : list DFA :=
  let dfas := convert <$> processNFAs maxNFASize filters in
  (minimize <$> filter isLarge dfas)
  ++ combineDFAs smallDFASize (foldl addDFA emptyCombiner (filter isSmall dfas)).

(** The first automaton of a stream, which is the dummy when the stream has
    none, and the automata after it. *)
Definition firstDFA (emptyDFA : DFA) (filters : CombinedURLFilters) : DFA :=
  default emptyDFA (head (streamDFAs filters)).

Definition laterDFAs (filters : CombinedURLFilters) : list DFA :=
  tail (streamDFAs filters).

(** The action word [compileRuleList] passes to [addPattern] for a rule
    whose action has the location [actionLocation]. *)
Definition actionWord (t : Trigger) (actionLocation : Z) : Z :=
  let actionLocationAndFlags := actionLocationAndFlagsOf (flags t) actionLocation in
  if decide (conditions t = []) then actionLocationAndFlags
  else match conditionType t with
       | IfDomain => Z.lor actionLocationAndFlags IfConditionFlag
       | CondNone | UnlessDomain => actionLocationAndFlags
       end.

(** The filters [addPattern] is called on for a trigger: those of the
    stream without conditions, or those of the stream with conditions. *)
Definition patternFilters (st : Partition CombinedURLFilters) (t : Trigger)
    : CombinedURLFilters :=
  if decide (conditions t = []) then filtersWithoutConditions CombinedURLFilters st
  else filtersWithConditions CombinedURLFilters st.

(** What [addPattern] answers for a rule, in the state the rules before it
    have left. *)
Definition patternResult (st : Partition CombinedURLFilters) (actionLocation : Z)
    (rule : ContentExtensionRule) : ParseStatus * CombinedURLFilters :=
  addPattern (patternFilters st (trigger rule)) (urlFilter (trigger rule))
    (urlFilterIsCaseSensitive (trigger rule)) (actionWord (trigger rule) actionLocation).

(** The locals of [compileRuleList] after a rule whose pattern parsed. *)
Definition nextPartition (st : Partition CombinedURLFilters) (actionLocation : Z)
    (rule : ContentExtensionRule) : Partition CombinedURLFilters :=
  let t := trigger rule in
  let word := actionWord t actionLocation in
  let '(status, filters) := patternResult st actionLocation rule in
  let more (universal : gset Z) :=
    if decide (status = MatchesEverything) then {[word]} ∪ universal else universal in
  if decide (conditions t = []) then
    mkPartition CombinedURLFilters
      (more (universalActionsWithoutConditions CombinedURLFilters st))
      (universalActionsWithConditions CombinedURLFilters st)
      filters
      (filtersWithConditions CombinedURLFilters st)
      (conditionFilters CombinedURLFilters st)
  else
    mkPartition CombinedURLFilters
      (universalActionsWithoutConditions CombinedURLFilters st)
      (more (universalActionsWithConditions CombinedURLFilters st))
      (filtersWithoutConditions CombinedURLFilters st)
      filters
      (foldl (λ f condition, addDomain f word condition)
         (conditionFilters CombinedURLFilters st) (conditions t)).

(** The calls of a compilation that reaches [finalize]: [d1] and [d2] are
    the first automata of the two filter streams as they are lowered. *)
Definition sinkCalls (compile : DFA → list Z) (actions : list Z)
    (d1 : DFA) (later1 : list DFA) (d2 : DFA) (later2 : list DFA) (nfas : list NFA)
    : list ClientCall :=
  [writeActions actions]
  ++ (writeFiltersWithoutConditionsBytecode <$> (compile <$> d1 :: later1))
  ++ (writeFiltersWithConditionsBytecode <$> (compile <$> d2 :: later2))
  ++ (writeConditionedFiltersBytecode <$> (compile <$> (convert <$> nfas)))
  ++ [finalize].

(** A status that is neither [Ok] nor [MatchesEverything]. *)
Definition parseFailed (status : ParseStatus) : Prop :=
  status ≠ Ok ∧ status ≠ MatchesEverything.

#[global] Instance parseFailed_dec status : Decision (parseFailed status).
Proof. unfold parseFailed. apply _. Defined.

End StreamVocabulary.

(** Rule lists for the examples.  [exMixed]: two selector rules with one
    trigger on either side of two [IgnorePreviousRules] rules with a
    [BlockLoad] rule between them, then two selector rules with one
    trigger that has a condition. *)
Definition exTrigger : Trigger := mkTrigger [120] false 0 [] CondNone.
Definition exTriggerIf : Trigger := mkTrigger [120] false 0 [[97]] IfDomain.

Definition exMixed : list ContentExtensionRule :=
  [mkRule exTrigger (mkAction CSSDisplayNoneSelector [46; 97]);
   rule0 IgnorePreviousRules 0;
   rule0 BlockLoad 0;
   rule0 IgnorePreviousRules 0;
   mkRule exTrigger (mkAction CSSDisplayNoneSelector [46; 98]);
   mkRule exTriggerIf (mkAction CSSDisplayNoneSelector [46; 99]);
   mkRule exTriggerIf (mkAction CSSDisplayNoneSelector [46; 100])].

(** [exShared]: two [BlockLoad] rules and two selector rules with one
    trigger, in turn. *)
Definition exShared : list ContentExtensionRule :=
  [rule0 BlockLoad 0;
   mkRule exTrigger (mkAction CSSDisplayNoneSelector [46; 97]);
   rule0 BlockLoad 0;
   mkRule exTrigger (mkAction CSSDisplayNoneSelector [46; 98])].

(** [exUniversal]: a [BlockLoad] rule and a selector rule with a condition,
    both on the pattern that matches everything, and two selector rules on
    other patterns.  [exUniversalIf] is one rule on that pattern with a
    condition, [exInvalid] has a pattern that does not parse between two
    [BlockLoad] rules. *)
Definition exUniversal : list ContentExtensionRule :=
  [ruleOn [46; 42] 1 [] CondNone BlockLoad [];
   ruleOn [46; 42] 0 [[97]] IfDomain CSSDisplayNoneSelector [46; 98];
   ruleOn [120] 0 [] CondNone CSSDisplayNoneSelector [46; 99];
   ruleOn [121] 0 [] CondNone CSSDisplayNoneSelector [46; 100]].

Definition exUniversalIf : ContentExtensionRule :=
  ruleOn [46; 42] 0 [[97]] IfDomain BlockLoad [].

Definition exInvalid : list ContentExtensionRule :=
  [rule0 BlockLoad 0; ruleOn [233] 0 [] CondNone BlockLoad []; rule0 BlockLoad 0].

(** A set of [2^16 - 1] action words. *)
Definition exManyActions : gset Z := list_to_set (seqZ 0 UINT16_MAX).

Definition exBlockIgnoreBlock : list ContentExtensionRule :=
  [rule0 BlockLoad 0; rule0 IgnorePreviousRules 0; rule0 BlockLoad 0].

Definition exThreeIgnores : list ContentExtensionRule :=
  [rule0 IgnorePreviousRules 0; rule0 IgnorePreviousRules 0; rule0 IgnorePreviousRules 0].

Definition exConditionedSelectors : list ContentExtensionRule :=
  [mkRule exTriggerIf (mkAction CSSDisplayNoneSelector [46; 99]);
   mkRule exTriggerIf (mkAction CSSDisplayNoneSelector [46; 100])].

(** ** Vocabulary of the further statements *)

(** A string as [WTF::String] holds it: its length fits [unsigned], and
    its code units fit the storage [is8Bit] reports, [LChar] or [UChar]. *)
Definition fitsStorage (is8Bit : String → bool) (s : String) : Prop :=
  Z.of_nat (length s) < 2 ^ 32 ∧
  Forall (λ c, 0 ≤ c < (if is8Bit s then 2 ^ 8 else 2 ^ 16)) s.

#[global] Instance fitsStorage_dec is8Bit s : Decision (fitsStorage is8Bit s).
Proof. unfold fitsStorage. apply _. Defined.

(** Every location a map holds is the offset of a byte that is the action
    type of the map. *)
Definition mapsTagged (actionTypeByte : ActionType → Z) (st : SerializerState) : Prop :=
  ∀ T f l, dedupMap T st !! f = Some l → entryAt (actions st) l [actionTypeByte T].

(** An entry of the action buffer: the byte of an action type that is not
    [CSSDisplayNoneSelector], or a serialized selector. *)
Definition isEntry (actionTypeByte : ActionType → Z) (is8Bit : String → bool)
    (entry : list Z) : Prop :=
  (∃ T, T ≠ CSSDisplayNoneSelector ∧ entry = [actionTypeByte T]) ∨
  (∃ selector, entry = selectorEntry actionTypeByte is8Bit selector).

(** The offset of the [k]-th of the entries laid end to end. *)
Definition entryOffset (entries : list (list Z)) (k : nat) : Z :=
  Z.of_nat (length (mjoin (take k entries))).

Definition isOffset (entries : list (list Z)) (l : Z) : Prop :=
  ∃ k, (k < length entries)%nat ∧ l = entryOffset entries k.

(** The buffer of a state is the entries laid end to end; every location
    that is not pending, in the vector or in a map, is the offset of one of
    them, and every one of them is the location of a position of the
    vector; no pending group is empty, and the entries and the groups
    together are no more than the positions. *)
Record layout (actionTypeByte : ActionType → Z) (is8Bit : String → bool)
    (st : SerializerState) (entries : list (list Z)) : Prop := mkLayout {
  layout_buffer : actions st = mjoin entries;
  layout_entries : Forall (isEntry actionTypeByte is8Bit) entries;
  layout_count :
    (length entries + length (cssDisplayNoneActionsMap st)
     ≤ length (actionLocations st))%nat;
  layout_groups :
    Forall (λ slot, clientLocations slot.2 ≠ []) (cssDisplayNoneActionsMap st);
  layout_locs :
    ∀ i l, i ∉ pendingIndices (cssDisplayNoneActionsMap st) →
           actionLocations st !! i = Some l → isOffset entries l;
  layout_maps : ∀ T f l, dedupMap T st !! f = Some l → isOffset entries l;
  layout_used :
    ∀ k, (k < length entries)%nat →
         ∃ i, (i ∉ pendingIndices (cssDisplayNoneActionsMap st)) ∧
              actionLocations st !! i = Some (entryOffset entries k)
}.

(** The action of the rule at position [i] of [rules] is settled by the end
    of the list: it does not wait in a pending group, or an
    [IgnorePreviousRules] rule behind it has flushed the groups. *)
Definition settledRule (rules : list ContentExtensionRule) (i : nat)
    (rule : ContentExtensionRule) : Prop :=
  ¬ pendingFor (trigger rule) rule ∨
  ∃ j rk, (i < j)%nat ∧ rules !! j = Some rk ∧ isIgnore rk.

(** Two states of the serializer, after the rules [rules], that differ by
    the order in which their flushes visited the slots: the buffers hold
    the same bytes in another order, the maps and the pending groups are
    the same, only selector rules with no conditions are pending, and the
    other rules have the same location in both. *)
Definition sameButSlots (rules : list ContentExtensionRule) (s1 s2 : SerializerState)
    : Prop :=
  actions s1 ≡ₚ actions s2 ∧
  length (actionLocations s1) = length (actionLocations s2) ∧
  cssDisplayNoneActionsMap s1 = cssDisplayNoneActionsMap s2 ∧
  (∀ T, dedupMap T s1 = dedupMap T s2) ∧
  (∀ i, i ∈ pendingIndices (cssDisplayNoneActionsMap s1) →
        ∃ rule, rules !! i = Some rule ∧ pendingFor (trigger rule) rule) ∧
  (∀ i rule, rules !! i = Some rule → ¬ pendingFor (trigger rule) rule →
             actionLocations s1 !! i = actionLocations s2 !! i).

(** Two selector rules with different triggers, and a ranking of the slots
    that visits them in the other order than [oneBucket] does. *)
Definition exTwoGroups : list ContentExtensionRule :=
  [ruleOn [120; 120] 0 [] CondNone CSSDisplayNoneSelector [46; 97];
   ruleOn [121] 0 [] CondNone CSSDisplayNoneSelector [46; 98]].

Definition byFilterLength (keys : list Trigger) (t : Trigger) : nat :=
  length (urlFilter t).

Section PartitionVocabulary.

Variable CombinedURLFilters : Type.
Variable addPattern : CombinedURLFilters → String → bool → Z → ParseStatus * CombinedURLFilters.
Variable addDomain : CombinedURLFilters → Z → String → CombinedURLFilters.
Variable IfConditionFlag : Z.

(** A rule with the location of its action. *)
Definition hasConditions (located : ContentExtensionRule * Z) : Prop :=
  conditions (trigger located.1) ≠ [].

#[global] Instance hasConditions_dec located : Decision (hasConditions located).
Proof. unfold hasConditions. apply _. Defined.

Definition hasNoConditions (located : ContentExtensionRule * Z) : Prop :=
  conditions (trigger located.1) = [].

#[global] Instance hasNoConditions_dec located : Decision (hasNoConditions located).
Proof. unfold hasNoConditions. apply _. Defined.

(** The filters after [addPattern] is called for a rule. *)
Definition withPattern (filters : CombinedURLFilters) (located : ContentExtensionRule * Z)
    : CombinedURLFilters :=
  (addPattern filters (urlFilter (trigger located.1))
     (urlFilterIsCaseSensitive (trigger located.1))
     (actionWord IfConditionFlag (trigger located.1) located.2)).2.

(** The condition filters after [addDomain] is called for each condition
    of a rule. *)
Definition withDomains (filters : CombinedURLFilters) (located : ContentExtensionRule * Z)
    : CombinedURLFilters :=
  foldl (λ f condition,
           addDomain f (actionWord IfConditionFlag (trigger located.1) located.2) condition)
        filters (conditions (trigger located.1)).

End PartitionVocabulary.

(** * Properties *)

Example ex_block_ignore_block :
  serializeActionsEx [rule0 BlockLoad 0; rule0 IgnorePreviousRules 0; rule0 BlockLoad 0]
  = Done ([0; 1; 2], [0; 4; 0]).
Proof. vm_compute. reflexivity. Qed.

(** ** The monad of runs *)

Lemma bind_Done {A B : Type} (m : Run A) (k : A → Run B) (b : B) :
  m ≫= k = Done b ↔ ∃ a, m = Done a ∧ k a = Done b.
Proof.
  destruct m as [a|f]; simpl; split.
  - intros H. exists a. done.
  - intros (a' & [= <-] & H). done.
  - intros H. discriminate H.
  - intros (a' & H & _). discriminate H.
Qed.

Lemma foldlM_app {A B : Type} (body : B → A → Run B) (st : B) (l1 l2 : list A) :
  foldlM body st (l1 ++ l2) = foldlM body st l1 ≫= λ st', foldlM body st' l2.
Proof.
  revert st. induction l1 as [|x l1 IH]; intros st; simpl; [done|].
  destruct (body st x) as [st'|f]; simpl; [apply IH|done].
Qed.

Lemma foldlM_Done_app {A B : Type} (body : B → A → Run B) (st st2 : B) (l1 l2 : list A) :
  foldlM body st (l1 ++ l2) = Done st2 ↔
  ∃ st1, foldlM body st l1 = Done st1 ∧ foldlM body st1 l2 = Done st2.
Proof. rewrite foldlM_app. apply bind_Done. Qed.

Lemma foldlM_Done_cons {A B : Type} (body : B → A → Run B) (st st2 : B) (x : A) (l : list A) :
  foldlM body st (x :: l) = Done st2 ↔
  ∃ st1, body st x = Done st1 ∧ foldlM body st1 l = Done st2.
Proof. simpl. apply bind_Done. Qed.

(** An invariant of the loop body is an invariant of the loop. *)
Lemma foldlM_invariant {A B : Type} (P : B → Prop) (body : B → A → Run B) (l : list A) :
  (∀ st x st', P st → body st x = Done st' → P st') →
  ∀ st st', P st → foldlM body st l = Done st' → P st'.
Proof.
  intros Hbody. induction l as [|x l IH]; intros st st' HP; simpl.
  - intros [= <-]. done.
  - intros (st1 & H1 & H2)%bind_Done. eauto.
Qed.

(** ** Writes into the location vector *)

Lemma assign_length (locs : list Z) (cs : list nat) (l : Z) :
  length (assign locs cs l) = length locs.
Proof.
  unfold assign. revert locs. induction cs as [|c cs IH]; intros locs; simpl; [done|].
  rewrite IH. apply length_insert.
Qed.

Lemma assign_lookup_other (locs : list Z) (cs : list nat) (l : Z) (i : nat) :
  i ∉ cs → assign locs cs l !! i = locs !! i.
Proof.
  unfold assign. revert locs. induction cs as [|c cs IH]; intros locs Hi; simpl; [done|].
  apply not_elem_of_cons in Hi as [Hne Hi].
  rewrite IH by done. apply list_lookup_insert_ne. done.
Qed.

Lemma assign_lookup_written (locs : list Z) (cs : list nat) (l : Z) (i : nat) :
  i ∈ cs → (i < length locs)%nat → assign locs cs l !! i = Some l.
Proof.
  unfold assign. revert locs. induction cs as [|c cs IH]; intros locs Hi Hlt; simpl.
  - inv Hi.
  - destruct (decide (i ∈ cs)) as [Hin|Hnin].
    + apply IH; [done|]. rewrite length_insert. done.
    + apply elem_of_cons in Hi as [->|Hi]; [|done].
      fold (assign (<[c:=l]> locs) cs l). rewrite assign_lookup_other by done.
      apply list_lookup_insert_eq. done.
Qed.

Lemma vectorSet_Done {A : Type} (v : list A) (i : nat) (x : A) :
  (i < length v)%nat → vectorSet v i x = Done (<[i := x]> v).
Proof. intros H. unfold vectorSet. rewrite decide_True by done. done. Qed.

Lemma foldlM_vectorSet (locs : list Z) (cs : list nat) (l : Z) :
  Forall (λ c, (c < length locs)%nat) cs →
  foldlM (λ locs c, vectorSet locs c l) locs cs = Done (assign locs cs l).
Proof.
  unfold assign. revert locs. induction cs as [|c cs IH]; intros locs Hcs; [done|].
  inv Hcs. cbn [foldlM foldl]. rewrite vectorSet_Done by done.
  cbn [mbind Run_bind]. apply IH. eapply Forall_impl; [done|]. intros c'. rewrite length_insert. done.
Qed.

(** ** Selector entries and the flush of the pending groups *)

Section SerializerFacts.

Variable actionTypeByte : ActionType → Z.
Variable is8Bit : String → bool.
Variable slotRank : list Trigger → Trigger → nat.

Local Abbreviation entryOf := (selectorEntry actionTypeByte is8Bit).
Local Abbreviation resolvePure := (resolveSlotPure actionTypeByte is8Bit).

Lemma serializeSelector_app (acts : list Z) (s : String) :
  serializeSelector actionTypeByte is8Bit acts s = acts ++ entryOf s.
Proof.
  unfold selectorEntry, serializeSelector.
  destruct (negb (is8Bit s)); simpl; rewrite <- ?app_assoc; done.
Qed.

Lemma selectorEntry_length (s : String) : (6 ≤ length (entryOf s))%nat.
Proof.
  unfold selectorEntry, serializeSelector.
  destruct (negb (is8Bit s)); rewrite !length_app; simpl; lia.
Qed.

Lemma combineSelectors_succ (i : nat) (sels : list String) (acc : String) :
  combineSelectors (S i) sels acc = acc ++ (sels ≫= λ s, 44 :: s).
Proof.
  revert i acc. induction sels as [|s sels IH]; intros i acc; simpl.
  - by rewrite app_nil_r.
  - rewrite IH. rewrite <- !app_assoc. done.
Qed.

Lemma joinComma_cons (s : String) (rest : list String) :
  joinComma (s :: rest) = s ++ (rest ≫= λ s, 44 :: s).
Proof.
  revert s. induction rest as [|s' rest IH]; intros s.
  - simpl. by rewrite app_nil_r.
  - change (joinComma (s :: s' :: rest)) with (s ++ 44 :: joinComma (s' :: rest)).
    rewrite IH. done.
Qed.

(** The [StringBuilder] loop builds the comma-joined string. *)
Lemma combineSelectors_joinComma (sels : list String) :
  combineSelectors 0 sels [] = joinComma sels.
Proof.
  destruct sels as [|s rest]; [done|].
  rewrite joinComma_cons. simpl. apply combineSelectors_succ.
Qed.

Lemma entryAt_app (buf ext : list Z) (l : Z) (entry : list Z) :
  entryAt buf l entry → entryAt (buf ++ ext) l entry.
Proof.
  intros (before & after & -> & Hl). exists before, (after ++ ext).
  rewrite <- !app_assoc. done.
Qed.

Lemma entryAt_here (buf entry : list Z) :
  entryAt (buf ++ entry) (Z.of_nat (length buf)) entry.
Proof. exists buf, []. rewrite app_nil_r. done. Qed.

Lemma entryAt_bound (buf : list Z) (l : Z) (entry : list Z) :
  entryAt buf l entry → 0 ≤ l ∧ l + Z.of_nat (length entry) ≤ Z.of_nat (length buf).
Proof. intros (before & after & -> & <-). rewrite !length_app. lia. Qed.

Lemma resolveSlot_Done (acts locs : list Z) (slot : Trigger * PendingDisplayNoneActions) :
  Forall (λ c, (c < length locs)%nat) (clientLocations slot.2) →
  resolveSlot actionTypeByte is8Bit (acts, locs) slot = Done (resolvePure (acts, locs) slot).
Proof.
  intros H. unfold resolveSlot, resolveSlotPure. simpl.
  rewrite foldlM_vectorSet by done. done.
Qed.

Lemma resolvePure_length (st : list Z * list Z) (slots : PendingDisplayNoneActionsMap) :
  length (foldl resolvePure st slots).2 = length st.2.
Proof.
  revert st. induction slots as [|slot slots IH]; intros st; simpl; [done|].
  rewrite IH. simpl. apply assign_length.
Qed.

Lemma resolvePure_prefix (st : list Z * list Z) (slots : PendingDisplayNoneActionsMap) :
  ∃ ext, (foldl resolvePure st slots).1 = st.1 ++ ext.
Proof.
  revert st. induction slots as [|slot slots IH]; intros st; simpl.
  - exists []. by rewrite app_nil_r.
  - destruct (IH (resolvePure st slot)) as [ext ->]. simpl.
    rewrite serializeSelector_app, <- app_assoc. eauto.
Qed.

Lemma resolvePure_lookup_other (st : list Z * list Z) (slots : PendingDisplayNoneActionsMap)
    (i : nat) :
  i ∉ pendingIndices slots → (foldl resolvePure st slots).2 !! i = st.2 !! i.
Proof.
  revert st. induction slots as [|slot slots IH]; intros st Hi; simpl; [done|].
  unfold pendingIndices in Hi. rewrite bind_cons in Hi.
  apply not_elem_of_app in Hi as [Hi1 Hi2].
  rewrite IH by done. simpl. apply assign_lookup_other. done.
Qed.

Lemma foldlM_resolveSlot (acts locs : list Z) (slots : PendingDisplayNoneActionsMap) :
  Forall (λ c, (c < length locs)%nat) (pendingIndices slots) →
  foldlM (resolveSlot actionTypeByte is8Bit) (acts, locs) slots
  = Done (foldl resolvePure (acts, locs) slots).
Proof.
  revert acts locs. induction slots as [|slot slots IH]; intros acts locs H; [done|].
  unfold pendingIndices in H. rewrite bind_cons in H. apply Forall_app in H as [H1 H2].
  cbn [foldlM foldl]. rewrite resolveSlot_Done by done. cbn [mbind Run_bind].
  unfold resolveSlotPure at 1 3. cbn [fst snd]. apply IH.
  rewrite assign_length. done.
Qed.

(** Every member of a pending group is given the location of the entry
    that holds the group's selectors, joined. *)
Lemma resolvePure_group (st : list Z * list Z) (slots : PendingDisplayNoneActionsMap)
    (slot : Trigger * PendingDisplayNoneActions) :
  NoDup (pendingIndices slots) →
  Forall (λ c, (c < length st.2)%nat) (pendingIndices slots) →
  slot ∈ slots →
  ∃ L, Z.of_nat (length st.1) ≤ L ∧
       entryAt (foldl resolvePure st slots).1 L (entryOf (joinComma (selectors slot.2))) ∧
       ∀ c, c ∈ clientLocations slot.2 → (foldl resolvePure st slots).2 !! c = Some L.
Proof.
  revert st. induction slots as [|s0 slots IH]; intros st Hnd Hlt Hin; [inv Hin|].
  unfold pendingIndices in Hnd, Hlt. rewrite bind_cons in Hnd, Hlt.
  apply NoDup_app in Hnd as (Hnd0 & Hdisj & Hnd).
  apply Forall_app in Hlt as [Hlt0 Hlt].
  cbn [foldl].
  apply elem_of_cons in Hin as [->|Hin].
  - exists (Z.of_nat (length st.1)). split; [lia|]. split.
    + destruct (resolvePure_prefix (resolvePure st s0) slots) as [ext ->].
      apply entryAt_app. unfold resolveSlotPure. cbn [fst].
      rewrite serializeSelector_app, combineSelectors_joinComma. apply entryAt_here.
    + intros c Hc. rewrite resolvePure_lookup_other by (apply Hdisj; done).
      unfold resolveSlotPure. cbn [snd]. apply assign_lookup_written; [done|].
      rewrite Forall_forall in Hlt0. apply Hlt0. done.
  - destruct (IH (resolvePure st s0)) as (L & HL & Hentry & Hlocs); [done| |done|].
    + unfold resolveSlotPure. cbn [snd]. rewrite assign_length. done.
    + exists L. split; [|done].
      unfold resolveSlotPure in HL. cbn [fst] in HL.
      rewrite serializeSelector_app, length_app in HL. lia.
Qed.

Lemma slotOrder_Permutation (m : PendingDisplayNoneActionsMap) :
  slotOrder slotRank m ≡ₚ m.
Proof. unfold slotOrder. apply merge_sort_Permutation. Qed.

Lemma pendingIndices_slotOrder (m : PendingDisplayNoneActionsMap) :
  pendingIndices (slotOrder slotRank m) ≡ₚ pendingIndices m.
Proof. unfold pendingIndices. by rewrite slotOrder_Permutation. Qed.

End SerializerFacts.

(** ** The map of pending groups *)

Lemma hashMapUpdate_keys (t : Trigger) (f : PendingDisplayNoneActions → PendingDisplayNoneActions)
    (m : PendingDisplayNoneActionsMap) :
  (hashMapUpdate t f m).*1 = m.*1.
Proof.
  induction m as [|[k v] m IH]; [done|]. cbn [hashMapUpdate].
  destruct (decide (k = t)); [done|]. rewrite !fmap_cons. by rewrite IH.
Qed.

Lemma hashMapAdd_keys_NoDup (t : Trigger) (v : PendingDisplayNoneActions)
    (m : PendingDisplayNoneActionsMap) :
  NoDup m.*1 → NoDup (hashMapAdd t v m).*1.
Proof.
  intros H. unfold hashMapAdd. destruct (decide (t ∈ m.*1)) as [Hin|Hnin]; [done|].
  rewrite fmap_app. apply NoDup_app. split_and!; [done| |apply NoDup_singleton].
  intros k Hk Hk'. simpl in Hk'. apply list_elem_of_singleton in Hk' as ->. done.
Qed.

Lemma hashMapAdd_elem_key (t : Trigger) (v : PendingDisplayNoneActions)
    (m : PendingDisplayNoneActionsMap) :
  t ∈ (hashMapAdd t v m).*1.
Proof.
  unfold hashMapAdd. destruct (decide (t ∈ m.*1)) as [Hin|Hnin]; [done|].
  rewrite fmap_app. apply elem_of_app. right. simpl. apply list_elem_of_singleton. done.
Qed.

Lemma pendingGet_None (t : Trigger) (m : PendingDisplayNoneActionsMap) :
  pendingGet t m = None ↔ t ∉ m.*1.
Proof.
  induction m as [|[k v] m IH]; simpl.
  - split; [intros _; apply not_elem_of_nil|done].
  - rewrite not_elem_of_cons. destruct (decide (k = t)) as [->|Hne].
    + split; [done|]. intros [H _]. done.
    + rewrite IH. split; [intros H; split; [congruence|done]|intros [_ H]; done].
Qed.

Lemma pendingGet_elem (t : Trigger) (m : PendingDisplayNoneActionsMap)
    (p : PendingDisplayNoneActions) :
  pendingGet t m = Some p → (t, p) ∈ m.
Proof.
  induction m as [|[k v] m IH]; simpl; [done|].
  destruct (decide (k = t)) as [->|Hne].
  - intros [= ->]. apply list_elem_of_here.
  - intros H. apply list_elem_of_further. auto.
Qed.

Lemma pendingGet_app (t : Trigger) (m1 m2 : PendingDisplayNoneActionsMap) :
  pendingGet t (m1 ++ m2) =
  match pendingGet t m1 with Some p => Some p | None => pendingGet t m2 end.
Proof.
  induction m1 as [|[k v] m1 IH]; simpl; [done|].
  destruct (decide (k = t)); done.
Qed.

Lemma pendingGet_update (t t' : Trigger)
    (f : PendingDisplayNoneActions → PendingDisplayNoneActions)
    (m : PendingDisplayNoneActionsMap) :
  pendingGet t' (hashMapUpdate t f m) =
  if decide (t' = t) then f <$> pendingGet t m else pendingGet t' m.
Proof.
  induction m as [|[k v] m IH]; simpl.
  - destruct (decide (t' = t)); done.
  - destruct (decide (k = t)) as [->|Hne]; simpl.
    + repeat case_decide; simplify_eq; done.
    + repeat case_decide; simplify_eq; done.
Qed.

Lemma pendingGet_addPending (t t' : Trigger) (selector : String) (c : nat)
    (m : PendingDisplayNoneActionsMap) :
  pendingGet t' (addPending t selector c m) =
  if decide (t' = t)
  then Some (mkPending
               (selectors (default (mkPending [] []) (pendingGet t m)) ++ [selector])
               (clientLocations (default (mkPending [] []) (pendingGet t m)) ++ [c]))
  else pendingGet t' m.
Proof.
  unfold addPending. rewrite pendingGet_update. unfold hashMapAdd.
  destruct (decide (t ∈ m.*1)) as [Hin|Hnin].
  - destruct (decide (t' = t)) as [->|Hne]; [|done].
    destruct (pendingGet t m) as [p|] eqn:Hget; [done|].
    apply pendingGet_None in Hget. done.
  - apply pendingGet_None in Hnin as Hget. rewrite !pendingGet_app. simpl.
    rewrite Hget. simpl.
    repeat case_decide; simplify_eq; try done. destruct (pendingGet t' m); done.
Qed.

Lemma pendingIndices_update (t : Trigger) (selector : String) (c : nat)
    (m : PendingDisplayNoneActionsMap) :
  t ∈ m.*1 →
  pendingIndices
    (hashMapUpdate t (λ p, mkPending (selectors p ++ [selector]) (clientLocations p ++ [c])) m)
  ≡ₚ pendingIndices m ++ [c].
Proof.
  unfold pendingIndices. induction m as [|[k v] m IH]; simpl; intros Hin.
  - inv Hin.
  - destruct (decide (k = t)) as [->|Hne]; rewrite !bind_cons; simpl.
    + rewrite <- !app_assoc. f_equiv. apply Permutation_app_comm.
    + apply elem_of_cons in Hin as [Heq|Hin]; [congruence|].
      rewrite IH by done. by rewrite app_assoc.
Qed.

Lemma pendingIndices_addPending (t : Trigger) (selector : String) (c : nat)
    (m : PendingDisplayNoneActionsMap) :
  pendingIndices (addPending t selector c m) ≡ₚ pendingIndices m ++ [c].
Proof.
  unfold addPending. rewrite pendingIndices_update by apply hashMapAdd_elem_key.
  f_equiv. unfold hashMapAdd. destruct (decide (t ∈ m.*1)); [done|].
  unfold pendingIndices. rewrite bind_app. simpl. by rewrite !app_nil_r.
Qed.

Lemma addPending_keys_NoDup (t : Trigger) (selector : String) (c : nat)
    (m : PendingDisplayNoneActionsMap) :
  NoDup m.*1 → NoDup (addPending t selector c m).*1.
Proof.
  intros H. unfold addPending. rewrite hashMapUpdate_keys. by apply hashMapAdd_keys_NoDup.
Qed.

(** ** One iteration of the serializer *)

Section SerializerSteps.

Variable actionTypeByte : ActionType → Z.
Variable is8Bit : String → bool.
Variable slotRank : list Trigger → Trigger → nat.

Local Abbreviation entryOf := (selectorEntry actionTypeByte is8Bit).
Local Abbreviation resolvePure := (resolveSlotPure actionTypeByte is8Bit).
Local Abbreviation step := (serializeRule actionTypeByte is8Bit slotRank).
Local Abbreviation clear := (clearMaps actionTypeByte is8Bit slotRank).
Local Abbreviation push := (pushAction actionTypeByte is8Bit).
Local Abbreviation resolvePending :=
  (resolvePendingDisplayNoneActions actionTypeByte is8Bit slotRank).

Lemma resolvePending_Done (acts locs : list Z) (m : PendingDisplayNoneActionsMap) :
  Forall (λ c, (c < length locs)%nat) (pendingIndices m) →
  resolvePending acts locs m = Done (foldl resolvePure (acts, locs) (slotOrder slotRank m)).
Proof.
  intros H. unfold resolvePendingDisplayNoneActions. apply foldlM_resolveSlot.
  by rewrite pendingIndices_slotOrder.
Qed.

(** A flush aborts only on a write out of the vector. *)
Lemma resolvePending_inv (acts locs : list Z) (m : PendingDisplayNoneActionsMap)
    (res : list Z * list Z) :
  resolvePending acts locs m = Done res →
  Forall (λ c, (c < length locs)%nat) (pendingIndices m) →
  res = foldl resolvePure (acts, locs) (slotOrder slotRank m).
Proof. intros H Hr. rewrite resolvePending_Done in H by done. by injection H. Qed.

Lemma clearMaps_effect (st st' : SerializerState) (T : ActionType) :
  Forall (λ c, (c < length (actionLocations st))%nat)
    (pendingIndices (cssDisplayNoneActionsMap st)) →
  clear st T = Done st' → clearEffect actionTypeByte is8Bit slotRank st T st'.
Proof.
  intros Hr. unfold clearMaps. destruct (decide (T = IgnorePreviousRules)) as [->|Hne].
  - rewrite resolvePending_Done by done.
    destruct (foldl _ _ _) as [acts locs] eqn:Hres. simpl. intros [= <-].
    apply clear_ignore; simpl; try done.
    intros T'. destruct T'; done.
  - simpl. intros [= <-]. apply clear_other; simpl; try done.
    intros T'. destruct T'; done.
Qed.

Lemma clearMaps_total (st : SerializerState) (T : ActionType) :
  Forall (λ c, (c < length (actionLocations st))%nat)
    (pendingIndices (cssDisplayNoneActionsMap st)) →
  ∃ st', clear st T = Done st'.
Proof.
  intros Hr. unfold clearMaps. destruct (decide (T = IgnorePreviousRules)) as [->|Hne].
  - rewrite resolvePending_Done by done. destruct (foldl _ _ _). simpl. eauto.
  - simpl. eauto.
Qed.

Lemma pushAction_effect (st st' : SerializerState) (rule : ContentExtensionRule) :
  push st rule = Done st' → pushEffect actionTypeByte is8Bit st rule st'.
Proof.
  unfold pushAction.
  destruct (decide (conditions (trigger rule) ≠ [])) as [Hc|Hc].
  - simpl. intros [= <-]. apply push_conditioned; simpl; try done.
    unfold ownEntry. destruct (decide _); [apply serializeSelector_app|done].
  - apply dec_stable in Hc.
    destruct (type (action rule)) eqn:HT; try discriminate;
      unfold findOrMakeActionLocation;
      try (match goal with |- context [?m !! ?f] => destruct (m !! f) as [l|] eqn:Hget end;
           simpl; intros [= <-];
           [ eapply (push_found _ _ _ _ _ l) | eapply push_fresh ];
           rewrite ?HT; unfold dedupType; simpl; auto;
           intros T'; destruct T'; simpl; done).
    simpl. intros [= <-]. apply push_pending; simpl; done.
Qed.

Lemma pushAction_total (st : SerializerState) (rule : ContentExtensionRule) :
  serializable rule → ∃ st', push st rule = Done st'.
Proof.
  intros Hs. unfold pushAction.
  destruct (decide (conditions (trigger rule) ≠ [])) as [Hc|Hc]; [simpl; eauto|].
  destruct Hs as [Hs|[Hs1 Hs2]]; [done|].
  destruct (type (action rule)); try done; unfold findOrMakeActionLocation;
    try (match goal with |- context [?m !! ?f] => destruct (m !! f) end); simpl; eauto.
Qed.

Lemma pushAction_serializable (st st' : SerializerState) (rule : ContentExtensionRule) :
  push st rule = Done st' → serializable rule.
Proof.
  unfold pushAction, serializable.
  destruct (decide (conditions (trigger rule) ≠ [])) as [Hc|Hc]; [by left|].
  destruct (type (action rule)); try discriminate; intros _; right; done.
Qed.

(** What a flush leaves: every position holds an offset of the buffer. *)
Lemma resolvePure_resolved (st : SerializerState) (res : list Z * list Z) (i : nat) :
  wfState st →
  res = foldl resolvePure (actions st, actionLocations st)
          (slotOrder slotRank (cssDisplayNoneActionsMap st)) →
  (i < length (actionLocations st))%nat →
  ∃ l, res.2 !! i = Some l ∧ 0 ≤ l < Z.of_nat (length res.1).
Proof.
  intros Hwf -> Hi.
  destruct (resolvePure_prefix actionTypeByte is8Bit (actions st, actionLocations st)
              (slotOrder slotRank (cssDisplayNoneActionsMap st))) as [ext Hext].
  simpl in Hext.
  destruct (decide (i ∈ pendingIndices (cssDisplayNoneActionsMap st))) as [Hin|Hnin].
  - apply list_elem_of_bind in Hin as (slot & Hi' & Hslot).
    destruct (resolvePure_group actionTypeByte is8Bit (actions st, actionLocations st)
                (slotOrder slotRank (cssDisplayNoneActionsMap st)) slot)
      as (L & HL & Hentry & Hlocs).
    + rewrite pendingIndices_slotOrder. apply Hwf.
    + rewrite pendingIndices_slotOrder. apply Hwf.
    + by rewrite slotOrder_Permutation.
    + exists L. split; [by apply Hlocs|].
      apply entryAt_bound in Hentry.
      pose proof (selectorEntry_length actionTypeByte is8Bit (joinComma (selectors slot.2))).
      lia.
  - rewrite resolvePure_lookup_other by (by rewrite pendingIndices_slotOrder).
    destruct (wf_resolved st Hwf i Hi Hnin) as (l & Hl & Hb). exists l. split; [done|].
    rewrite Hext, length_app. simpl. lia.
Qed.

Lemma clearEffect_wf (st st' : SerializerState) (T : ActionType) :
  wfState st → clearEffect actionTypeByte is8Bit slotRank st T st' → wfState st'.
Proof.
  intros Hwf [-> Hres Hcss Hmaps | Hne Hacts Hlocs Hcss Hmaps].
  - assert (Hlen : length (actionLocations st') = length (actionLocations st)).
    { change (actionLocations st') with ((actions st', actionLocations st').2).
      rewrite Hres. apply resolvePure_length. }
    destruct (resolvePure_prefix actionTypeByte is8Bit (actions st, actionLocations st)
                (slotOrder slotRank (cssDisplayNoneActionsMap st))) as [ext Hext].
    rewrite <- Hres in Hext. simpl in Hext.
    split; rewrite ?Hcss.
    + apply NoDup_nil_2.
    + apply NoDup_nil_2.
    + apply Forall_nil_2.
    + intros i Hi _. rewrite Hlen in Hi.
      destruct (resolvePure_resolved st _ i Hwf eq_refl Hi) as (l & Hl & Hb).
      rewrite <- Hres in Hl, Hb. eauto.
    + intros T' f l. rewrite Hmaps, Hext, length_app. case_decide; [|done].
      intros Hl. pose proof (wf_maps st Hwf IgnorePreviousRules f l Hl). lia.
  - split; rewrite ?Hcss, ?Hlocs, ?Hacts; try apply Hwf.
    intros T' f l. rewrite Hmaps. case_decide; [done|]. apply Hwf.
Qed.

Lemma pushEffect_wf (st st' : SerializerState) (rule : ContentExtensionRule) :
  wfState st → pushEffect actionTypeByte is8Bit st rule st' → wfState st'.
Proof.
  intros Hwf Heff.
  assert (Hown : (1 ≤ length (ownEntry actionTypeByte is8Bit rule))%nat).
  { unfold ownEntry. case_decide; [|simpl; lia].
    pose proof (selectorEntry_length actionTypeByte is8Bit (stringArgument (action rule))).
    lia. }
  assert (Hold : ∀ i l ext v,
            (i < length (actionLocations st ++ [v]))%nat →
            i ∉ pendingIndices (cssDisplayNoneActionsMap st) →
            0 ≤ l < Z.of_nat (length (actions st ++ ext)) →
            v = l →
            ∃ l', (actionLocations st ++ [v]) !! i = Some l' ∧
                  0 ≤ l' < Z.of_nat (length (actions st ++ ext))).
  { intros i l ext v Hi Hnin Hl ->. rewrite length_app in Hi. simpl in Hi.
    destruct (decide (i = length (actionLocations st))) as [->|Hne].
    - exists l. split; [|done]. rewrite lookup_app_r by lia.
      by rewrite Nat.sub_diag.
    - destruct (wf_resolved st Hwf i ltac:(lia) Hnin) as (l' & Hl' & Hb).
      exists l'. split; [by rewrite lookup_app_l by lia|].
      rewrite length_app. lia. }
  assert (Hrange : ∀ v, Forall (λ c, (c < length (actionLocations st ++ [v]))%nat)
                          (pendingIndices (cssDisplayNoneActionsMap st))).
  { intros v. eapply Forall_impl; [apply Hwf|]. intros c. rewrite length_app. simpl. lia. }
  destruct Heff as [Hc Hacts Hlocs Hcss Hmaps | Hc HT Hacts Hlocs Hcss Hmaps
                   | l Hc HT Hget Hacts Hlocs Hcss Hmaps | Hc HT Hget Hacts Hlocs Hcss Hmaps].
  - split; rewrite ?Hcss, ?Hlocs, ?Hacts; try apply Hwf; try apply Hrange.
    + intros i Hi Hnin. eapply Hold; [done|done| |done]. rewrite length_app. lia.
    + intros T f l. rewrite Hmaps. intros Hl. apply (wf_maps st Hwf) in Hl.
      rewrite length_app. lia.
  - assert (Hnew : length (actionLocations st) ∉ pendingIndices (cssDisplayNoneActionsMap st)).
    { intros Hin. pose proof (wf_range st Hwf) as Hr. rewrite Forall_forall in Hr.
      apply Hr in Hin. lia. }
    split; rewrite ?Hcss, ?Hlocs, ?Hacts.
    + apply addPending_keys_NoDup, Hwf.
    + rewrite pendingIndices_addPending. apply NoDup_app. split_and!.
      * apply Hwf.
      * intros c Hc1 Hc2. apply list_elem_of_singleton in Hc2 as ->. done.
      * apply NoDup_singleton.
    + rewrite pendingIndices_addPending. apply Forall_app. split; [apply Hrange|].
      apply Forall_singleton. rewrite length_app. simpl. lia.
    + intros i Hi Hnin. rewrite pendingIndices_addPending in Hnin.
      apply not_elem_of_app in Hnin as [Hnin Hne].
      apply not_elem_of_cons in Hne as [Hne _].
      rewrite length_app in Hi. simpl in Hi.
      destruct (wf_resolved st Hwf i ltac:(lia) Hnin) as (l' & Hl' & Hb).
      exists l'. split; [by rewrite lookup_app_l by lia|done].
    + intros T f l. rewrite Hmaps. apply Hwf.
  - pose proof (wf_maps st Hwf _ _ _ Hget) as Hb.
    split; rewrite ?Hcss, ?Hlocs, ?Hacts; try apply Hwf; try apply Hrange.
    + intros i Hi Hnin. rewrite <- (app_nil_r (actions st)).
      eapply Hold; [done|done| |done]. by rewrite app_nil_r.
    + intros T f l'. rewrite Hmaps. apply Hwf.
  - split; rewrite ?Hcss, ?Hlocs, ?Hacts; try apply Hwf; try apply Hrange.
    + intros i Hi Hnin. eapply Hold; [done|done| |done]. rewrite length_app. simpl. lia.
    + intros T f l. rewrite Hmaps, length_app. simpl. case_decide.
      * intros [[_ <-]|[_ Hl]]%lookup_insert_Some; [lia|].
        apply (wf_maps st Hwf) in Hl. lia.
      * intros Hl. apply (wf_maps st Hwf) in Hl. lia.
Qed.

Lemma initialState_wf : wfState initialState.
Proof.
  split; simpl.
  - apply NoDup_nil_2.
  - apply NoDup_nil_2.
  - apply Forall_nil_2.
  - intros i Hi. lia.
  - intros T f l. destruct T; simpl; rewrite lookup_empty; done.
Qed.

(** The loop body in its two halves. *)
Lemma step_effect (st st' : SerializerState) (rule : ContentExtensionRule) :
  wfState st → step st rule = Done st' →
  ∃ st1, clearEffect actionTypeByte is8Bit slotRank st (type (action rule)) st1 ∧
         wfState st1 ∧
         pushEffect actionTypeByte is8Bit st1 rule st' ∧
         wfState st'.
Proof.
  intros Hwf (st1 & Hclear & Hpush)%bind_Done.
  apply clearMaps_effect in Hclear; [|apply Hwf].
  apply pushAction_effect in Hpush.
  pose proof (clearEffect_wf _ _ _ Hwf Hclear) as Hwf1.
  exists st1. split_and!; try done. by eapply pushEffect_wf.
Qed.

Lemma step_wf (st st' : SerializerState) (rule : ContentExtensionRule) :
  wfState st → step st rule = Done st' → wfState st'.
Proof. intros Hwf Hstep. destruct (step_effect _ _ _ Hwf Hstep) as (? & ? & ? & ? & ?). done. Qed.

Lemma run_wf (st st' : SerializerState) (rules : list ContentExtensionRule) :
  wfState st → foldlM step st rules = Done st' → wfState st'.
Proof. apply foldlM_invariant. intros ? ? ?. apply step_wf. Qed.

(** The serializer aborts only on an action type it has no case for. *)
Lemma step_total (st : SerializerState) (rule : ContentExtensionRule) :
  wfState st → serializable rule → ∃ st', step st rule = Done st'.
Proof.
  intros Hwf Hs. unfold serializeRule.
  destruct (clearMaps_total st (type (action rule))) as [st1 Hclear]; [apply Hwf|].
  rewrite Hclear. simpl. by apply pushAction_total.
Qed.

Lemma step_serializable (st st' : SerializerState) (rule : ContentExtensionRule) :
  step st rule = Done st' → serializable rule.
Proof. intros (st1 & _ & Hpush)%bind_Done. by eapply pushAction_serializable. Qed.

Lemma run_total (st : SerializerState) (rules : list ContentExtensionRule) :
  wfState st → Forall serializable rules → ∃ st', foldlM step st rules = Done st'.
Proof.
  revert st. induction rules as [|rule rules IH]; intros st Hwf Hs; simpl; [eauto|].
  inv Hs. destruct (step_total st rule) as [st1 Hstep]; [done..|].
  rewrite Hstep. simpl. apply IH; [|done]. by eapply step_wf.
Qed.

Lemma run_serializable (st st' : SerializerState) (rules : list ContentExtensionRule) :
  foldlM step st rules = Done st' → Forall serializable rules.
Proof.
  revert st. induction rules as [|rule rules IH]; intros st; simpl; [done|].
  intros (st1 & Hstep & Hrun)%bind_Done. constructor; [by eapply step_serializable|eauto].
Qed.

(** ** Later states *)

Lemma extends_refl (st : SerializerState) : extends st st.
Proof. split_and!; [exists []; by rewrite app_nil_r|done|done]. Qed.

Lemma extends_trans (st1 st2 st3 : SerializerState) :
  extends st1 st2 → extends st2 st3 → extends st1 st3.
Proof.
  intros ([e1 H1] & Hl1 & Hs1) ([e2 H2] & Hl2 & Hs2). split_and!.
  - exists (e1 ++ e2). rewrite H2, H1, app_assoc. done.
  - lia.
  - intros i Hi Hnin. destruct (Hs1 i Hi Hnin) as [Heq Hn].
    destruct (Hs2 i ltac:(lia) Hn) as [Heq' Hn']. split; [congruence|done].
Qed.

Lemma clearEffect_length (st st' : SerializerState) (T : ActionType) :
  clearEffect actionTypeByte is8Bit slotRank st T st' →
  length (actionLocations st') = length (actionLocations st).
Proof.
  intros [-> Hres Hcss Hmaps | Hne Hacts Hlocs Hcss Hmaps]; [|by rewrite Hlocs].
  change (actionLocations st') with ((actions st', actionLocations st').2).
  rewrite Hres. apply resolvePure_length.
Qed.

Lemma pushEffect_length (st st' : SerializerState) (rule : ContentExtensionRule) :
  pushEffect actionTypeByte is8Bit st rule st' →
  length (actionLocations st') = S (length (actionLocations st)).
Proof.
  intros [Hc Hacts Hlocs Hcss Hmaps | Hc HT Hacts Hlocs Hcss Hmaps
         | l Hc HT Hget Hacts Hlocs Hcss Hmaps | Hc HT Hget Hacts Hlocs Hcss Hmaps];
    rewrite Hlocs, length_app; simpl; lia.
Qed.

Lemma clearEffect_extends (st st' : SerializerState) (T : ActionType) :
  clearEffect actionTypeByte is8Bit slotRank st T st' → extends st st'.
Proof.
  intros Heff. pose proof (clearEffect_length _ _ _ Heff) as Hlen.
  destruct Heff as [-> Hres Hcss Hmaps | Hne Hacts Hlocs Hcss Hmaps].
  - split_and!.
    + destruct (resolvePure_prefix actionTypeByte is8Bit (actions st, actionLocations st)
                  (slotOrder slotRank (cssDisplayNoneActionsMap st))) as [ext Hext].
      rewrite <- Hres in Hext. eauto.
    + lia.
    + intros i Hi Hnin. rewrite Hcss. split; [|apply not_elem_of_nil].
      change (actionLocations st') with ((actions st', actionLocations st').2).
      rewrite Hres. apply resolvePure_lookup_other. by rewrite pendingIndices_slotOrder.
  - split_and!.
    + exists []. by rewrite app_nil_r.
    + lia.
    + intros i Hi Hnin. by rewrite Hlocs, Hcss.
Qed.

Lemma pushEffect_extends (st st' : SerializerState) (rule : ContentExtensionRule) :
  pushEffect actionTypeByte is8Bit st rule st' → extends st st'.
Proof.
  intros Heff. pose proof (pushEffect_length _ _ _ Heff) as Hlen.
  split_and!; [|lia|].
  - destruct Heff as [Hc Hacts Hlocs Hcss Hmaps | Hc HT Hacts Hlocs Hcss Hmaps
                     | l Hc HT Hget Hacts Hlocs Hcss Hmaps | Hc HT Hget Hacts Hlocs Hcss Hmaps];
      rewrite Hacts; eauto; exists []; by rewrite app_nil_r.
  - intros i Hi Hnin.
    destruct Heff as [Hc Hacts Hlocs Hcss Hmaps | Hc HT Hacts Hlocs Hcss Hmaps
                     | l Hc HT Hget Hacts Hlocs Hcss Hmaps | Hc HT Hget Hacts Hlocs Hcss Hmaps];
      rewrite Hlocs, Hcss, lookup_app_l by done; split; try done.
    rewrite pendingIndices_addPending. apply not_elem_of_app. split; [done|].
    apply not_elem_of_cons. split; [lia|apply not_elem_of_nil].
Qed.

Lemma step_extends (st st' : SerializerState) (rule : ContentExtensionRule) :
  wfState st → step st rule = Done st' → extends st st'.
Proof.
  intros Hwf Hstep. destruct (step_effect _ _ _ Hwf Hstep) as (st1 & Hc & _ & Hp & _).
  eapply extends_trans; [by eapply clearEffect_extends|by eapply pushEffect_extends].
Qed.

Lemma step_length (st st' : SerializerState) (rule : ContentExtensionRule) :
  wfState st → step st rule = Done st' →
  length (actionLocations st') = S (length (actionLocations st)).
Proof.
  intros Hwf Hstep. destruct (step_effect _ _ _ Hwf Hstep) as (st1 & Hc & _ & Hp & _).
  rewrite (pushEffect_length _ _ _ Hp), (clearEffect_length _ _ _ Hc). done.
Qed.

Lemma run_extends (st st' : SerializerState) (rules : list ContentExtensionRule) :
  wfState st → foldlM step st rules = Done st' → extends st st'.
Proof.
  revert st. induction rules as [|rule rules IH]; intros st Hwf; simpl.
  - intros [= <-]. apply extends_refl.
  - intros (st1 & Hstep & Hrun)%bind_Done.
    eapply extends_trans; [by eapply step_extends|].
    apply IH; [by eapply step_wf|done].
Qed.

Lemma run_length (st st' : SerializerState) (rules : list ContentExtensionRule) :
  wfState st → foldlM step st rules = Done st' →
  length (actionLocations st') = (length (actionLocations st) + length rules)%nat.
Proof.
  revert st. induction rules as [|rule rules IH]; intros st Hwf; simpl.
  - intros [= <-]. lia.
  - intros (st1 & Hstep & Hrun)%bind_Done.
    rewrite (IH st1), (step_length st st1 rule) by (done || by eapply step_wf). lia.
Qed.

(** [serializeActions] is the loop from the initial state and one last
    flush, which is what an [IgnorePreviousRules] rule starts with. *)
Lemma serializeActions_inv (rules : list ContentExtensionRule) (locs acts : list Z) :
  serializeActions actionTypeByte is8Bit slotRank rules = Done (locs, acts) →
  ∃ st st', foldlM step initialState rules = Done st ∧ wfState st ∧
            clearEffect actionTypeByte is8Bit slotRank st IgnorePreviousRules st' ∧
            wfState st' ∧ actionLocations st' = locs ∧ actions st' = acts.
Proof.
  unfold serializeActions. intros (st & Hrun & Hflush)%bind_Done.
  pose proof (run_wf _ _ _ initialState_wf Hrun) as Hwf.
  rewrite resolvePending_Done in Hflush by apply Hwf.
  destruct (foldl _ _ _) as [acts' locs'] eqn:Hres. simpl in Hflush.
  injection Hflush as <- <-.
  assert (Heff : clearEffect actionTypeByte is8Bit slotRank st IgnorePreviousRules
            (mkState acts' locs' ∅ ∅ [] (ignorePreviousRuleActionsMap st) ∅)).
  { apply clear_ignore; simpl; try done. intros T'; destruct T'; done. }
  eexists st, _. split_and!; [done|done|exact Heff| |done|done].
  by eapply clearEffect_wf.
Qed.

(** The serializer returns on every list of rules it has cases for. *)
Lemma serializeActions_total (rules : list ContentExtensionRule) :
  Forall serializable rules →
  ∃ locs acts, serializeActions actionTypeByte is8Bit slotRank rules = Done (locs, acts).
Proof.
  intros Hs. unfold serializeActions.
  destruct (run_total initialState rules initialState_wf Hs) as [st Hrun].
  rewrite Hrun. simpl.
  rewrite resolvePending_Done by apply (run_wf _ _ _ initialState_wf Hrun).
  destruct (foldl _ _ _) as [acts locs]. simpl. eauto.
Qed.

Lemma serializeActions_serializable (rules : list ContentExtensionRule) (res : list Z * list Z) :
  serializeActions actionTypeByte is8Bit slotRank rules = Done res →
  Forall serializable rules.
Proof.
  unfold serializeActions. intros (st & Hrun & _)%bind_Done.
  by eapply run_serializable.
Qed.

Lemma serializeActions_length (rules : list ContentExtensionRule) (locs acts : list Z) :
  serializeActions actionTypeByte is8Bit slotRank rules = Done (locs, acts) →
  length locs = length rules.
Proof.
  intros (st & st' & Hrun & Hwf & Heff & _ & <- & _)%serializeActions_inv.
  rewrite (clearEffect_length _ _ _ Heff), (run_length _ _ _ initialState_wf Hrun). done.
Qed.

(** ** The pending groups of a run of rules between two flushes *)

Lemma extends_entryAt (st st' : SerializerState) (l : Z) (entry : list Z) :
  extends st st' → entryAt (actions st) l entry → entryAt (actions st') l entry.
Proof. intros ([ext ->] & _) H. by apply entryAt_app. Qed.

Lemma step_ignore_css (st st' : SerializerState) (rule : ContentExtensionRule) :
  wfState st → isIgnore rule → step st rule = Done st' →
  cssDisplayNoneActionsMap st' = [].
Proof.
  intros Hwf Hig Hstep. destruct (step_effect _ _ _ Hwf Hstep) as (st1 & Hc & _ & Hp & _).
  unfold isIgnore in Hig.
  assert (Hcss1 : cssDisplayNoneActionsMap st1 = []).
  { destruct Hc as [_ _ Hcss _ | Hne _ _ _ _]; [done|congruence]. }
  destruct Hp as [Hc' Hacts Hlocs Hcss Hmaps | Hc' HT Hacts Hlocs Hcss Hmaps
                 | l Hc' HT Hget Hacts Hlocs Hcss Hmaps | Hc' HT Hget Hacts Hlocs Hcss Hmaps];
    try congruence.
Qed.

Lemma step_other_css (st st1 st' : SerializerState) (rule : ContentExtensionRule) :
  ¬ isIgnore rule →
  clearEffect actionTypeByte is8Bit slotRank st (type (action rule)) st1 →
  cssDisplayNoneActionsMap st1 = cssDisplayNoneActionsMap st.
Proof. intros Hig [HT _ _ _ | _ _ _ Hcss _]; done. Qed.

Lemma groupsOf_step (st st' : SerializerState) (rule : ContentExtensionRule)
    (base : nat) (seg : list ContentExtensionRule) :
  wfState st → ¬ isIgnore rule → step st rule = Done st' →
  length (actionLocations st) = (base + length seg)%nat →
  groupsOf base seg (cssDisplayNoneActionsMap st) →
  groupsOf base (seg ++ [rule]) (cssDisplayNoneActionsMap st').
Proof.
  intros Hwf Hig Hstep Hlen Hg.
  destruct (step_effect _ _ _ Hwf Hstep) as (st1 & Hc & _ & Hp & _).
  pose proof (step_other_css _ _ st' _ Hig Hc) as Hcss1.
  pose proof (clearEffect_length _ _ _ Hc) as Hlen1.
  assert (Hkeep : cssDisplayNoneActionsMap st' = cssDisplayNoneActionsMap st →
                  (∀ t, ¬ pendingFor t rule) →
                  groupsOf base (seg ++ [rule]) (cssDisplayNoneActionsMap st')).
  { intros -> Hnp t. specialize (Hg t). unfold groupSelectors in *.
    rewrite filter_app, filter_cons_False, filter_nil, app_nil_r by apply Hnp.
    destruct (pendingGet t _) as [p|]; [|done].
    destruct Hg as [Hsel Hmem]. split; [done|].
    intros i r Hi Hpf. apply lookup_app_Some in Hi as [Hi|[_ Hi]]; [eauto|].
    apply list_lookup_singleton_Some in Hi as [_ <-]. by apply Hnp in Hpf. }
  destruct Hp as [Hc' Hacts Hlocs Hcss Hmaps | Hc' HT Hacts Hlocs Hcss Hmaps
                 | l Hc' HT Hget Hacts Hlocs Hcss Hmaps | Hc' HT Hget Hacts Hlocs Hcss Hmaps].
  - apply Hkeep; [congruence|]. intros t (Hc0 & _). done.
  - intros t. rewrite Hcss, Hcss1, pendingGet_addPending. specialize (Hg t).
    unfold groupSelectors in *. rewrite filter_app.
    destruct (decide (t = trigger rule)) as [->|Hne].
    + rewrite filter_cons_True by done. rewrite filter_nil, fmap_app. simpl.
      split.
      * destruct (pendingGet (trigger rule) _) as [p|]; simpl.
        -- destruct Hg as [-> _]. done.
        -- rewrite Hg. done.
      * intros i r Hi Hpf. apply elem_of_app.
        apply lookup_app_Some in Hi as [Hi|[Hge Hi]].
        -- left. destruct (pendingGet (trigger rule) _) as [p|]; simpl.
           ++ destruct Hg as [_ Hmem]. eauto.
           ++ apply list_elem_of_lookup_2 in Hi.
              assert (r ∈ filter (pendingFor (trigger rule)) seg) as Hin
                by (apply list_elem_of_filter; done).
              rewrite Hg in Hin. inv Hin.
        -- right. apply list_lookup_singleton_Some in Hi as [Hi _].
           apply list_elem_of_singleton. lia.
    + rewrite filter_cons_False, filter_nil, app_nil_r
        by (intros (_ & _ & Heq); congruence).
      destruct (pendingGet t _) as [p|]; [|done].
      destruct Hg as [Hsel Hmem]. split; [done|].
      intros i r Hi Hpf. apply lookup_app_Some in Hi as [Hi|[_ Hi]]; [eauto|].
      apply list_lookup_singleton_Some in Hi as [_ <-].
      destruct Hpf as (_ & _ & Heq). congruence.
  - apply Hkeep; [congruence|]. intros t (_ & HT' & _).
    rewrite HT' in HT. destruct HT as [HT|[HT|[HT|HT]]]; discriminate.
  - apply Hkeep; [congruence|]. intros t (_ & HT' & _).
    rewrite HT' in HT. destruct HT as [HT|[HT|[HT|HT]]]; discriminate.
Qed.

Lemma groupsOf_run (st st' : SerializerState) (seg : list ContentExtensionRule) :
  wfState st → cssDisplayNoneActionsMap st = [] →
  Forall (λ rule, ¬ isIgnore rule) seg →
  foldlM step st seg = Done st' →
  groupsOf (length (actionLocations st)) seg (cssDisplayNoneActionsMap st').
Proof.
  intros Hwf Hcss. revert st'. induction seg as [|rule seg IH] using rev_ind; intros st' Hseg.
  - simpl. intros [= <-]. rewrite Hcss. intros t. reflexivity.
  - apply Forall_app in Hseg as [Hseg Hrule]. rewrite Forall_singleton in Hrule.
    intros (st1 & Hrun & Hlast)%foldlM_Done_app.
    simpl in Hlast. apply bind_Done in Hlast as (st2 & Hstep & [= <-]).
    eapply groupsOf_step; [by eapply run_wf|done|done| |by apply IH].
    by eapply run_length.
Qed.

(** A flush gives every member of a group the location of the group's
    entry. *)
Lemma flush_group (st st' : SerializerState) (t : Trigger) (p : PendingDisplayNoneActions) :
  wfState st →
  clearEffect actionTypeByte is8Bit slotRank st IgnorePreviousRules st' →
  pendingGet t (cssDisplayNoneActionsMap st) = Some p →
  ∃ L, entryAt (actions st') L (entryOf (joinComma (selectors p))) ∧
       ∀ c, c ∈ clientLocations p → actionLocations st' !! c = Some L.
Proof.
  intros Hwf [_ Hres _ _ | Hne _ _ _ _] Hget; [|done].
  apply pendingGet_elem in Hget.
  destruct (resolvePure_group actionTypeByte is8Bit (actions st, actionLocations st)
              (slotOrder slotRank (cssDisplayNoneActionsMap st)) (t, p))
    as (L & HL & Hentry & Hlocs).
  - rewrite pendingIndices_slotOrder. apply Hwf.
  - rewrite pendingIndices_slotOrder. apply Hwf.
  - by rewrite slotOrder_Permutation.
  - rewrite <- Hres in Hentry, Hlocs. simpl in *. eauto.
Qed.

Lemma run_pre_css (pre : list ContentExtensionRule) (st : SerializerState) :
  from_option isIgnore True (last pre) →
  foldlM step initialState pre = Done st →
  cssDisplayNoneActionsMap st = [].
Proof.
  destruct pre as [|rk pre' _] using rev_ind.
  - intros _ [= <-]. done.
  - rewrite last_snoc. simpl. intros Hig (st1 & Hrun & Hlast)%foldlM_Done_app.
    simpl in Hlast. apply bind_Done in Hlast as (st2 & Hstep & [= <-]).
    eapply step_ignore_css; [|done|done]. by eapply run_wf, Hrun; apply initialState_wf.
Qed.

(** The flush that ends a segment, and the final state as a later state. *)
Lemma post_flush (post : list ContentExtensionRule) (s2 s3 s4 : SerializerState) :
  wfState s2 →
  from_option isIgnore True (head post) →
  foldlM step s2 post = Done s3 →
  clearEffect actionTypeByte is8Bit slotRank s3 IgnorePreviousRules s4 →
  ∃ s2a, clearEffect actionTypeByte is8Bit slotRank s2 IgnorePreviousRules s2a ∧
         wfState s2a ∧ extends s2a s4.
Proof.
  intros Hwf Hhead Hrun Hflush. destruct post as [|rk post'].
  - simpl in Hrun. injection Hrun as <-. exists s4. split_and!; [done| |apply extends_refl].
    by eapply clearEffect_wf.
  - simpl in Hhead. apply foldlM_Done_cons in Hrun as (s2' & Hstep & Hrun).
    destruct (step_effect _ _ _ Hwf Hstep) as (st1 & Hc & Hwf1 & Hp & Hwf2).
    unfold isIgnore in Hhead. rewrite Hhead in Hc.
    exists st1. split_and!; [done|done|].
    eapply extends_trans; [by eapply pushEffect_extends|].
    eapply extends_trans; [by eapply run_extends|by eapply clearEffect_extends].
Qed.

(** The selector rules of a segment that share a trigger share one entry
    of the buffer, which holds their selectors joined by commas in the
    order of the rules. *)
Lemma segment_group (pre seg post : list ContentExtensionRule) (locs acts : list Z)
    (t : Trigger) :
  segment pre seg post →
  serializeActions actionTypeByte is8Bit slotRank (pre ++ seg ++ post) = Done (locs, acts) →
  filter (pendingFor t) seg ≠ [] →
  ∃ L, entryAt acts L (entryOf (joinComma (groupSelectors t seg))) ∧
       ∀ i rule, seg !! i = Some rule → pendingFor t rule →
                 locs !! (length pre + i)%nat = Some L.
Proof.
  intros (Hpre & Hseg & Hpost) Hser Hne.
  apply serializeActions_inv in Hser as (s3 & s4 & Hrun & Hwf3 & Hflush & Hwf4 & <- & <-).
  apply foldlM_Done_app in Hrun as (s1 & Hrun1 & Hrun).
  apply foldlM_Done_app in Hrun as (s2 & Hrun2 & Hrun3).
  pose proof (run_wf _ _ _ initialState_wf Hrun1) as Hwf1.
  pose proof (run_wf _ _ _ Hwf1 Hrun2) as Hwf2.
  pose proof (run_pre_css _ _ Hpre Hrun1) as Hcss1.
  pose proof (groupsOf_run _ _ _ Hwf1 Hcss1 Hseg Hrun2 t) as Hg.
  rewrite (run_length _ _ _ initialState_wf Hrun1) in Hg. simpl in Hg.
  destruct (pendingGet t (cssDisplayNoneActionsMap s2)) as [p|] eqn:Hget; [|done].
  destruct Hg as [Hsel Hmem].
  destruct (post_flush _ _ _ _ Hwf2 Hpost Hrun3 Hflush) as (s2a & Hc & Hwf2a & Hext).
  destruct (flush_group _ _ _ _ Hwf2 Hc Hget) as (L & Hentry & Hlocs).
  exists L. split.
  - rewrite <- Hsel. by eapply extends_entryAt.
  - intros i rule Hi Hpf. specialize (Hlocs _ (Hmem i rule Hi Hpf)).
    destruct Hext as (_ & _ & Hstable).
    destruct (Hstable (length pre + i)%nat) as [-> _]; [|..|done].
    + by eapply lookup_lt_Some.
    + destruct Hc as [_ _ -> _ | Hne' _ _ _ _]; [apply not_elem_of_nil|done].
Qed.

(** ** Actions that share an entry through a map *)

Lemma pushEffect_dedup (st st' : SerializerState) (rule : ContentExtensionRule) :
  wfState st →
  pushEffect actionTypeByte is8Bit st rule st' →
  conditions (trigger rule) = [] → dedupType (type (action rule)) →
  ∃ l, dedupMap (type (action rule)) st' !! flags (trigger rule) = Some l ∧
       actionLocations st' !! length (actionLocations st) = Some l ∧
       (length (actionLocations st) ∉ pendingIndices (cssDisplayNoneActionsMap st')) ∧
       (∀ l0, dedupMap (type (action rule)) st !! flags (trigger rule) = Some l0 → l = l0).
Proof.
  intros Hwf Heff Hc HT.
  assert (Hnew : length (actionLocations st) ∉ pendingIndices (cssDisplayNoneActionsMap st)).
  { intros Hin. pose proof (wf_range st Hwf) as Hr. rewrite Forall_forall in Hr.
    apply Hr in Hin. lia. }
  destruct Heff as [Hc' Hacts Hlocs Hcss Hmaps | Hc' HT' Hacts Hlocs Hcss Hmaps
                   | l Hc' HT' Hget Hacts Hlocs Hcss Hmaps | Hc' HT' Hget Hacts Hlocs Hcss Hmaps].
  - done.
  - rewrite HT' in HT. destruct HT as [HT|[HT|[HT|HT]]]; discriminate.
  - exists l. rewrite Hmaps, Hlocs, Hcss, lookup_app_r, Nat.sub_diag by lia.
    split_and!; [done|done|done|]. intros l0 Hl0. congruence.
  - exists (Z.of_nat (length (actions st))).
    rewrite Hmaps, Hlocs, Hcss, lookup_app_r, Nat.sub_diag, decide_True by (done || lia).
    rewrite lookup_insert_eq. split_and!; [done|done|done|]. intros l0 Hl0. congruence.
Qed.

Lemma step_keeps (st st' : SerializerState) (rule : ContentExtensionRule)
    (T : ActionType) (f l : Z) :
  wfState st → step st rule = Done st' → keeps T rule →
  dedupMap T st !! f = Some l → dedupMap T st' !! f = Some l.
Proof.
  intros Hwf Hstep Hk Hget.
  destruct (step_effect _ _ _ Hwf Hstep) as (st1 & Hc & _ & Hp & _).
  assert (Hget1 : dedupMap T st1 !! f = Some l).
  { destruct Hc as [HT _ _ Hmaps | HT _ _ _ Hmaps]; rewrite Hmaps.
    - assert (T = IgnorePreviousRules) as -> by (by apply Hk).
      by rewrite decide_True.
    - rewrite decide_False; [done|]. intros HT'. apply Hk in HT'. done. }
  destruct Hp as [Hc' Hacts Hlocs Hcss Hmaps | Hc' HT' Hacts Hlocs Hcss Hmaps
                 | l' Hc' HT' Hget' Hacts Hlocs Hcss Hmaps
                 | Hc' HT' Hget' Hacts Hlocs Hcss Hmaps];
    rewrite Hmaps; try done.
  case_decide as HTeq; [|done]. subst T.
  rewrite lookup_insert_ne; [done|]. intros Heq. congruence.
Qed.

Lemma run_keeps (st st' : SerializerState) (rules : list ContentExtensionRule)
    (T : ActionType) (f l : Z) :
  wfState st → foldlM step st rules = Done st' → Forall (keeps T) rules →
  dedupMap T st !! f = Some l → dedupMap T st' !! f = Some l.
Proof.
  revert st. induction rules as [|rule rules IH]; intros st Hwf; simpl.
  - intros [= <-]. done.
  - intros (st1 & Hstep & Hrun)%bind_Done Hk Hget. inv Hk.
    eapply IH; [by eapply step_wf|done|done|]. by eapply step_keeps.
Qed.

(** What an action with no condition, of a type that has a map, leaves
    after its iteration: its location is the one its map holds for its
    flags, and it was the map's already if the map held one. *)
Lemma step_dedup (st st' : SerializerState) (rule : ContentExtensionRule) :
  wfState st → step st rule = Done st' →
  conditions (trigger rule) = [] → dedupType (type (action rule)) →
  ∃ l, dedupMap (type (action rule)) st' !! flags (trigger rule) = Some l ∧
       actionLocations st' !! length (actionLocations st) = Some l ∧
       (length (actionLocations st) ∉ pendingIndices (cssDisplayNoneActionsMap st')) ∧
       (∀ l0, dedupMap (type (action rule)) st !! flags (trigger rule) = Some l0 → l = l0).
Proof.
  intros Hwf Hstep Hc HT.
  destruct (step_effect _ _ _ Hwf Hstep) as (st1 & Hclear & Hwf1 & Hp & _).
  destruct (pushEffect_dedup _ _ _ Hwf1 Hp Hc HT) as (l & Hmap & Hloc & Hnp & Huniq).
  rewrite (clearEffect_length _ _ _ Hclear) in Hloc, Hnp.
  exists l. split_and!; try done.
  intros l0 Hl0. apply Huniq.
  destruct Hclear as [HT' _ _ Hmaps | HT' _ _ _ Hmaps]; rewrite Hmaps.
  - rewrite decide_True by done. by rewrite HT' in Hl0.
  - by rewrite decide_False.
Qed.

(** Two rules with no condition, of one type with a map and with the same
    flags, share their location when the rules between them keep the
    entries of that map. *)
Lemma dedup_shared (A B C : list ContentExtensionRule) (ri rj : ContentExtensionRule)
    (locs acts : list Z) :
  serializeActions actionTypeByte is8Bit slotRank (A ++ ri :: B ++ rj :: C)
    = Done (locs, acts) →
  conditions (trigger ri) = [] → conditions (trigger rj) = [] →
  type (action ri) = type (action rj) → dedupType (type (action ri)) →
  flags (trigger ri) = flags (trigger rj) →
  Forall (keeps (type (action ri))) B →
  ∃ l, locs !! length A = Some l ∧ locs !! (length A + S (length B))%nat = Some l.
Proof.
  intros Hser Hci Hcj HT Hd Hf HB.
  apply serializeActions_inv in Hser as (sC & s4 & Hrun & HwfC & Hflush & Hwf4 & <- & <-).
  apply foldlM_Done_app in Hrun as (sA & HrunA & Hrun).
  apply foldlM_Done_cons in Hrun as (sI & Hstepi & Hrun).
  apply foldlM_Done_app in Hrun as (sB & HrunB & Hrun).
  apply foldlM_Done_cons in Hrun as (sJ & Hstepj & HrunC).
  pose proof (run_wf _ _ _ initialState_wf HrunA) as HwfA.
  pose proof (step_wf _ _ _ HwfA Hstepi) as HwfI.
  pose proof (run_wf _ _ _ HwfI HrunB) as HwfB.
  pose proof (step_wf _ _ _ HwfB Hstepj) as HwfJ.
  destruct (step_dedup _ _ _ HwfA Hstepi Hci Hd) as (l & Hmapi & Hloci & Hnpi & _).
  pose proof (run_keeps _ _ _ _ _ _ HwfI HrunB HB Hmapi) as HmapB.
  rewrite HT in Hd.
  destruct (step_dedup _ _ _ HwfB Hstepj Hcj Hd) as (l' & _ & Hlocj & Hnpj & Huniq).
  rewrite HT, Hf in HmapB. apply Huniq in HmapB as ->.
  assert (HextJ : extends sJ s4).
  { eapply extends_trans; [by eapply run_extends|by eapply clearEffect_extends]. }
  assert (HextI : extends sI s4).
  { eapply extends_trans; [by eapply run_extends|].
    eapply extends_trans; [by eapply step_extends|done]. }
  pose proof (run_length _ _ _ initialState_wf HrunA) as HlenA. simpl in HlenA.
  pose proof (step_length _ _ _ HwfA Hstepi) as HlenI.
  pose proof (run_length _ _ _ HwfI HrunB) as HlenB.
  rewrite HlenA in Hloci, Hnpi. rewrite HlenB, HlenI, HlenA in Hlocj, Hnpj.
  replace (S (length A) + length B)%nat with (length A + S (length B))%nat in Hlocj, Hnpj by lia.
  exists l. split.
  - destruct HextI as (_ & _ & Hst). destruct (Hst (length A)) as [-> _]; try done.
    by eapply lookup_lt_Some.
  - destruct HextJ as (_ & _ & Hst).
    destruct (Hst (length A + S (length B))%nat) as [-> _]; try done.
    by eapply lookup_lt_Some.
Qed.

(** ** Locations that later rules cannot take *)

Lemma flush_member (st st' : SerializerState) (i : nat) :
  wfState st →
  clearEffect actionTypeByte is8Bit slotRank st IgnorePreviousRules st' →
  i ∈ pendingIndices (cssDisplayNoneActionsMap st) →
  ∃ L, Z.of_nat (length (actions st)) ≤ L ∧ actionLocations st' !! i = Some L.
Proof.
  intros Hwf [_ Hres _ _ | Hne _ _ _ _] Hin; [|done].
  apply list_elem_of_bind in Hin as (slot & Hi & Hslot).
  destruct (resolvePure_group actionTypeByte is8Bit (actions st, actionLocations st)
              (slotOrder slotRank (cssDisplayNoneActionsMap st)) slot)
    as (L & HL & _ & Hlocs).
  - rewrite pendingIndices_slotOrder. apply Hwf.
  - rewrite pendingIndices_slotOrder. apply Hwf.
  - by rewrite slotOrder_Permutation.
  - rewrite <- Hres in Hlocs. simpl in *. eauto.
Qed.

Section Tracking.

Variable φ : Z → Prop.
Variable K : ActionType → Prop.

Lemma tracks_clear (st st' : SerializerState) (T : ActionType) :
  tracks φ K st → clearEffect actionTypeByte is8Bit slotRank st T st' → tracks φ K st'.
Proof.
  intros [Hfresh Hmap] Heff.
  destruct (clearEffect_extends _ _ _ Heff) as ([ext Hext] & _). split.
  - intros v Hv. apply Hfresh. rewrite Hext, length_app in Hv. lia.
  - intros T' f v HK.
    destruct Heff as [_ _ _ Hmaps | _ _ _ _ Hmaps]; rewrite Hmaps; case_decide; subst;
      try done.
    + by apply (Hmap IgnorePreviousRules).
    + by apply Hmap.
Qed.

Lemma tracks_push (st st' : SerializerState) (rule : ContentExtensionRule) :
  tracks φ K st → pushEffect actionTypeByte is8Bit st rule st' → tracks φ K st'.
Proof.
  intros [Hfresh Hmap] Heff.
  destruct (pushEffect_extends _ _ _ Heff) as ([ext Hext] & _). split.
  - intros v Hv. apply Hfresh. rewrite Hext, length_app in Hv. lia.
  - intros T' f v HK.
    destruct Heff as [Hc Hacts Hlocs Hcss Hmaps | Hc HT Hacts Hlocs Hcss Hmaps
                     | l Hc HT Hget Hacts Hlocs Hcss Hmaps | Hc HT Hget Hacts Hlocs Hcss Hmaps];
      rewrite Hmaps; try by apply Hmap.
    case_decide; [|by apply Hmap].
    intros [[_ <-]|[_ Hl]]%lookup_insert_Some; [apply Hfresh; lia|by eapply Hmap].
Qed.

Lemma settled_clear (st st' : SerializerState) (T : ActionType) (i : nat) :
  wfState st → tracks φ K st →
  clearEffect actionTypeByte is8Bit slotRank st T st' →
  (i < length (actionLocations st))%nat → settled φ st i → settled φ st' i.
Proof.
  intros Hwf [Hfresh _] Heff Hi Hs.
  destruct (decide (i ∈ pendingIndices (cssDisplayNoneActionsMap st))) as [Hin|Hnin].
  - destruct Heff as [-> Hres Hcss Hmaps | Hne Hacts Hlocs Hcss Hmaps].
    + destruct (flush_member st st' i Hwf) as (L & HL & Hloc); [|done|].
      { by apply clear_ignore. }
      right. exists L. split; [done|]. by apply Hfresh.
    + left. by rewrite Hcss.
  - destruct Hs as [Hin|(v & Hv & Hφ)]; [done|].
    destruct (clearEffect_extends _ _ _ Heff) as (_ & _ & Hst).
    destruct (Hst i Hi Hnin) as [Heq _]. right. exists v. by rewrite Heq.
Qed.

Lemma settled_push (st st' : SerializerState) (rule : ContentExtensionRule) (i : nat) :
  pushEffect actionTypeByte is8Bit st rule st' →
  (i < length (actionLocations st))%nat → settled φ st i → settled φ st' i.
Proof.
  intros Heff Hi [Hin|(v & Hv & Hφ)].
  - left.
    destruct Heff as [Hc Hacts Hlocs Hcss Hmaps | Hc HT Hacts Hlocs Hcss Hmaps
                     | l Hc HT Hget Hacts Hlocs Hcss Hmaps | Hc HT Hget Hacts Hlocs Hcss Hmaps];
      rewrite Hcss; try done.
    rewrite pendingIndices_addPending. apply elem_of_app. by left.
  - right. exists v. split; [|done].
    destruct Heff as [Hc Hacts Hlocs Hcss Hmaps | Hc HT Hacts Hlocs Hcss Hmaps
                     | l Hc HT Hget Hacts Hlocs Hcss Hmaps | Hc HT Hget Hacts Hlocs Hcss Hmaps];
      rewrite Hlocs, lookup_app_l by done; done.
Qed.

Lemma settled_new (st st' : SerializerState) (rule : ContentExtensionRule) :
  tracks φ K st → pushEffect actionTypeByte is8Bit st rule st' →
  conditions (trigger rule) ≠ [] ∨ K (type (action rule)) →
  settled φ st' (length (actionLocations st)).
Proof.
  intros [Hfresh Hmap] Heff Hcase.
  destruct Heff as [Hc Hacts Hlocs Hcss Hmaps | Hc HT Hacts Hlocs Hcss Hmaps
                   | l Hc HT Hget Hacts Hlocs Hcss Hmaps | Hc HT Hget Hacts Hlocs Hcss Hmaps].
  - right. eexists. rewrite Hlocs, lookup_app_r, Nat.sub_diag by lia.
    split; [done|]. apply Hfresh. lia.
  - left. rewrite Hcss, pendingIndices_addPending. apply elem_of_app. right.
    by apply list_elem_of_singleton.
  - right. exists l. rewrite Hlocs, lookup_app_r, Nat.sub_diag by lia.
    split; [done|]. destruct Hcase as [Hcase|Hcase]; [done|]. by eapply Hmap.
  - right. eexists. rewrite Hlocs, lookup_app_r, Nat.sub_diag by lia.
    split; [done|]. apply Hfresh. lia.
Qed.

Lemma tracks_step (st st' : SerializerState) (rule : ContentExtensionRule) :
  wfState st → tracks φ K st → step st rule = Done st' → tracks φ K st'.
Proof.
  intros Hwf Ht Hstep. destruct (step_effect _ _ _ Hwf Hstep) as (st1 & Hc & _ & Hp & _).
  eapply tracks_push; [|done]. by eapply tracks_clear.
Qed.

Lemma settled_step (st st' : SerializerState) (rule : ContentExtensionRule) (i : nat) :
  wfState st → tracks φ K st → step st rule = Done st' →
  (i < length (actionLocations st))%nat → settled φ st i → settled φ st' i.
Proof.
  intros Hwf Ht Hstep Hi Hs.
  destruct (step_effect _ _ _ Hwf Hstep) as (st1 & Hc & _ & Hp & _).
  eapply settled_push; [done| |by eapply settled_clear].
  by rewrite (clearEffect_length _ _ _ Hc).
Qed.

Lemma settled_step_new (st st' : SerializerState) (rule : ContentExtensionRule) :
  wfState st → tracks φ K st → step st rule = Done st' →
  conditions (trigger rule) ≠ [] ∨ K (type (action rule)) →
  settled φ st' (length (actionLocations st)).
Proof.
  intros Hwf Ht Hstep Hcase.
  destruct (step_effect _ _ _ Hwf Hstep) as (st1 & Hc & _ & Hp & _).
  rewrite <- (clearEffect_length _ _ _ Hc).
  eapply settled_new; [|done|done]. by eapply tracks_clear.
Qed.

Lemma settled_run (st st' : SerializerState) (rules : list ContentExtensionRule) (i : nat) :
  wfState st → tracks φ K st → foldlM step st rules = Done st' →
  (i < length (actionLocations st))%nat → settled φ st i →
  tracks φ K st' ∧ settled φ st' i.
Proof.
  revert st. induction rules as [|rule rules IH]; intros st Hwf Ht; simpl.
  - intros [= <-]. done.
  - intros (st1 & Hstep & Hrun)%bind_Done Hi Hs.
    eapply IH; [by eapply step_wf|by eapply tracks_step|done| |by eapply settled_step].
    rewrite (step_length _ _ _ Hwf Hstep). lia.
Qed.

(** After the last flush a settled position holds a location with [φ]. *)
Lemma settled_final (st st' : SerializerState) (i : nat) :
  wfState st → tracks φ K st →
  clearEffect actionTypeByte is8Bit slotRank st IgnorePreviousRules st' →
  (i < length (actionLocations st))%nat → settled φ st i →
  ∃ v, actionLocations st' !! i = Some v ∧ φ v.
Proof.
  intros Hwf Ht Heff Hi Hs.
  destruct (settled_clear _ _ _ _ Hwf Ht Heff Hi Hs) as [Hin|Hv]; [|done].
  destruct Heff as [_ _ Hcss _ | Hne _ _ _ _]; [|done].
  rewrite Hcss in Hin. inv Hin.
Qed.

Lemma tracks_run (st st' : SerializerState) (rules : list ContentExtensionRule) :
  wfState st → tracks φ K st → foldlM step st rules = Done st' → tracks φ K st'.
Proof.
  revert st. induction rules as [|rule rules IH]; intros st Hwf Ht; simpl.
  - intros [= <-]. done.
  - intros (st1 & Hstep & Hrun)%bind_Done.
    eapply IH; [by eapply step_wf|by eapply tracks_step|done].
Qed.

(** The rule at position [j] of [B], run from a state that tracks [φ]:
    its final location has [φ] when it has conditions or a type in [K]. *)
Lemma tracked_location (st sE s4 : SerializerState) (B : list ContentExtensionRule)
    (j : nat) (rj : ContentExtensionRule) :
  wfState st → tracks φ K st →
  foldlM step st B = Done sE →
  clearEffect actionTypeByte is8Bit slotRank sE IgnorePreviousRules s4 →
  B !! j = Some rj →
  conditions (trigger rj) ≠ [] ∨ K (type (action rj)) →
  ∃ v, actionLocations s4 !! (length (actionLocations st) + j)%nat = Some v ∧ φ v.
Proof.
  intros Hwf Ht Hrun Hflush Hj Hcase.
  apply list_elem_of_split_length in Hj as (B1 & B2 & -> & ->).
  apply foldlM_Done_app in Hrun as (sB & HrunB & Hrun).
  apply foldlM_Done_cons in Hrun as (sJ & Hstep & Hrun).
  pose proof (run_wf _ _ _ Hwf HrunB) as HwfB.
  pose proof (step_wf _ _ _ HwfB Hstep) as HwfJ.
  pose proof (tracks_run _ _ _ Hwf Ht HrunB) as HtB.
  pose proof (settled_step_new _ _ _ HwfB HtB Hstep Hcase) as Hs.
  rewrite (run_length _ _ _ Hwf HrunB) in Hs.
  assert (Hlt : (length (actionLocations st) + length B1 < length (actionLocations sJ))%nat).
  { rewrite (step_length _ _ _ HwfB Hstep), (run_length _ _ _ Hwf HrunB). lia. }
  destruct (settled_run _ _ _ _ HwfJ (tracks_step _ _ _ HwfB HtB Hstep) Hrun Hlt Hs)
    as [HtE HsE].
  eapply settled_final; [by eapply run_wf|done|done| |done].
  destruct (run_extends _ _ _ HwfJ Hrun) as (_ & Hle & _). lia.
Qed.

End Tracking.

Lemma step_ignore_maps (st st' : SerializerState) (rule : ContentExtensionRule)
    (T : ActionType) :
  wfState st → isIgnore rule → step st rule = Done st' →
  T ≠ IgnorePreviousRules → dedupMap T st' = ∅.
Proof.
  intros Hwf Hig Hstep HT. unfold isIgnore in Hig.
  destruct (step_effect _ _ _ Hwf Hstep) as (st1 & Hc & _ & Hp & _).
  assert (H1 : dedupMap T st1 = ∅).
  { destruct Hc as [_ _ _ Hmaps | Hne _ _ _ _]; [|done].
    rewrite Hmaps. by rewrite decide_False. }
  destruct Hp as [Hc' Hacts Hlocs Hcss Hmaps | Hc' HT' Hacts Hlocs Hcss Hmaps
                 | l Hc' HT' Hget Hacts Hlocs Hcss Hmaps | Hc' HT' Hget Hacts Hlocs Hcss Hmaps];
    rewrite Hmaps; try done.
  rewrite decide_False by congruence. done.
Qed.

(** A rule behind an [IgnorePreviousRules] rule, if it is not one itself,
    has a location behind every location of the rules before that rule. *)
Lemma ignore_separates (A B : list ContentExtensionRule) (rk rj : ContentExtensionRule)
    (locs acts : list Z) (i j : nat) :
  serializeActions actionTypeByte is8Bit slotRank (A ++ rk :: B) = Done (locs, acts) →
  isIgnore rk → (i < length A)%nat → B !! j = Some rj → ¬ isIgnore rj →
  ∃ li lj, locs !! i = Some li ∧ locs !! (length A + S j)%nat = Some lj ∧ li < lj.
Proof.
  intros Hser Hig Hi Hj Hnj.
  apply serializeActions_inv in Hser as (sE & s4 & Hrun & HwfE & Hflush & Hwf4 & <- & <-).
  apply foldlM_Done_app in Hrun as (sA & HrunA & Hrun).
  apply foldlM_Done_cons in Hrun as (sK & Hstepk & HrunB).
  pose proof (run_wf _ _ _ initialState_wf HrunA) as HwfA.
  pose proof (step_wf _ _ _ HwfA Hstepk) as HwfK.
  pose proof (run_length _ _ _ initialState_wf HrunA) as HlenA. simpl in HlenA.
  pose proof (step_length _ _ _ HwfA Hstepk) as HlenK.
  pose proof (step_ignore_css _ _ _ HwfA Hig Hstepk) as HcssK.
  assert (HiK : (i < length (actionLocations sK))%nat) by lia.
  assert (HnpK : i ∉ pendingIndices (cssDisplayNoneActionsMap sK)).
  { rewrite HcssK. apply not_elem_of_nil. }
  destruct (wf_resolved sK HwfK i HiK HnpK) as (li & Hli & Hbi).
  assert (Hext : extends sK s4).
  { eapply extends_trans; [by eapply run_extends|by eapply clearEffect_extends]. }
  destruct Hext as (_ & _ & Hst). destruct (Hst i HiK HnpK) as [Heq _].
  destruct (tracked_location (λ v, Z.of_nat (length (actions sK)) ≤ v)
              (λ T, T ≠ IgnorePreviousRules) sK sE s4 B j rj) as (lj & Hlj & Hbj);
    try done.
  - split; [done|]. intros T f v HT.
    rewrite (step_ignore_maps _ _ _ T HwfA Hig Hstepk HT), lookup_empty. done.
  - by right.
  - exists li, lj. rewrite Heq. split; [done|]. split; [|lia].
    rewrite <- Hlj. f_equal. lia.
Qed.

(** The action of a rule with conditions has an entry of its own, at a
    location no other rule is given. *)
Lemma conditioned_alone (A B : list ContentExtensionRule) (r : ContentExtensionRule)
    (locs acts : list Z) :
  serializeActions actionTypeByte is8Bit slotRank (A ++ r :: B) = Done (locs, acts) →
  conditions (trigger r) ≠ [] →
  ∃ l, locs !! length A = Some l ∧
       entryAt acts l (ownEntry actionTypeByte is8Bit r) ∧
       ∀ j, j ≠ length A → locs !! j ≠ Some l.
Proof.
  intros Hser Hc.
  apply serializeActions_inv in Hser as (sE & s4 & Hrun & HwfE & Hflush & Hwf4 & <- & <-).
  apply foldlM_Done_app in Hrun as (sA & HrunA & Hrun).
  apply foldlM_Done_cons in Hrun as (sI & Hstep & HrunB).
  pose proof (run_wf _ _ _ initialState_wf HrunA) as HwfA.
  pose proof (step_wf _ _ _ HwfA Hstep) as HwfI.
  pose proof (run_length _ _ _ initialState_wf HrunA) as HlenA. simpl in HlenA.
  pose proof (step_length _ _ _ HwfA Hstep) as HlenI.
  destruct (step_effect _ _ _ HwfA Hstep) as (st1 & Hclear & Hwf1 & Hp & _).
  pose proof (clearEffect_length _ _ _ Hclear) as Hlen1.
  destruct Hp as [_ Hacts Hlocs Hcss Hmaps | Hc' | l' Hc' | Hc']; try done.
  set (l := Z.of_nat (length (actions st1))) in *.
  assert (Hown : (1 ≤ length (ownEntry actionTypeByte is8Bit r))%nat).
  { unfold ownEntry. case_decide; [|simpl; lia].
    pose proof (selectorEntry_length actionTypeByte is8Bit (stringArgument (action r))).
    lia. }
  assert (Hext : extends sI s4).
  { eapply extends_trans; [by eapply run_extends|by eapply clearEffect_extends]. }
  assert (Hnp : length A ∉ pendingIndices (cssDisplayNoneActionsMap sI)).
  { rewrite Hcss. intros Hin. pose proof (wf_range st1 Hwf1) as Hr.
    rewrite Forall_forall in Hr. apply Hr in Hin. lia. }
  assert (Htr : tracks (λ v, v ≠ l) (λ _, True) sI).
  { split.
    - intros v. rewrite Hacts, length_app. unfold l. lia.
    - intros T f v _. rewrite Hmaps. intros Hv.
      apply (wf_maps st1 Hwf1) in Hv. unfold l. lia. }
  exists l. split_and!.
  - destruct Hext as (_ & _ & Hst). destruct (Hst (length A)) as [-> _]; [lia|done|].
    rewrite Hlocs, lookup_app_r by lia. replace (length A - _)%nat with 0%nat by lia. done.
  - eapply extends_entryAt; [done|]. rewrite Hacts. apply entryAt_here.
  - intros j Hj Hlj.
    destruct (decide (j < length A)%nat) as [Hlt|Hge].
    + assert (Hs : settled (λ v, v ≠ l) sI j).
      { destruct (decide (j ∈ pendingIndices (cssDisplayNoneActionsMap st1))) as [Hin|Hnin].
        - left. by rewrite Hcss.
        - destruct (wf_resolved st1 Hwf1 j ltac:(lia) Hnin) as (v & Hv & Hb).
          right. exists v. rewrite Hlocs, lookup_app_l by lia. split; [done|].
          unfold l. lia. }
      destruct (settled_run _ _ sI sE B j HwfI Htr HrunB ltac:(lia) Hs) as [HtE HsE].
      destruct (settled_final _ _ sE _ j HwfE HtE Hflush) as (v & Hv & Hne); [|done|].
      * destruct (run_extends _ _ _ HwfI HrunB) as (_ & Hle & _). lia.
      * congruence.
    + assert (is_Some (B !! (j - S (length A))%nat)) as [rj Hrj].
      { apply lookup_lt_is_Some. apply lookup_lt_Some in Hlj.
        rewrite (clearEffect_length _ _ _ Hflush), (run_length _ _ _ HwfI HrunB) in Hlj.
        lia. }
      destruct (tracked_location (λ v, v ≠ l) (λ _, True) sI sE _ B _ rj HwfI Htr HrunB Hflush Hrj)
        as (v & Hv & Hne); [by right|].
      replace (length (actionLocations sI) + (j - S (length A)))%nat with j in Hv by lia.
      congruence.
Qed.

End SerializerSteps.

(** ** Every rule that is not an [IgnorePreviousRules] rule lies in a segment *)

Lemma split_after_last_ignore (l : list ContentExtensionRule) :
  ∃ pre s, l = pre ++ s ∧ from_option isIgnore True (last pre) ∧
           Forall (λ rule, ¬ isIgnore rule) s.
Proof.
  induction l as [|x l IH] using rev_ind.
  - exists [], []. done.
  - destruct (decide (isIgnore x)) as [Hx|Hx].
    + exists (l ++ [x]), []. rewrite app_nil_r, last_snoc. done.
    + destruct IH as (pre & s & -> & Hpre & Hs). exists pre, (s ++ [x]).
      rewrite app_assoc. split_and!; [done|done|].
      apply Forall_app. split; [done|]. by apply Forall_singleton.
Qed.

Lemma split_before_first_ignore (l : list ContentExtensionRule) :
  ∃ s post, l = s ++ post ∧ Forall (λ rule, ¬ isIgnore rule) s ∧
            from_option isIgnore True (head post).
Proof.
  induction l as [|x l IH].
  - exists [], []. done.
  - destruct (decide (isIgnore x)) as [Hx|Hx].
    + exists [], (x :: l). done.
    + destruct IH as (s & post & -> & Hs & Hpost). exists (x :: s), post.
      split_and!; [done| |done]. by constructor.
Qed.

Lemma segment_around (rules : list ContentExtensionRule) (i : nat)
    (rule : ContentExtensionRule) :
  rules !! i = Some rule → ¬ isIgnore rule →
  ∃ pre seg post k, rules = pre ++ seg ++ post ∧ segment pre seg post ∧
                    i = (length pre + k)%nat ∧ seg !! k = Some rule.
Proof.
  intros (l1 & l2 & -> & ->)%list_elem_of_split_length Hni.
  destruct (split_after_last_ignore l1) as (pre & s1 & -> & Hpre & Hs1).
  destruct (split_before_first_ignore l2) as (s2 & post & -> & Hs2 & Hpost).
  exists pre, (s1 ++ rule :: s2), post, (length s1).
  split_and!.
  - rewrite <- !app_assoc. simpl. done.
  - split_and!; [done| |done]. apply Forall_app. split; [done|]. by constructor.
  - rewrite length_app. done.
  - rewrite lookup_app_r by lia. by rewrite Nat.sub_diag.
Qed.

Lemma mapped_types (T : ActionType) :
  T ∈ [BlockLoad; BlockCookies; MakeHTTPS] → dedupType T ∧ T ≠ IgnorePreviousRules.
Proof.
  intros H. unfold dedupType.
  repeat (apply elem_of_cons in H as [->|H]); [split; [auto|discriminate]..|inv H].
Qed.

(** ** The serializer: statements *)

Section SerializerClaims.

Variable actionTypeByte : ActionType → Z.
Variable is8Bit : String → bool.
Variable slotRank : list Trigger → Trigger → nat.

Local Abbreviation entryOf := (selectorEntry actionTypeByte is8Bit).
Local Abbreviation step := (serializeRule actionTypeByte is8Bit slotRank).
Local Abbreviation serialize := (serializeActions actionTypeByte is8Bit slotRank).

(** C1, as amended.  In the result of [serializeActions]: two rules with no
    conditions, the same action type and the same resource flags have the
    same action location, hence the same action-location-and-flags word,
    when the type is [BlockLoad], [BlockCookies] or [MakeHTTPS] and no
    [IgnorePreviousRules] rule stands between them, or when the type is
    [IgnorePreviousRules] and every rule between them is of that type; and
    in a run of rules between two flushes, the selector rules with no
    conditions that share a trigger all have the location of one selector
    entry, which holds their selectors joined by [','] in the order of the
    rules. *)
Theorem same_actions_share_location (rules : list ContentExtensionRule) (locs acts : list Z) :
  serialize rules = Done (locs, acts) →
  (∀ A ri B rj C,
     rules = A ++ ri :: B ++ rj :: C →
     conditions (trigger ri) = [] → conditions (trigger rj) = [] →
     type (action ri) = type (action rj) →
     flags (trigger ri) = flags (trigger rj) →
     (type (action ri) ∈ [BlockLoad; BlockCookies; MakeHTTPS] ∧
      Forall (λ rule, ¬ isIgnore rule) B) ∨
     (type (action ri) = IgnorePreviousRules ∧ Forall isIgnore B) →
     ∃ l, locs !! length A = Some l ∧
          locs !! (length A + S (length B))%nat = Some l ∧
          actionLocationAndFlagsOf (flags (trigger ri)) l
          = actionLocationAndFlagsOf (flags (trigger rj)) l) ∧
  (∀ pre seg post t,
     rules = pre ++ seg ++ post → segment pre seg post →
     filter (pendingFor t) seg ≠ [] →
     ∃ L, entryAt acts L (entryOf (joinComma (groupSelectors t seg))) ∧
          ∀ i rule, seg !! i = Some rule → pendingFor t rule →
                    locs !! (length pre + i)%nat = Some L).
Proof.
  intros Hser. split.
  - intros A ri B rj C -> Hci Hcj HT Hf Hcase.
    destruct (dedup_shared actionTypeByte is8Bit slotRank A B C ri rj locs acts)
      as (l & Hi & Hj); try done.
    + destruct Hcase as [[Hin _]|[-> _]]; [|unfold dedupType; auto].
      by apply mapped_types.
    + destruct Hcase as [[Hin HB]|[HTi HB]].
      * eapply Forall_impl; [exact HB|]. intros r Hr. unfold keeps. split; [|done].
        intros HTi. by apply mapped_types in Hin as [_ Hin].
      * eapply Forall_impl; [exact HB|]. intros r Hr. unfold keeps. done.
    + exists l. by rewrite Hf.
  - intros pre seg post t -> Hseg Hne.
    by eapply segment_group.
Qed.

(** C2, as amended.  An [IgnorePreviousRules] rule starts with a flush: each
    pending group is serialized into one entry and its members are given
    that entry's location, for good, and no group is left; then the maps
    of [BlockLoad], [BlockCookies] and [MakeHTTPS] are empty.  A later rule
    that is not an [IgnorePreviousRules] rule itself has a location behind
    every location of the rules before it, so it shares no entry with
    them. *)
Theorem ignorePreviousRules_starts_afresh (A B : list ContentExtensionRule)
    (rk : ContentExtensionRule) (locs acts : list Z) :
  isIgnore rk →
  serialize (A ++ rk :: B) = Done (locs, acts) →
  ∃ st st1,
    foldlM step initialState A = Done st ∧
    clearMaps actionTypeByte is8Bit slotRank st (type (action rk)) = Done st1 ∧
    (∀ t p, pendingGet t (cssDisplayNoneActionsMap st) = Some p →
       ∃ L, entryAt (actions st1) L (entryOf (joinComma (selectors p))) ∧
            entryAt acts L (entryOf (joinComma (selectors p))) ∧
            ∀ c, c ∈ clientLocations p →
                 actionLocations st1 !! c = Some L ∧ locs !! c = Some L) ∧
    cssDisplayNoneActionsMap st1 = [] ∧
    blockLoadActionsMap st1 = ∅ ∧
    blockCookiesActionsMap st1 = ∅ ∧
    makeHTTPSActionsMap st1 = ∅ ∧
    (∀ i j rj, (i < length A)%nat → B !! j = Some rj → ¬ isIgnore rj →
       ∃ li lj, locs !! i = Some li ∧ locs !! (length A + S j)%nat = Some lj ∧ li < lj).
Proof.
  intros Hig Hser.
  pose proof Hser as Hser'.
  apply serializeActions_inv in Hser' as (sE & s4 & Hrun & HwfE & Hflush & Hwf4 & <- & <-).
  apply foldlM_Done_app in Hrun as (sA & HrunA & Hrun).
  apply foldlM_Done_cons in Hrun as (sK & Hstepk & HrunB).
  pose proof (run_wf _ _ _ _ _ _ initialState_wf HrunA) as HwfA.
  pose proof Hstepk as Hstepk'.
  apply bind_Done in Hstepk' as (st1 & Hclear & Hpush).
  pose proof (clearMaps_effect _ _ _ _ _ _ (wf_range _ HwfA) Hclear) as Hceff.
  pose proof (clearEffect_wf _ _ _ _ _ _ HwfA Hceff) as Hwf1.
  pose proof (pushAction_effect _ _ _ _ _ Hpush) as Hpeff.
  unfold isIgnore in Hig. rewrite Hig in Hceff.
  assert (Hcss1 : cssDisplayNoneActionsMap st1 = []).
  { destruct Hceff as [_ _ Hcss _ | Hne _ _ _ _]; done. }
  assert (Hext : extends st1 s4).
  { eapply extends_trans; [by eapply pushEffect_extends|].
    eapply extends_trans; [eapply run_extends; [|exact HrunB]|by eapply clearEffect_extends].
    exact (step_wf _ _ _ _ _ _ HwfA Hstepk). }
  exists sA, st1. split_and!; try done.
  - intros t p Hget.
    destruct (flush_group _ _ _ _ _ _ _ HwfA Hceff Hget) as (L & Hentry & Hlocs).
    exists L. split_and!; [done|by eapply extends_entryAt|].
    intros c Hc. specialize (Hlocs c Hc). split; [done|].
    destruct Hext as (_ & _ & Hst). destruct (Hst c) as [-> _]; [|..|done].
    + by eapply lookup_lt_Some.
    + rewrite Hcss1. apply not_elem_of_nil.
  - destruct Hceff as [_ _ _ Hmaps | Hne _ _ _ _]; [|done]. apply (Hmaps BlockLoad).
  - destruct Hceff as [_ _ _ Hmaps | Hne _ _ _ _]; [|done]. apply (Hmaps BlockCookies).
  - destruct Hceff as [_ _ _ Hmaps | Hne _ _ _ _]; [|done]. apply (Hmaps MakeHTTPS).
  - intros i j rj Hi Hj Hnj. by eapply ignore_separates.
Qed.

(** C4, as amended.  A rule with conditions goes by every map and every
    pending group: its action is serialized at the end of the buffer, in an
    entry of its own, and no other rule is given the location of that
    entry.  A selector rule with conditions is no exception: its selector
    is serialized alone. *)
Theorem conditioned_rules_serialized_alone (A B : list ContentExtensionRule)
    (r : ContentExtensionRule) (locs acts : list Z) :
  conditions (trigger r) ≠ [] →
  serialize (A ++ r :: B) = Done (locs, acts) →
  (∀ st, pushAction actionTypeByte is8Bit st r
         = Done (mkState (actions st ++ ownEntry actionTypeByte is8Bit r)
                   (actionLocations st ++ [Z.of_nat (length (actions st))])
                   (blockLoadActionsMap st) (blockCookiesActionsMap st)
                   (cssDisplayNoneActionsMap st) (ignorePreviousRuleActionsMap st)
                   (makeHTTPSActionsMap st))) ∧
  ∃ l, locs !! length A = Some l ∧
       entryAt acts l (ownEntry actionTypeByte is8Bit r) ∧
       ∀ j, j ≠ length A → locs !! j ≠ Some l.
Proof.
  intros Hc Hser. split.
  - intros st. unfold pushAction. rewrite decide_True by done. simpl.
    unfold ownEntry. case_decide; [|done]. by rewrite serializeSelector_app.
  - by eapply conditioned_alone.
Qed.

(** C10.  On a list of rules whose action types it has a case for,
    [serializeActions] returns a location for each rule, every one of them
    an offset into the action buffer, so that none is still the sentinel
    [UINT_MAX] as long as the buffer respects the bound of a [Vector]; and
    the location of a selector rule with no conditions is the offset of the
    entry that holds the joined selectors of its trigger's group, the group
    being taken in the rule's segment, which ends at an
    [IgnorePreviousRules] rule or at the end of the list.  A rule with
    conditions, a selector rule among them, never waits for a flush: its
    location is the offset of the entry of its own action. *)
Theorem serializeActions_backfills (rules : list ContentExtensionRule) :
  Forall serializable rules →
  ∃ locs acts,
    serialize rules = Done (locs, acts) ∧
    length locs = length rules ∧
    (∀ i, (i < length rules)%nat →
       ∃ l, locs !! i = Some l ∧ 0 ≤ l < Z.of_nat (length acts)) ∧
    (Z.of_nat (length acts) ≤ UINT_MAX → UINT_MAX ∉ locs) ∧
    (∀ i rule, rules !! i = Some rule → pendingFor (trigger rule) rule →
       ∃ pre seg post k L,
         rules = pre ++ seg ++ post ∧ segment pre seg post ∧
         i = (length pre + k)%nat ∧ seg !! k = Some rule ∧
         locs !! i = Some L ∧
         entryAt acts L (entryOf (joinComma (groupSelectors (trigger rule) seg)))) ∧
    (∀ i rule, rules !! i = Some rule → conditions (trigger rule) ≠ [] →
       ∃ L, locs !! i = Some L ∧ entryAt acts L (ownEntry actionTypeByte is8Bit rule)).
Proof.
  intros Hs.
  destruct (serializeActions_total actionTypeByte is8Bit slotRank rules Hs)
    as (locs & acts & Hser).
  assert (Hcond : ∀ i rule, rules !! i = Some rule → conditions (trigger rule) ≠ [] →
            ∃ L, locs !! i = Some L ∧ entryAt acts L (ownEntry actionTypeByte is8Bit rule)).
  { intros i rule Hi Hc.
    apply list_elem_of_split_length in Hi as (A & B & HAB & ->). rewrite HAB in Hser.
    destruct (conditioned_alone _ _ _ A B rule locs acts Hser Hc) as (L & HL & Hentry & _).
    by exists L. }
  exists locs, acts. split; [done|].
  pose proof (serializeActions_length _ _ _ _ _ _ Hser) as Hlen.
  pose proof Hser as Hser'.
  apply serializeActions_inv in Hser' as (sE & s4 & Hrun & HwfE & Hflush & Hwf4 & <- & <-).
  assert (Hres : ∀ i, (i < length rules)%nat →
            ∃ l, actionLocations s4 !! i = Some l ∧ 0 ≤ l < Z.of_nat (length (actions s4))).
  { intros i Hi. apply (wf_resolved s4 Hwf4); [lia|].
    destruct Hflush as [_ _ -> _ | Hne _ _ _ _]; [apply not_elem_of_nil|done]. }
  split_and!; [done|done| | |done].
  - intros Hbound Hin. apply list_elem_of_lookup in Hin as [i Hi].
    destruct (Hres i) as (l & Hl & Hb).
    + apply lookup_lt_Some in Hi. lia.
    + rewrite Hi in Hl. injection Hl as <-. unfold UINT_MAX in *. lia.
  - intros i rule Hi Hpf.
    destruct (segment_around rules i rule Hi) as (pre & seg & post & k & -> & Hseg & -> & Hk).
    { destruct Hpf as (_ & HT & _). unfold isIgnore. rewrite HT. done. }
    destruct (segment_group actionTypeByte is8Bit slotRank pre seg post
                (actionLocations s4) (actions s4) (trigger rule) Hseg Hser)
      as (L & Hentry & Hlocs).
    { intros Hnil. apply list_elem_of_lookup_2 in Hk.
      assert (rule ∈ filter (pendingFor (trigger rule)) seg) as Hin
        by (apply list_elem_of_filter; done).
      rewrite Hnil in Hin. inv Hin. }
    exists pre, seg, post, k, L. split_and!; try done. by eapply Hlocs.
Qed.

End SerializerClaims.

(** ** The serializer on the examples *)

Lemma same_actions_share_location_witness :
  serializeActionsEx exShared
    = Done ([0; 1; 0; 1], [0; 2; 5; 0; 0; 0; 0; 46; 97; 44; 46; 98]) ∧
  (∃ l, [0; 1; 0; 1] !! 0%nat = Some l ∧ [0; 1; 0; 1] !! 2%nat = Some l) ∧
  (∃ L, entryAt [0; 2; 5; 0; 0; 0; 0; 46; 97; 44; 46; 98] L
          (selectorEntry enumActionTypeByte latin1 (joinComma [[46; 97]; [46; 98]])) ∧
        [0; 1; 0; 1] !! 1%nat = Some L ∧ [0; 1; 0; 1] !! 3%nat = Some L).
Proof.
  assert (H : serializeActionsEx exShared
              = Done ([0; 1; 0; 1], [0; 2; 5; 0; 0; 0; 0; 46; 97; 44; 46; 98]))
    by (vm_compute; reflexivity).
  split; [exact H|].
  destruct (same_actions_share_location enumActionTypeByte latin1 oneBucket _ _ _ H)
    as [Hdedup Hgroup].
  split.
  - destruct (Hdedup [] (rule0 BlockLoad 0)
                [mkRule exTrigger (mkAction CSSDisplayNoneSelector [46; 97])]
                (rule0 BlockLoad 0)
                [mkRule exTrigger (mkAction CSSDisplayNoneSelector [46; 98])])
      as (l & H0 & H2 & _); try reflexivity.
    + left. split; [apply list_elem_of_here|].
      apply Forall_singleton. unfold isIgnore. simpl. discriminate.
    + exists l. split; [exact H0|exact H2].
  - destruct (Hgroup [] exShared [] exTrigger) as (L & Hentry & Hlocs).
    + reflexivity.
    + split; [exact I|]. split; [|exact I].
      unfold exShared. repeat constructor; unfold isIgnore; simpl; discriminate.
    + vm_compute. discriminate.
    + exists L. split; [exact Hentry|]. split.
      * apply (Hlocs 1%nat (mkRule exTrigger (mkAction CSSDisplayNoneSelector [46; 97])));
          [reflexivity|]. repeat split.
      * apply (Hlocs 3%nat (mkRule exTrigger (mkAction CSSDisplayNoneSelector [46; 98])));
          [reflexivity|]. repeat split.
Defined.

(** C1 fails as stated.  In [exMixed] the rules 1 and 3 are
    [IgnorePreviousRules] rules with no conditions and the same flags, and
    the only rule between them is a [BlockLoad] rule: their locations are 8
    and 10.  The rules 0 and 4 are selector rules with one trigger: their
    selectors are in the entries at 0 and at 27.  The rules 5 and 6 are
    selector rules with one trigger that has a condition: their selectors
    are in the entries at 11 and at 19. *)
Lemma same_location_counterexample :
  serializeActionsEx exMixed
    = Done ([0; 8; 9; 10; 27; 11; 19],
            [2; 2; 0; 0; 0; 0; 46; 97; 4; 0; 4;
             2; 2; 0; 0; 0; 0; 46; 99; 2; 2; 0; 0; 0; 0; 46; 100;
             2; 2; 0; 0; 0; 0; 46; 98]) ∧
  ¬ (∀ rules locs acts i j ri rj,
       serializeActionsEx rules = Done (locs, acts) →
       (i < j)%nat → rules !! i = Some ri → rules !! j = Some rj →
       conditionType (trigger ri) = CondNone → conditions (trigger ri) = [] →
       conditionType (trigger rj) = CondNone → conditions (trigger rj) = [] →
       type (action ri) = type (action rj) →
       type (action ri) ≠ CSSDisplayNoneSelector →
       flags (trigger ri) = flags (trigger rj) →
       (∀ k rk, (i < k < j)%nat → rules !! k = Some rk → ¬ isIgnore rk) →
       locs !! i = locs !! j) ∧
  ¬ (∀ rules locs acts i j ri rj,
       serializeActionsEx rules = Done (locs, acts) →
       rules !! i = Some ri → rules !! j = Some rj →
       type (action ri) = CSSDisplayNoneSelector →
       type (action rj) = CSSDisplayNoneSelector →
       trigger ri = trigger rj →
       locs !! i = locs !! j).
Proof.
  assert (H : serializeActionsEx exMixed
              = Done ([0; 8; 9; 10; 27; 11; 19],
                      [2; 2; 0; 0; 0; 0; 46; 97; 4; 0; 4;
                       2; 2; 0; 0; 0; 0; 46; 99; 2; 2; 0; 0; 0; 0; 46; 100;
                       2; 2; 0; 0; 0; 0; 46; 98]))
    by (vm_compute; reflexivity).
  split; [exact H|]. split.
  - intros Hclaim.
    assert (Hbetween : ∀ k rk, (1 < k < 3)%nat → exMixed !! k = Some rk → ¬ isIgnore rk).
    { intros k rk Hk Hrk. assert (k = 2%nat) as -> by lia.
      injection Hrk as <-. unfold isIgnore. discriminate. }
    assert (Hlt : (1 < 3)%nat) by lia.
    assert (Hne : type (action (rule0 IgnorePreviousRules 0)) ≠ CSSDisplayNoneSelector)
      by discriminate.
    pose proof (Hclaim exMixed _ _ 1%nat 3%nat (rule0 IgnorePreviousRules 0)
                  (rule0 IgnorePreviousRules 0) H Hlt eq_refl eq_refl eq_refl eq_refl
                  eq_refl eq_refl eq_refl Hne eq_refl Hbetween) as Heq.
    discriminate Heq.
  - intros Hclaim.
    pose proof (Hclaim exMixed _ _ 0%nat 4%nat
                  (mkRule exTrigger (mkAction CSSDisplayNoneSelector [46; 97]))
                  (mkRule exTrigger (mkAction CSSDisplayNoneSelector [46; 98]))
                  H eq_refl eq_refl eq_refl eq_refl eq_refl) as Heq.
    discriminate Heq.
Qed.

Lemma ignorePreviousRules_starts_afresh_witness :
  isIgnore (rule0 IgnorePreviousRules 0) ∧
  serializeActionsEx exBlockIgnoreBlock = Done ([0; 1; 2], [0; 4; 0]) ∧
  ∃ li lj, [0; 1; 2] !! 0%nat = Some li ∧ [0; 1; 2] !! 2%nat = Some lj ∧ li < lj.
Proof.
  assert (H : serializeActionsEx exBlockIgnoreBlock = Done ([0; 1; 2], [0; 4; 0]))
    by (vm_compute; reflexivity).
  split; [reflexivity|]. split; [exact H|].
  destruct (ignorePreviousRules_starts_afresh enumActionTypeByte latin1 oneBucket
              [rule0 BlockLoad 0] [rule0 BlockLoad 0] (rule0 IgnorePreviousRules 0)
              [0; 1; 2] [0; 4; 0] eq_refl H)
    as (st & st1 & _ & _ & _ & _ & _ & _ & _ & Hsep).
  apply (Hsep 0%nat 0%nat (rule0 BlockLoad 0)).
  - simpl. lia.
  - reflexivity.
  - unfold isIgnore. simpl. discriminate.
Defined.

(** C2 fails as stated.  The three rules of [exThreeIgnores] share the
    entry at 0, the third with the first across the second, which is an
    [IgnorePreviousRules] rule. *)
Lemma ignore_rules_share_counterexample :
  serializeActionsEx exThreeIgnores = Done ([0; 0; 0], [4]) ∧
  ¬ (∀ A rk B locs acts i j,
       isIgnore rk →
       serializeActionsEx (A ++ rk :: B) = Done (locs, acts) →
       (i < length A)%nat → (j < length B)%nat →
       locs !! i ≠ locs !! (length A + S j)%nat).
Proof.
  assert (H : serializeActionsEx exThreeIgnores = Done ([0; 0; 0], [4]))
    by (vm_compute; reflexivity).
  split; [exact H|]. intros Hclaim.
  apply (Hclaim [rule0 IgnorePreviousRules 0] (rule0 IgnorePreviousRules 0)
           [rule0 IgnorePreviousRules 0] _ _ 0%nat 0%nat eq_refl H); simpl; (lia || done).
Qed.

Lemma conditioned_rules_serialized_alone_witness :
  conditions exTriggerIf ≠ [] ∧
  serializeActionsEx exConditionedSelectors
    = Done ([0; 8], [2; 2; 0; 0; 0; 0; 46; 99; 2; 2; 0; 0; 0; 0; 46; 100]) ∧
  ∃ l, [0; 8] !! 0%nat = Some l ∧
       entryAt [2; 2; 0; 0; 0; 0; 46; 99; 2; 2; 0; 0; 0; 0; 46; 100] l
         (selectorEntry enumActionTypeByte latin1 [46; 99]) ∧
       ∀ j, j ≠ 0%nat → [0; 8] !! j ≠ Some l.
Proof.
  assert (H : serializeActionsEx exConditionedSelectors
              = Done ([0; 8], [2; 2; 0; 0; 0; 0; 46; 99; 2; 2; 0; 0; 0; 0; 46; 100]))
    by (vm_compute; reflexivity).
  assert (Hc : conditions exTriggerIf ≠ []) by discriminate.
  split; [exact Hc|]. split; [exact H|].
  destruct (conditioned_rules_serialized_alone enumActionTypeByte latin1 oneBucket []
              [mkRule exTriggerIf (mkAction CSSDisplayNoneSelector [46; 100])]
              (mkRule exTriggerIf (mkAction CSSDisplayNoneSelector [46; 99]))
              _ _ Hc H) as [_ Halone].
  exact Halone.
Defined.

(** C4 fails as stated.  The two selector rules of
    [exConditionedSelectors] have one trigger, which has a condition: each
    selector is serialized in an entry of its own, and the buffer holds no
    entry with the two selectors joined. *)
Lemma conditioned_selectors_counterexample :
  serializeActionsEx exConditionedSelectors
    = Done ([0; 8], selectorEntry enumActionTypeByte latin1 [46; 99]
                    ++ selectorEntry enumActionTypeByte latin1 [46; 100]) ∧
  ¬ ∃ L, entryAt [2; 2; 0; 0; 0; 0; 46; 99; 2; 2; 0; 0; 0; 0; 46; 100] L
           (selectorEntry enumActionTypeByte latin1 (joinComma [[46; 99]; [46; 100]])).
Proof.
  split; [vm_compute; reflexivity|].
  intros (L & before & after & Heq & _).
  change (selectorEntry enumActionTypeByte latin1 (joinComma [[46; 99]; [46; 100]]))
    with [2; 5; 0; 0; 0; 0; 46; 99; 44; 46; 100] in Heq.
  do 6 (destruct before as [|? before]; [discriminate Heq|]).
  apply (f_equal length) in Heq. simpl in Heq. rewrite length_app in Heq. simpl in Heq. lia.
Qed.

Lemma serializeActions_backfills_witness :
  Forall serializable exMixed ∧
  ∃ locs acts,
    serializeActionsEx exMixed = Done (locs, acts) ∧
    length locs = length exMixed ∧
    (Z.of_nat (length acts) ≤ UINT_MAX → UINT_MAX ∉ locs) ∧
    ∃ L, locs !! 5%nat = Some L ∧
         entryAt acts L
           (ownEntry enumActionTypeByte latin1
              (mkRule exTriggerIf (mkAction CSSDisplayNoneSelector [46; 99]))).
Proof.
  assert (Hs : Forall serializable exMixed).
  { apply (bool_decide_unpack _). vm_compute. exact I. }
  assert (Hc : conditions exTriggerIf ≠ []) by discriminate.
  split; [exact Hs|].
  destruct (serializeActions_backfills enumActionTypeByte latin1 oneBucket exMixed Hs)
    as (locs & acts & Hser & Hlen & _ & Hmax & _ & Hcond).
  exists locs, acts. split; [exact Hser|]. split; [exact Hlen|]. split; [exact Hmax|].
  exact (Hcond 5%nat (mkRule exTriggerIf (mkAction CSSDisplayNoneSelector [46; 99]))
           eq_refl Hc).
Defined.

(** C10 fails as stated.  The two selector rules of
    [exConditionedSelectors] have one trigger, which has a condition.
    Neither ever holds the sentinel and neither is backfilled: each is
    given the offset of an entry with its own selector when the loop comes
    to it, 0 and 8, and neither location is that of an entry with the
    selectors of the trigger joined. *)
Lemma conditioned_selectors_not_backfilled_counterexample :
  serializeActionsEx exConditionedSelectors
    = Done ([0; 8], [2; 2; 0; 0; 0; 0; 46; 99; 2; 2; 0; 0; 0; 0; 46; 100]) ∧
  ¬ (∀ rules locs acts i rule,
       serializeActionsEx rules = Done (locs, acts) →
       rules !! i = Some rule →
       type (action rule) = CSSDisplayNoneSelector →
       ∃ pre seg post k L,
         rules = pre ++ seg ++ post ∧ segment pre seg post ∧
         i = (length pre + k)%nat ∧ seg !! k = Some rule ∧
         locs !! i = Some L ∧
         entryAt acts L
           (selectorEntry enumActionTypeByte latin1
              (joinComma (triggerSelectors (trigger rule) seg)))).
Proof.
  assert (H : serializeActionsEx exConditionedSelectors
              = Done ([0; 8], [2; 2; 0; 0; 0; 0; 46; 99; 2; 2; 0; 0; 0; 0; 46; 100]))
    by (vm_compute; reflexivity).
  split; [exact H|]. intros Hclaim.
  destruct (Hclaim exConditionedSelectors _ _ 0%nat
              (mkRule exTriggerIf (mkAction CSSDisplayNoneSelector [46; 99]))
              H eq_refl eq_refl)
    as (pre & seg & post & k & L & Heq & (_ & _ & Hpost) & Hi & Hk & HL & Hentry).
  destruct pre as [|? pre]; [|simpl in Hi; lia].
  simpl in Hi. subst k. injection HL as <-.
  assert (Hseg : seg = exConditionedSelectors).
  { unfold exConditionedSelectors in Heq. cbn [app] in Heq.
    destruct seg as [|r1 [|r2 seg]]; [discriminate Hk| |].
    - cbn [app] in Heq. injection Heq as _ Heq. subst post.
      cbn [head from_option] in Hpost. unfold isIgnore in Hpost. discriminate Hpost.
    - cbn [app] in Heq. injection Heq as <- <- Heq.
      symmetry in Heq. apply app_eq_nil in Heq as [-> _]. done. }
  subst seg. destruct Hentry as (before & after & Hacts & Hlen).
  destruct before as [|? before]; [|simpl in Hlen; lia].
  change (selectorEntry enumActionTypeByte latin1
            (joinComma (triggerSelectors exTriggerIf exConditionedSelectors)))
    with [2; 5; 0; 0; 0; 0; 46; 99; 44; 46; 100] in Hacts.
  discriminate Hacts.
Qed.

(** ** Universal actions on the root of an automaton *)

Lemma addUniversalActionsToDFA_empty (dfa : DFA) :
  addUniversalActionsToDFA dfa ∅ = Done dfa.
Proof. unfold addUniversalActionsToDFA. by rewrite decide_True. Qed.

Lemma length_elements (U : gset Z) : length (elements U) = size U.
Proof. done. Qed.

(** The three outcomes of [addUniversalActionsToDFA] on a set that is not
    empty. *)
Lemma addUniversalActionsToDFA_cases (dfa : DFA) (U : gset Z) :
  U ≠ ∅ →
  addUniversalActionsToDFA dfa U =
  match nodes dfa !! root dfa with
  | None => Crash VectorOverflow
  | Some rootNode =>
      if decide (Z.of_nat (size U) < UINT16_MAX)
      then Done (mkDFA (<[root dfa := setActions rootNode (Z.of_nat (length (dfaActions dfa)))
                                        (Z.of_nat (size U))]> (nodes dfa))
                   (dfaActions dfa ++ elements U) (root dfa))
      else Crash TooManyUniversalActions
  end.
Proof.
  intros HU. unfold addUniversalActionsToDFA. rewrite decide_False by done.
  unfold vectorGet. destruct (nodes dfa !! root dfa) as [rootNode|] eqn:Hroot; [|done].
  cbn [mbind Run_bind]. rewrite length_app, length_elements.
  replace (Z.of_nat (length (dfaActions dfa) + size U) - Z.of_nat (length (dfaActions dfa)))
    with (Z.of_nat (size U)) by lia.
  destruct (decide (Z.of_nat (size U) < UINT16_MAX)) as [Hlt|Hge]; [|done].
  rewrite vectorSet_Done by (by eapply lookup_lt_Some).
  cbn [mbind Run_bind mret Run_ret]. do 3 f_equal.
  unfold UINT16_MAX in Hlt. rewrite Z.mod_small by lia. done.
Qed.

Lemma nodeActions_appended (acts added : list Z) (nodes : list DFANode) (r : nat)
    (node : DFANode) :
  nodeActions (mkDFA nodes (acts ++ added) r)
    (setActions node (Z.of_nat (length acts)) (Z.of_nat (length added)))
  = added.
Proof.
  unfold nodeActions, setActions. simpl. rewrite !Nat2Z.id.
  rewrite drop_app_length. apply firstn_all.
Qed.

(** When universal actions are put on an automaton, its root holds them,
    each once, and nothing else. *)
Lemma addUniversalActionsToDFA_root (dfa dfa' : DFA) (U : gset Z) :
  U ≠ ∅ → addUniversalActionsToDFA dfa U = Done dfa' →
  rootActions dfa' = elements U ∧
  root dfa' = root dfa ∧
  dfaActions dfa' = dfaActions dfa ++ elements U ∧
  (∀ i, i ≠ root dfa → nodes dfa' !! i = nodes dfa !! i).
Proof.
  intros HU. rewrite addUniversalActionsToDFA_cases by done.
  destruct (nodes dfa !! root dfa) as [rootNode|] eqn:Hroot; [|done].
  case_decide; [|done]. intros [= <-]. split_and!; try done.
  - unfold rootActions. cbn [nodes root].
    rewrite list_lookup_insert_eq by (by eapply lookup_lt_Some).
    rewrite <- length_elements. apply nodeActions_appended.
  - intros i Hi. cbn [nodes]. by rewrite list_lookup_insert_ne.
Qed.

(** ** The orchestrator: the lowering of a stream *)

Section OrchestratorFacts.

Variable actionTypeByte : ActionType → Z.
Variable is8Bit : String → bool.
Variable slotRank : list Trigger → Trigger → nat.
Variable parseRuleList : String → error_code + list ContentExtensionRule.
Variable CombinedURLFilters : Type.
Variable emptyFilters : CombinedURLFilters.
Variable addPattern : CombinedURLFilters → String → bool → Z → ParseStatus * CombinedURLFilters.
Variable addDomain : CombinedURLFilters → Z → String → CombinedURLFilters.
Variable NFA : Type.
Variable processNFAs : Z → CombinedURLFilters → list NFA.
Variable convert : NFA → DFA.
Variable graphSize : DFA → Z.
Variable minimize : DFA → DFA.
Variable DFACombiner : Type.
Variable emptyCombiner : DFACombiner.
Variable addDFA : DFACombiner → DFA → DFACombiner.
Variable combineDFAs : Z → DFACombiner → list DFA.
Variable compile : DFA → list Z.
Variable emptyDFA : DFA.
Variable IfConditionFlag : Z.

Local Abbreviation lowerDFA :=
  (lowerDFAToBytecode DFACombiner compile).
Local Abbreviation lowerNFA' :=
  (lowerNFA NFA convert graphSize minimize DFACombiner addDFA compile).
Local Abbreviation lowerStream :=
  (lowerFilters CombinedURLFilters NFA processNFAs convert graphSize minimize DFACombiner
     emptyCombiner addDFA combineDFAs compile emptyDFA).
Local Abbreviation streamOf :=
  (streamDFAs CombinedURLFilters NFA processNFAs convert graphSize minimize DFACombiner
     emptyCombiner addDFA combineDFAs).
Local Abbreviation firstOf :=
  (firstDFA CombinedURLFilters NFA processNFAs convert graphSize minimize DFACombiner
     emptyCombiner addDFA combineDFAs emptyDFA).
Local Abbreviation laterOf :=
  (laterDFAs CombinedURLFilters NFA processNFAs convert graphSize minimize DFACombiner
     emptyCombiner addDFA combineDFAs).
Local Abbreviation small := (isSmall graphSize).
Local Abbreviation large := (isLarge graphSize).

Section Lowering.

Variable write : list Z → ClientCall.
Variable U : gset Z.

Lemma lowerNFA_small (st : Lowering DFACombiner) (n : NFA) :
  small (convert n) →
  lowerNFA' write U st n
  = Done (mkLowering DFACombiner (firstNFASeen DFACombiner st)
            (addDFA (smallDFACombiner DFACombiner st) (convert n))
            (client DFACombiner st)).
Proof. intros H. unfold lowerNFA. by rewrite decide_True. Qed.

Lemma lowerNFA_large (st : Lowering DFACombiner) (n : NFA) :
  large (convert n) →
  lowerNFA' write U st n = lowerDFA write U st (minimize (convert n)).
Proof. intros H. unfold lowerNFA. by rewrite decide_False. Qed.

Lemma lowerDFA_seen_step (comb : DFACombiner) (calls : list ClientCall) (d : DFA) :
  lowerDFA write U (mkLowering DFACombiner true comb calls) d
  = Done (mkLowering DFACombiner true comb (calls ++ [write (compile d)])).
Proof. done. Qed.

Lemma lowerDFA_unseen_step (comb : DFACombiner) (calls : list ClientCall) (d : DFA) :
  lowerDFA write U (mkLowering DFACombiner false comb calls) d
  = d' ← addUniversalActionsToDFA d U;
    Done (mkLowering DFACombiner true comb (calls ++ [write (compile d')])).
Proof. done. Qed.

(** Once a first automaton is seen the others are lowered as they come. *)
Lemma lowerDFA_seen (comb : DFACombiner) (calls : list ClientCall) (dfas : list DFA) :
  foldlM (lowerDFA write U) (mkLowering DFACombiner true comb calls) dfas
  = Done (mkLowering DFACombiner true comb (calls ++ (write ∘ compile <$> dfas))).
Proof.
  revert calls. induction dfas as [|d dfas IH]; intros calls; cbn [foldlM].
  - by rewrite app_nil_r.
  - rewrite lowerDFA_seen_step. cbn [mbind Run_bind].
    rewrite IH, <- app_assoc. done.
Qed.

Lemma lowerNFA_seen (comb : DFACombiner) (calls : list ClientCall) (nfas : list NFA) :
  foldlM (lowerNFA' write U) (mkLowering DFACombiner true comb calls) nfas
  = Done (mkLowering DFACombiner true
            (foldl addDFA comb (filter small (convert <$> nfas)))
            (calls ++ (write ∘ compile <$> (minimize <$> filter large (convert <$> nfas))))).
Proof.
  revert comb calls. induction nfas as [|n nfas IH]; intros comb calls.
  - simpl. by rewrite app_nil_r.
  - cbn [foldlM]. rewrite fmap_cons.
    destruct (decide (small (convert n))) as [Hs|Hl].
    + rewrite lowerNFA_small by done.
      cbn [mbind Run_bind firstNFASeen smallDFACombiner client].
      rewrite IH.
      rewrite (filter_cons_True small) by done.
      rewrite (filter_cons_False large) by (intros Hn; by apply Hn).
      done.
    + rewrite lowerNFA_large, lowerDFA_seen_step by done.
      cbn [mbind Run_bind].
      rewrite IH.
      rewrite (filter_cons_False small) by done.
      rewrite (filter_cons_True large) by done.
      rewrite !fmap_cons, <- app_assoc. done.
Qed.

(** Before a first automaton is seen: the small automata go to the
    combiner, and the first large one is given the universal actions. *)
Lemma lowerNFA_unseen (comb : DFACombiner) (calls : list ClientCall) (nfas : list NFA) :
  foldlM (lowerNFA' write U) (mkLowering DFACombiner false comb calls) nfas
  = match minimize <$> filter large (convert <$> nfas) with
    | [] => Done (mkLowering DFACombiner false
                    (foldl addDFA comb (filter small (convert <$> nfas))) calls)
    | d :: ds =>
        d' ← addUniversalActionsToDFA d U;
        Done (mkLowering DFACombiner true
                (foldl addDFA comb (filter small (convert <$> nfas)))
                (calls ++ write (compile d') :: (write ∘ compile <$> ds)))
    end.
Proof.
  revert comb. induction nfas as [|n nfas IH]; intros comb; [done|].
  cbn [foldlM]. rewrite fmap_cons.
  destruct (decide (small (convert n))) as [Hs|Hl].
  - rewrite lowerNFA_small by done.
    cbn [mbind Run_bind firstNFASeen smallDFACombiner client].
    rewrite IH.
    rewrite (filter_cons_True small) by done.
    rewrite (filter_cons_False large) by (intros Hn; by apply Hn).
    done.
  - rewrite lowerNFA_large, lowerDFA_unseen_step by done.
    rewrite (filter_cons_False small) by done.
    rewrite (filter_cons_True large) by done.
    rewrite fmap_cons.
    destruct (addUniversalActionsToDFA (minimize (convert n)) U) as [d'|f]; [|done].
    cbn [mbind Run_bind].
    rewrite lowerNFA_seen. rewrite <- app_assoc. done.
Qed.

(** A stream is lowered as its automata in order, the first of them, or
    the dummy when there is none, with the universal actions on its root. *)
Lemma lowerFilters_stream (filters : CombinedURLFilters) (calls : list ClientCall) :
  lowerStream write U filters calls
  = d ← addUniversalActionsToDFA (firstOf filters) U;
    Done (calls ++ write (compile d) :: (write ∘ compile <$> laterOf filters)).
Proof.
  unfold lowerFilters, firstDFA, laterDFAs, streamDFAs.
  rewrite lowerNFA_unseen.
  set (dfas := convert <$> processNFAs maxNFASize filters).
  set (comb := foldl addDFA emptyCombiner (filter small dfas)).
  destruct (minimize <$> filter large dfas) as [|d ds] eqn:Hlarge.
  - cbn [mbind Run_bind smallDFACombiner app].
    destruct (combineDFAs smallDFASize comb) as [|c cs] eqn:Hcomb.
    + cbn [foldlM mbind Run_bind firstNFASeen head tail default client fmap list_fmap].
      reflexivity.
    + cbn [foldlM head tail default]. rewrite lowerDFA_unseen_step.
      change (id c) with c.
      destruct (addUniversalActionsToDFA c U) as [c'|f]; [|reflexivity].
      cbn [mbind Run_bind]. rewrite lowerDFA_seen.
      cbn [mbind Run_bind firstNFASeen client]. rewrite <- app_assoc. done.
  - cbn [app head tail default]. change (id d) with d.
    destruct (addUniversalActionsToDFA d U) as [d'|f]; [|reflexivity].
    cbn [mbind Run_bind smallDFACombiner]. rewrite lowerDFA_seen.
    cbn [mbind Run_bind firstNFASeen client].
    rewrite <- !app_assoc. cbn [app]. rewrite fmap_app. done.
Qed.

End Lowering.

Lemma lowerConditionFilters_stream (filters : CombinedURLFilters) (calls : list ClientCall) :
  lowerConditionFilters CombinedURLFilters NFA processNFAs convert compile filters calls
  = calls ++ (writeConditionedFiltersBytecode ∘ compile ∘ convert
              <$> processNFAs maxNFASize filters).
Proof.
  unfold lowerConditionFilters. generalize (processNFAs maxNFASize filters). intros nfas.
  revert calls. induction nfas as [|n nfas IH]; intros calls; simpl.
  - by rewrite app_nil_r.
  - rewrite IH, <- app_assoc. done.
Qed.

(** ** The orchestrator: the loop over the rules *)

Local Abbreviation partitionStep :=
  (partitionRule CombinedURLFilters addPattern addDomain IfConditionFlag).
Local Abbreviation partitionLoop :=
  (partitionRules CombinedURLFilters addPattern addDomain IfConditionFlag).
Local Abbreviation resultOf :=
  (patternResult CombinedURLFilters addPattern IfConditionFlag).
Local Abbreviation wordOf := (actionWord IfConditionFlag).
Local Abbreviation nextOf :=
  (nextPartition CombinedURLFilters addPattern addDomain IfConditionFlag).
Local Abbreviation compileParsed :=
  (compileParsedRuleList actionTypeByte is8Bit slotRank CombinedURLFilters emptyFilters
     addPattern addDomain NFA processNFAs convert graphSize minimize DFACombiner
     emptyCombiner addDFA combineDFAs compile emptyDFA IfConditionFlag).
Local Abbreviation compileJSON :=
  (compileRuleList actionTypeByte is8Bit slotRank parseRuleList CombinedURLFilters
     emptyFilters addPattern addDomain NFA processNFAs convert graphSize minimize
     DFACombiner emptyCombiner addDFA combineDFAs compile emptyDFA IfConditionFlag).

Lemma partitionRule_cases (locs : list Z) (st : Partition CombinedURLFilters) (i : nat)
    (rule : ContentExtensionRule) (loc : Z) :
  locs !! i = Some loc →
  partitionStep locs st i rule
  = if decide (parseFailed (resultOf st loc rule).1)
    then Done (inl JSONInvalidRegex)
    else Done (inr (nextOf st loc rule)).
Proof.
  intros Hloc. unfold partitionRule, vectorGet. rewrite Hloc. cbn [mbind Run_bind].
  unfold nextPartition, patternResult, patternFilters, actionWord, parseFailed.
  destruct (decide (conditions (trigger rule) = [])) as [Hc|Hc].
  - destruct (addPattern _ _ _ _) as [status filters]. cbn [fst].
    destruct status; simpl; repeat case_decide; simplify_eq; try done;
      exfalso; naive_solver.
  - destruct (conditionType (trigger rule));
      destruct (addPattern _ _ _ _) as [status filters]; cbn [fst];
      destruct status; simpl; repeat case_decide; simplify_eq; try done;
      exfalso; naive_solver.
Qed.

Lemma partitionRule_overflow (locs : list Z) (st : Partition CombinedURLFilters) (i : nat)
    (rule : ContentExtensionRule) :
  locs !! i = None → partitionStep locs st i rule = Crash VectorOverflow.
Proof. intros Hloc. unfold partitionRule, vectorGet. by rewrite Hloc. Qed.

Lemma partitionRules_app (locs : list Z) (i : nat) (l1 l2 : list ContentExtensionRule)
    (st : Partition CombinedURLFilters) :
  partitionLoop locs i (l1 ++ l2) st
  = r ← partitionLoop locs i l1 st;
    match r with
    | inl e => Done (inl e)
    | inr st' => partitionLoop locs (i + length l1) l2 st'
    end.
Proof.
  revert i st. induction l1 as [|rule l1 IH]; intros i st.
  - simpl. by rewrite Nat.add_0_r.
  - cbn [app partitionRules]. destruct (partitionStep locs st i rule) as [[e|st']|f]; try done.
    cbn [mbind Run_bind]. rewrite IH. simpl. by rewrite Nat.add_succ_r.
Qed.

(** The loop reads no location past the end of the vector. *)
Lemma partitionRules_returns (locs : list Z) (i : nat) (rules : list ContentExtensionRule)
    (st : Partition CombinedURLFilters) :
  (i + length rules ≤ length locs)%nat →
  ∃ r, partitionLoop locs i rules st = Done r.
Proof.
  revert i st. induction rules as [|rule rules IH]; intros i st Hlen; [simpl; eauto|].
  cbn [partitionRules]. simpl in Hlen.
  destruct (lookup_lt_is_Some_2 locs i ltac:(lia)) as [loc Hloc].
  rewrite (partitionRule_cases _ _ _ _ _ Hloc). case_decide; [simpl; eauto|].
  cbn [mbind Run_bind]. apply IH. lia.
Qed.

(** The loop returns at the first rule whose pattern fails to parse. *)
Lemma partitionRules_fails (locs : list Z) (pre post : list ContentExtensionRule)
    (rule : ContentExtensionRule) (st : Partition CombinedURLFilters) (loc : Z) :
  partitionLoop locs 0 pre (emptyPartition CombinedURLFilters emptyFilters) = Done (inr st) →
  locs !! length pre = Some loc →
  parseFailed (resultOf st loc rule).1 →
  partitionLoop locs 0 (pre ++ rule :: post) (emptyPartition CombinedURLFilters emptyFilters)
  = Done (inl JSONInvalidRegex).
Proof.
  intros Hpre Hloc Hfail. rewrite partitionRules_app, Hpre. cbn [mbind Run_bind].
  cbn [partitionRules]. rewrite (partitionRule_cases _ _ _ _ _ Hloc).
  by rewrite decide_True.
Qed.

(** The loop runs to its end when no pattern fails to parse. *)
Lemma partitionRules_passes (locs : list Z) (rules : list ContentExtensionRule) :
  (length rules ≤ length locs)%nat →
  (∀ pre rule post st loc,
     rules = pre ++ rule :: post →
     partitionLoop locs 0 pre (emptyPartition CombinedURLFilters emptyFilters)
       = Done (inr st) →
     locs !! length pre = Some loc →
     ¬ parseFailed (resultOf st loc rule).1) →
  ∃ st, partitionLoop locs 0 rules (emptyPartition CombinedURLFilters emptyFilters)
        = Done (inr st).
Proof.
  induction rules as [|rule rules IH] using rev_ind; intros Hlen Hok; [simpl; eauto|].
  rewrite length_app in Hlen. simpl in Hlen.
  destruct IH as [st Hst]; [lia| |].
  { intros pre r post st loc -> Hpre Hloc.
    eapply (Hok pre r (post ++ [rule])); [|done..]. by rewrite <- app_assoc. }
  destruct (lookup_lt_is_Some_2 locs (length rules) ltac:(lia)) as [loc Hloc].
  rewrite partitionRules_app, Hst. cbn [mbind Run_bind partitionRules].
  rewrite (partitionRule_cases _ _ _ _ _ Hloc).
  rewrite decide_False; [simpl; eauto|].
  eapply (Hok rules rule []); done.
Qed.

(** ** The orchestrator: a compilation from end to end *)

Local Abbreviation U1 := (universalActionsWithoutConditions CombinedURLFilters).
Local Abbreviation U2 := (universalActionsWithConditions CombinedURLFilters).
Local Abbreviation F1 := (filtersWithoutConditions CombinedURLFilters).
Local Abbreviation F2 := (filtersWithConditions CombinedURLFilters).
Local Abbreviation CF := (conditionFilters CombinedURLFilters).
Local Abbreviation callsOf := (sinkCalls NFA convert compile).

(** [compileRuleList] on a parsed list, in its three outcomes: an abort, a
    return at a pattern that fails, and a return after [finalize]. *)
Lemma compileParsedRuleList_cases (rules : list ContentExtensionRule) (locs acts : list Z) :
  serializeActions actionTypeByte is8Bit slotRank rules = Done (locs, acts) →
  compileParsed rules
  = r ← partitionLoop locs 0 rules (emptyPartition CombinedURLFilters emptyFilters);
    match r with
    | inl e => Done ([writeActions acts], e)
    | inr st =>
        d1 ← addUniversalActionsToDFA (firstOf (F1 st)) (U1 st);
        d2 ← addUniversalActionsToDFA (firstOf (F2 st)) (U2 st);
        Done (callsOf acts d1 (laterOf (F1 st)) d2 (laterOf (F2 st))
                (processNFAs maxNFASize (CF st)), NoError)
    end.
Proof.
  intros Hser. unfold compileParsedRuleList. rewrite Hser. cbn [mbind Run_bind].
  destruct (partitionLoop locs 0 rules _) as [[e|st]|f]; try reflexivity.
  cbn [mbind Run_bind]. rewrite !lowerFilters_stream.
  destruct (addUniversalActionsToDFA (firstOf (F1 st)) (U1 st)) as [d1|f]; [|reflexivity].
  cbn [mbind Run_bind]. rewrite lowerFilters_stream.
  destruct (addUniversalActionsToDFA (firstOf (F2 st)) (U2 st)) as [d2|f]; [|reflexivity].
  cbn [mbind Run_bind mret Run_ret]. rewrite lowerConditionFilters_stream.
  unfold sinkCalls. do 2 f_equal.
  rewrite !fmap_cons, <- !list_fmap_compose, <- !app_assoc. cbn [app]. done.
Qed.

Lemma compileRuleList_parsed (ruleJSON : String) (rules : list ContentExtensionRule) :
  parseRuleList ruleJSON = inr rules → compileJSON ruleJSON = compileParsed rules.
Proof. intros H. unfold compileRuleList. by rewrite H. Qed.

(** The shape of the calls of a compilation that succeeds. *)
Lemma compile_succeeds_inv (rules : list ContentExtensionRule)
    (calls : list ClientCall) :
  compileParsed rules = Done (calls, NoError) →
  ∃ locs acts st d1 d2,
    serializeActions actionTypeByte is8Bit slotRank rules = Done (locs, acts) ∧
    partitionLoop locs 0 rules (emptyPartition CombinedURLFilters emptyFilters)
      = Done (inr st) ∧
    addUniversalActionsToDFA (firstOf (F1 st)) (U1 st) = Done d1 ∧
    addUniversalActionsToDFA (firstOf (F2 st)) (U2 st) = Done d2 ∧
    calls = callsOf acts d1 (laterOf (F1 st)) d2 (laterOf (F2 st))
              (processNFAs maxNFASize (CF st)).
Proof.
  intros Hc.
  destruct (serializeActions actionTypeByte is8Bit slotRank rules) as [[locs acts]|f] eqn:Hser.
  2: { unfold compileParsedRuleList in Hc. rewrite Hser in Hc. discriminate Hc. }
  rewrite (compileParsedRuleList_cases _ _ _ Hser) in Hc.
  apply bind_Done in Hc as (r & Hpart & Hc). destruct r as [e|st].
  - injection Hc as <- ->.
    exfalso. clear -Hpart.
    assert (Hno : ∀ l i st0, partitionLoop locs i l st0 ≠ Done (inl NoError)).
    { induction l as [|rule l IH]; intros i st0; [discriminate|].
      cbn [partitionRules]. destruct (locs !! i) as [loc|] eqn:Hloc.
      - rewrite (partitionRule_cases _ _ _ _ _ Hloc). case_decide; [discriminate|].
        cbn [mbind Run_bind]. apply IH.
      - rewrite partitionRule_overflow by done. discriminate. }
    by eapply Hno.
  - apply bind_Done in Hc as (d1 & Hd1 & Hc). apply bind_Done in Hc as (d2 & Hd2 & Hc).
    injection Hc as <-. exists locs, acts, st, d1, d2. done.
Qed.

(** A location read by the loop is the location of the rule. *)
Lemma serialized_lookup (rules : list ContentExtensionRule) (locs acts : list Z) (i : nat) :
  serializeActions actionTypeByte is8Bit slotRank rules = Done (locs, acts) →
  (i < length rules)%nat → is_Some (locs !! i).
Proof.
  intros Hser Hi. apply lookup_lt_is_Some.
  by rewrite (serializeActions_length _ _ _ _ _ _ Hser).
Qed.

Lemma partitionRules_universal_mono (locs : list Z) (i : nat)
    (rules : list ContentExtensionRule) (st st' : Partition CombinedURLFilters) :
  partitionLoop locs i rules st = Done (inr st') →
  U1 st ⊆ U1 st' ∧ U2 st ⊆ U2 st'.
Proof.
  revert i st. induction rules as [|rule rules IH]; intros i st.
  - simpl. intros [= <-]. done.
  - cbn [partitionRules]. destruct (locs !! i) as [loc|] eqn:Hloc.
    + rewrite (partitionRule_cases _ _ _ _ _ Hloc). case_decide; [discriminate|].
      cbn [mbind Run_bind]. intros Hrest. apply IH in Hrest as [H1 H2].
      split; (etrans; [|eassumption]); unfold nextPartition;
        destruct (resultOf st loc rule) as [status filters];
        repeat case_decide;
        cbn [universalActionsWithoutConditions universalActionsWithConditions];
        try done; apply union_subseteq_r.
    + rewrite partitionRule_overflow by done. discriminate.
Qed.

Lemma finalize_not_before (acts : list Z) (w1 w2 w3 : list (list Z)) :
  finalize ∉ [writeActions acts]
             ++ (writeFiltersWithoutConditionsBytecode <$> w1)
             ++ (writeFiltersWithConditionsBytecode <$> w2)
             ++ (writeConditionedFiltersBytecode <$> w3).
Proof.
  rewrite !elem_of_app, !list_elem_of_fmap, list_elem_of_singleton.
  intros [H|[(b & H & _)|[(b & H & _)|(b & H & _)]]]; discriminate H.
Qed.

(** ** The orchestrator: statements *)

(** C7.  On a compilation that succeeds the client has received
    [writeActions] once, then the chunks of the filters without
    conditions, at least one, then the chunks of the filters with
    conditions, at least one, then the chunks of the domain conditions,
    then [finalize] once, and nothing else. *)
Theorem client_calls_in_order (ruleJSON : String) (rules : list ContentExtensionRule)
    (calls : list ClientCall) :
  parseRuleList ruleJSON = inr rules →
  compileJSON ruleJSON = Done (calls, NoError) →
  ∃ acts w1 w2 w3,
    calls = [writeActions acts]
            ++ (writeFiltersWithoutConditionsBytecode <$> w1)
            ++ (writeFiltersWithConditionsBytecode <$> w2)
            ++ (writeConditionedFiltersBytecode <$> w3)
            ++ [finalize] ∧
    w1 ≠ [] ∧ w2 ≠ [].
Proof.
  intros Hparse Hc. rewrite (compileRuleList_parsed _ _ Hparse) in Hc.
  apply compile_succeeds_inv in Hc as (locs & acts & st & d1 & d2 & _ & _ & _ & _ & ->).
  exists acts, (compile <$> d1 :: laterOf (F1 st)), (compile <$> d2 :: laterOf (F2 st)),
    (compile <$> (convert <$> processNFAs maxNFASize (CF st))).
  split; [done|]. split; discriminate.
Qed.

(** C5, as amended.  A compilation that succeeds writes at least one chunk
    to the stream of the filters without conditions and at least one to
    the stream of the filters with conditions: the chunk of the stream's
    first automaton, which is the dummy [DFA::empty()] when the stream has
    no automaton, with the universal actions of the stream on its root.
    The stream of the domain conditions gets one chunk for each NFA of the
    condition filters, and none when there is none. *)
Theorem filter_streams_never_empty (ruleJSON : String) (rules : list ContentExtensionRule)
    (calls : list ClientCall) :
  parseRuleList ruleJSON = inr rules →
  compileJSON ruleJSON = Done (calls, NoError) →
  ∃ locs acts st d1 d2,
    partitionLoop locs 0 rules (emptyPartition CombinedURLFilters emptyFilters)
      = Done (inr st) ∧
    addUniversalActionsToDFA (firstOf (F1 st)) (U1 st) = Done d1 ∧
    addUniversalActionsToDFA (firstOf (F2 st)) (U2 st) = Done d2 ∧
    (streamOf (F1 st) = [] → firstOf (F1 st) = emptyDFA ∧ laterOf (F1 st) = []) ∧
    (streamOf (F2 st) = [] → firstOf (F2 st) = emptyDFA ∧ laterOf (F2 st) = []) ∧
    calls = [writeActions acts]
            ++ (writeFiltersWithoutConditionsBytecode <$> (compile <$> d1 :: laterOf (F1 st)))
            ++ (writeFiltersWithConditionsBytecode <$> (compile <$> d2 :: laterOf (F2 st)))
            ++ (writeConditionedFiltersBytecode
                <$> (compile <$> (convert <$> processNFAs maxNFASize (CF st))))
            ++ [finalize].
Proof.
  intros Hparse Hc. rewrite (compileRuleList_parsed _ _ Hparse) in Hc.
  apply compile_succeeds_inv in Hc as (locs & acts & st & d1 & d2 & _ & Hp & Hd1 & Hd2 & ->).
  exists locs, acts, st, d1, d2. split_and!; try done.
  - unfold firstDFA, laterDFAs. by intros ->.
  - unfold firstDFA, laterDFAs. by intros ->.
Qed.

(** C8.  The universal actions put on a root are as many as the set has,
    fewer than [2^16 - 1], so the count is stored in the 16-bit length
    without loss; with [2^16 - 1] universal actions or more, which covers
    every count that does not fit in 16 bits, [addUniversalActionsToDFA]
    aborts on its release assertion, and so does the compilation, which
    returns no error code then; with fewer, that assertion does not
    fire. *)
Theorem too_many_universal_actions_abort (dfa : DFA) (U : gset Z) :
  (∀ dfa', U ≠ ∅ → addUniversalActionsToDFA dfa U = Done dfa' →
     ∃ rootNode, nodes dfa' !! root dfa' = Some rootNode ∧
                 actionsLength rootNode = Z.of_nat (size U) ∧
                 0 ≤ actionsLength rootNode < 2 ^ 16 - 1 ∧
                 length (rootActions dfa') = size U) ∧
  (UINT16_MAX ≤ Z.of_nat (size U) → is_Some (nodes dfa !! root dfa) →
     addUniversalActionsToDFA dfa U = Crash TooManyUniversalActions) ∧
  (Z.of_nat (size U) < 2 ^ 16 - 1 →
     addUniversalActionsToDFA dfa U ≠ Crash TooManyUniversalActions) ∧
  (∀ rules locs acts st,
     serializeActions actionTypeByte is8Bit slotRank rules = Done (locs, acts) →
     partitionLoop locs 0 rules (emptyPartition CombinedURLFilters emptyFilters)
       = Done (inr st) →
     (dfa = firstOf (F1 st) ∧ U = U1 st) ∨
     (dfa = firstOf (F2 st) ∧ U = U2 st ∧
      ∃ d1, addUniversalActionsToDFA (firstOf (F1 st)) (U1 st) = Done d1) →
     addUniversalActionsToDFA dfa U = Crash TooManyUniversalActions →
     compileParsed rules = Crash TooManyUniversalActions).
Proof.
  split_and!.
  - intros dfa' HU Hadd.
    destruct (addUniversalActionsToDFA_root _ _ _ HU Hadd) as (Hroot & _).
    rewrite addUniversalActionsToDFA_cases in Hadd by done.
    destruct (nodes dfa !! root dfa) as [rootNode|] eqn:Hlook; [|done].
    case_decide as Hlt; [|done]. injection Hadd as <-.
    eexists. cbn [nodes root]. rewrite list_lookup_insert_eq by (by eapply lookup_lt_Some).
    split; [done|]. unfold UINT16_MAX in Hlt. cbn [setActions actionsLength].
    split_and!; [done|lia|lia|]. by rewrite Hroot.
  - intros Hge [rootNode Hlook].
    assert (HU : U ≠ ∅).
    { intros ->. rewrite size_empty in Hge. unfold UINT16_MAX in Hge. lia. }
    rewrite addUniversalActionsToDFA_cases, Hlook by done.
    rewrite decide_False by lia. done.
  - intros Hlt. destruct (decide (U = ∅)) as [->|HU].
    + by rewrite addUniversalActionsToDFA_empty.
    + rewrite addUniversalActionsToDFA_cases by done.
      destruct (nodes dfa !! root dfa); [|done].
      rewrite decide_True by (unfold UINT16_MAX; lia). done.
  - intros rules locs acts st Hser Hpart Hstream Hadd.
    rewrite (compileParsedRuleList_cases _ _ _ Hser), Hpart. cbn [mbind Run_bind].
    destruct Hstream as [[-> ->]|(-> & -> & d1 & Hd1)].
    + rewrite Hadd. done.
    + rewrite Hd1. cbn [mbind Run_bind]. rewrite Hadd. done.
Qed.

(** C9.  On a parsed list of rules that the serializer returns on: if the
    pattern of a rule fails to parse, reached after the rules before it
    parsed, [compileRuleList] returns [JSONInvalidRegex], the client has
    received [writeActions] and nothing else, and the rules behind do not
    matter; if no pattern fails to parse and no release assertion aborts
    the run, it returns the empty error code and [finalize] is the last
    call, made once. *)
Theorem invalid_pattern_stops_compilation (ruleJSON : String)
    (rules : list ContentExtensionRule) (locs acts : list Z) :
  parseRuleList ruleJSON = inr rules →
  serializeActions actionTypeByte is8Bit slotRank rules = Done (locs, acts) →
  (∀ pre rule post st loc,
     rules = pre ++ rule :: post →
     partitionLoop locs 0 pre (emptyPartition CombinedURLFilters emptyFilters)
       = Done (inr st) →
     locs !! length pre = Some loc →
     parseFailed (resultOf st loc rule).1 →
     compileJSON ruleJSON = Done ([writeActions acts], JSONInvalidRegex)) ∧
  ((∀ pre rule post st loc,
      rules = pre ++ rule :: post →
      partitionLoop locs 0 pre (emptyPartition CombinedURLFilters emptyFilters)
        = Done (inr st) →
      locs !! length pre = Some loc →
      ¬ parseFailed (resultOf st loc rule).1) →
   (∀ f, compileJSON ruleJSON ≠ Crash f) →
   ∃ calls, compileJSON ruleJSON = Done (calls ++ [finalize], NoError) ∧
            finalize ∉ calls).
Proof.
  intros Hparse Hser. rewrite (compileRuleList_parsed _ _ Hparse).
  rewrite (compileParsedRuleList_cases _ _ _ Hser). split.
  - intros pre rule post st loc -> Hpre Hloc Hfail.
    by rewrite (partitionRules_fails _ _ _ _ _ _ Hpre Hloc Hfail).
  - intros Hok Hnocrash.
    destruct (partitionRules_passes locs rules) as [st Hst]; [|done|].
    { by rewrite (serializeActions_length _ _ _ _ _ _ Hser). }
    rewrite Hst in Hnocrash |- *. cbn [mbind Run_bind] in Hnocrash |- *.
    destruct (addUniversalActionsToDFA (firstOf (F1 st)) (U1 st)) as [d1|f];
      [|by destruct (Hnocrash f)].
    cbn [mbind Run_bind] in Hnocrash |- *.
    destruct (addUniversalActionsToDFA (firstOf (F2 st)) (U2 st)) as [d2|f];
      [|by destruct (Hnocrash f)].
    cbn [mbind Run_bind]. unfold sinkCalls. eexists. split.
    + rewrite !app_assoc. done.
    + rewrite <- !app_assoc. apply finalize_not_before.
Qed.

Section EmptyRuleList.

(** Modelled from the spec: [CombinedURLFilters::processNFAs] and
    [DFACombiner::combineDFAs] are not under src/.  Filters that no pattern
    and no domain was added to emit no NFA (sections 6 and 8 of the
    specification: no chunk of domain conditions when no rule has a
    condition), and a combiner that no automaton was added to combines
    none (section 4.4). *)
Hypothesis processNFAs_empty : processNFAs maxNFASize emptyFilters = [].
Hypothesis combineDFAs_empty : combineDFAs smallDFASize emptyCombiner = [].

(** C6.  On the list of no rules [compileRuleList] succeeds: the action
    buffer it writes is empty, each of the two filter streams gets the
    chunk of the dummy automaton and no other, the stream of the domain
    conditions gets none, and [finalize] is called. *)
Theorem empty_rule_list_compiles (ruleJSON : String) :
  parseRuleList ruleJSON = inr [] →
  serializeActions actionTypeByte is8Bit slotRank [] = Done ([], []) ∧
  compileJSON ruleJSON
  = Done ([writeActions [];
           writeFiltersWithoutConditionsBytecode (compile emptyDFA);
           writeFiltersWithConditionsBytecode (compile emptyDFA);
           finalize], NoError).
Proof.
  intros Hparse.
  assert (Hser : serializeActions actionTypeByte is8Bit slotRank [] = Done ([], []))
    by reflexivity.
  split; [done|].
  rewrite (compileRuleList_parsed _ _ Hparse), (compileParsedRuleList_cases _ _ _ Hser).
  cbn [partitionRules mbind Run_bind mret Run_ret].
  unfold firstDFA, laterDFAs, streamDFAs, sinkCalls, emptyPartition.
  cbn [filtersWithoutConditions filtersWithConditions conditionFilters
       universalActionsWithoutConditions universalActionsWithConditions].
  rewrite processNFAs_empty. cbn [fmap list_fmap foldl]. rewrite !filter_nil.
  cbn [fmap list_fmap foldl app]. rewrite combineDFAs_empty.
  cbn [head tail default]. rewrite addUniversalActionsToDFA_empty. done.
Qed.

End EmptyRuleList.

Section UniversalActions.

(** Modelled from the spec: [URLFilterParser::addPattern] is not under
    src/.  A pattern it reports as [MatchesEverything] is not inserted
    into the filters (section 4.2 of the specification). *)
Hypothesis addPattern_universal :
  ∀ filters pattern caseSensitive word filters',
    addPattern filters pattern caseSensitive word = (MatchesEverything, filters') →
    filters' = filters.

(** C3, as amended.  For a rule whose pattern is reported
    [MatchesEverything]: the iteration of the rule leaves the filters of
    both pattern streams as they were, and adds the rule's action word,
    for each condition of the rule, to the filters of the domain
    conditions and to nothing else but the universal actions of the rule's
    stream; and when the compilation succeeds, the root of the first
    automaton lowered in that stream, the dummy when the stream has no
    automaton, holds the universal actions of the stream, the rule's word
    among them, each once, while the automata lowered after it are
    lowered as they are. *)
Theorem universal_actions_on_first_automaton (pre post : list ContentExtensionRule)
    (rule : ContentExtensionRule) (locs acts : list Z)
    (st0 : Partition CombinedURLFilters) (loc : Z) :
  serializeActions actionTypeByte is8Bit slotRank (pre ++ rule :: post) = Done (locs, acts) →
  partitionLoop locs 0 pre (emptyPartition CombinedURLFilters emptyFilters)
    = Done (inr st0) →
  locs !! length pre = Some loc →
  (resultOf st0 loc rule).1 = MatchesEverything →
  partitionStep locs st0 (length pre) rule = Done (inr (nextOf st0 loc rule)) ∧
  F1 (nextOf st0 loc rule) = F1 st0 ∧
  F2 (nextOf st0 loc rule) = F2 st0 ∧
  CF (nextOf st0 loc rule)
  = foldl (λ f condition, addDomain f (wordOf (trigger rule) loc) condition) (CF st0)
      (if decide (conditions (trigger rule) = []) then [] else conditions (trigger rule)) ∧
  ∀ calls, compileParsed (pre ++ rule :: post) = Done (calls, NoError) →
    ∃ st d1 d2,
      partitionLoop locs 0 (pre ++ rule :: post)
        (emptyPartition CombinedURLFilters emptyFilters) = Done (inr st) ∧
      addUniversalActionsToDFA (firstOf (F1 st)) (U1 st) = Done d1 ∧
      addUniversalActionsToDFA (firstOf (F2 st)) (U2 st) = Done d2 ∧
      (streamOf (F1 st) = [] → firstOf (F1 st) = emptyDFA) ∧
      (streamOf (F2 st) = [] → firstOf (F2 st) = emptyDFA) ∧
      calls = callsOf acts d1 (laterOf (F1 st)) d2 (laterOf (F2 st))
                (processNFAs maxNFASize (CF st)) ∧
      (conditions (trigger rule) = [] →
         rootActions d1 = elements (U1 st) ∧ NoDup (rootActions d1) ∧
         wordOf (trigger rule) loc ∈ rootActions d1) ∧
      (conditions (trigger rule) ≠ [] →
         rootActions d2 = elements (U2 st) ∧ NoDup (rootActions d2) ∧
         wordOf (trigger rule) loc ∈ rootActions d2).
Proof.
  intros Hser Hpre Hloc Hstatus.
  assert (Hstep : partitionStep locs st0 (length pre) rule = Done (inr (nextOf st0 loc rule))).
  { rewrite (partitionRule_cases _ _ _ _ _ Hloc). rewrite decide_False; [done|].
    rewrite Hstatus. intros [_ H]. done. }
  assert (Hsame : (resultOf st0 loc rule).2
                  = patternFilters CombinedURLFilters st0 (trigger rule)).
  { unfold patternResult in *.
    destruct (addPattern _ _ _ _) as [status filters] eqn:Hadd. simpl in Hstatus. subst status.
    by apply addPattern_universal in Hadd. }
  assert (Hin : if decide (conditions (trigger rule) = [])
                then wordOf (trigger rule) loc ∈ U1 (nextOf st0 loc rule)
                else wordOf (trigger rule) loc ∈ U2 (nextOf st0 loc rule)).
  { unfold nextPartition. destruct (resultOf st0 loc rule) as [status filters].
    simpl in Hstatus. subst status.
    destruct (decide (MatchesEverything = MatchesEverything)) as [_|Hne]; [|done].
    case_decide; cbn [universalActionsWithoutConditions universalActionsWithConditions];
      apply elem_of_union_l, elem_of_singleton; done. }
  split_and!; try done.
  - unfold nextPartition, patternFilters in *.
    destruct (resultOf st0 loc rule) as [status filters]. simpl in Hsame. subst filters.
    case_decide; done.
  - unfold nextPartition, patternFilters in *.
    destruct (resultOf st0 loc rule) as [status filters]. simpl in Hsame. subst filters.
    case_decide; done.
  - unfold nextPartition. destruct (resultOf st0 loc rule) as [status filters].
    case_decide; done.
  - intros calls Hc.
    apply compile_succeeds_inv in Hc
      as (locs' & acts' & st & d1 & d2 & Hser' & Hp & Hd1 & Hd2 & ->).
    rewrite Hser in Hser'. injection Hser' as <- <-.
    assert (Hmono : U1 (nextOf st0 loc rule) ⊆ U1 st ∧ U2 (nextOf st0 loc rule) ⊆ U2 st).
    { rewrite partitionRules_app, Hpre in Hp. cbn [mbind Run_bind partitionRules] in Hp.
      rewrite Nat.add_0_l, Hstep in Hp. cbn [mbind Run_bind] in Hp.
      by eapply partitionRules_universal_mono. }
    destruct Hmono as [Hm1 Hm2].
    exists st, d1, d2. split_and!; try done.
    + unfold firstDFA. by intros ->.
    + unfold firstDFA. by intros ->.
    + intros Hcond. rewrite decide_True in Hin by done. apply Hm1 in Hin.
      assert (HU : U1 st ≠ ∅) by (intros HU; rewrite HU in Hin; by apply not_elem_of_empty in Hin).
      destruct (addUniversalActionsToDFA_root _ _ _ HU Hd1) as (Hroot & _).
      rewrite Hroot. split_and!; [done|apply NoDup_elements|by apply elem_of_elements].
    + intros Hcond. rewrite decide_False in Hin by done. apply Hm2 in Hin.
      assert (HU : U2 st ≠ ∅) by (intros HU; rewrite HU in Hin; by apply not_elem_of_empty in Hin).
      destruct (addUniversalActionsToDFA_root _ _ _ HU Hd2) as (Hroot & _).
      rewrite Hroot. split_and!; [done|apply NoDup_elements|by apply elem_of_elements].
Qed.

End UniversalActions.

End OrchestratorFacts.

(** ** The orchestrator on the examples *)

Example ex_compile_universal :
  compileRuleListEx exUniversal [123]
  = Done ([writeActions [0; 2; 2; 0; 0; 0; 0; 46; 98; 2; 2; 0; 0; 0; 0; 46; 99;
                         2; 2; 0; 0; 0; 0; 46; 100];
           writeFiltersWithoutConditionsBytecode [3; 1; 4294967296; 9; 17; 4294967296];
           writeFiltersWithConditionsBytecode [1; 1; 140737488355329; 140737488355329];
           writeConditionedFiltersBytecode [2; 0; 140737488355329];
           finalize], NoError).
Proof. vm_compute. reflexivity. Qed.

Lemma client_calls_in_order_witness :
  exParseRuleList exUniversal [123] = inr exUniversal ∧
  ∃ calls acts w1 w2 w3,
    compileRuleListEx exUniversal [123] = Done (calls, NoError) ∧
    calls = [writeActions acts]
            ++ (writeFiltersWithoutConditionsBytecode <$> w1)
            ++ (writeFiltersWithConditionsBytecode <$> w2)
            ++ (writeConditionedFiltersBytecode <$> w3)
            ++ [finalize] ∧
    w1 ≠ [] ∧ w2 ≠ [].
Proof.
  split; [reflexivity|].
  destruct (client_calls_in_order enumActionTypeByte latin1 oneBucket
              (exParseRuleList exUniversal) exFilters [] exAddPattern exAddDomain exFilters
              exProcessNFAs exConvert exGraphSize exMinimize (list DFA) [] exAddDFA
              exCombineDFAs exCompile exEmptyDFA exIfConditionFlag
              [123] exUniversal _ eq_refl ex_compile_universal)
    as (acts & w1 & w2 & w3 & Hcalls & Hw1 & Hw2).
  eexists _, acts, w1, w2, w3. split; [exact ex_compile_universal|].
  split; [exact Hcalls|]. split; [exact Hw1|exact Hw2].
Defined.

Example ex_compile_empty :
  compileRuleListEx [] [123]
  = Done ([writeActions []; writeFiltersWithoutConditionsBytecode [1; 0];
           writeFiltersWithConditionsBytecode [1; 0]; finalize], NoError).
Proof. vm_compute. reflexivity. Qed.

Lemma filter_streams_never_empty_witness :
  exParseRuleList [] [123] = inr [] ∧
  compileRuleListEx [] [123]
  = Done ([writeActions []; writeFiltersWithoutConditionsBytecode [1; 0];
           writeFiltersWithConditionsBytecode [1; 0]; finalize], NoError) ∧
  ∃ acts d1 d2,
    addUniversalActionsToDFA exEmptyDFA ∅ = Done d1 ∧
    addUniversalActionsToDFA exEmptyDFA ∅ = Done d2 ∧
    [writeActions []; writeFiltersWithoutConditionsBytecode [1; 0];
     writeFiltersWithConditionsBytecode [1; 0]; finalize]
    = [writeActions acts]
      ++ (writeFiltersWithoutConditionsBytecode <$> [exCompile d1])
      ++ (writeFiltersWithConditionsBytecode <$> [exCompile d2])
      ++ [finalize].
Proof.
  split; [reflexivity|]. split; [exact ex_compile_empty|].
  destruct (filter_streams_never_empty enumActionTypeByte latin1 oneBucket
              (exParseRuleList []) exFilters [] exAddPattern exAddDomain exFilters
              exProcessNFAs exConvert exGraphSize exMinimize (list DFA) [] exAddDFA
              exCombineDFAs exCompile exEmptyDFA exIfConditionFlag
              [123] [] _ eq_refl ex_compile_empty)
    as (locs & acts & st & d1 & d2 & Hpart & Hd1 & Hd2 & _ & _ & Hcalls).
  injection Hpart as <-.
  exists acts, d1, d2. split; [exact Hd1|]. split; [exact Hd2|exact Hcalls].
Defined.

(** C5 fails as stated.  The compilation of no rules succeeds, and the
    client receives no chunk of domain conditions. *)
Lemma domain_stream_counterexample :
  compileRuleListEx [] [123]
  = Done ([writeActions []; writeFiltersWithoutConditionsBytecode [1; 0];
           writeFiltersWithConditionsBytecode [1; 0]; finalize], NoError) ∧
  ¬ (∀ parsed ruleJSON calls,
       compileRuleListEx parsed ruleJSON = Done (calls, NoError) →
       (∃ b, writeFiltersWithoutConditionsBytecode b ∈ calls) ∧
       (∃ b, writeFiltersWithConditionsBytecode b ∈ calls) ∧
       (∃ b, writeConditionedFiltersBytecode b ∈ calls)).
Proof.
  split; [exact ex_compile_empty|]. intros Hclaim.
  destruct (Hclaim [] [123] _ ex_compile_empty) as (_ & _ & b & Hb).
  repeat (apply elem_of_cons in Hb as [Hb|Hb]; [discriminate Hb|]). inv Hb.
Qed.

Lemma empty_rule_list_compiles_witness :
  exProcessNFAs maxNFASize [] = [] ∧
  exCombineDFAs smallDFASize [] = [] ∧
  exParseRuleList [] [123] = inr [] ∧
  compileRuleListEx [] [123]
  = Done ([writeActions [];
           writeFiltersWithoutConditionsBytecode (exCompile exEmptyDFA);
           writeFiltersWithConditionsBytecode (exCompile exEmptyDFA);
           finalize], NoError).
Proof.
  split; [reflexivity|]. split; [reflexivity|]. split; [reflexivity|].
  apply (empty_rule_list_compiles enumActionTypeByte latin1 oneBucket
           (exParseRuleList []) exFilters [] exAddPattern exAddDomain exFilters
           exProcessNFAs exConvert exGraphSize exMinimize (list DFA) [] exAddDFA
           exCombineDFAs exCompile exEmptyDFA exIfConditionFlag eq_refl eq_refl [123] eq_refl).
Defined.

Lemma exManyActions_size : Z.of_nat (size exManyActions) = UINT16_MAX.
Proof.
  unfold exManyActions. rewrite size_list_to_set by apply NoDup_seqZ.
  rewrite length_seqZ. unfold UINT16_MAX. lia.
Qed.

Lemma too_many_universal_actions_abort_witness :
  UINT16_MAX ≤ Z.of_nat (size exManyActions) ∧
  is_Some (nodes exEmptyDFA !! root exEmptyDFA) ∧
  addUniversalActionsToDFA exEmptyDFA exManyActions = Crash TooManyUniversalActions.
Proof.
  assert (Hsize : UINT16_MAX ≤ Z.of_nat (size exManyActions)).
  { rewrite exManyActions_size. apply Z.le_refl. }
  assert (Hroot : is_Some (nodes exEmptyDFA !! root exEmptyDFA)).
  { exists (mkDFANode [] 0 0). reflexivity. }
  split; [exact Hsize|]. split; [exact Hroot|].
  destruct (too_many_universal_actions_abort enumActionTypeByte latin1 oneBucket
              exFilters [] exAddPattern exAddDomain exFilters exProcessNFAs exConvert
              exGraphSize exMinimize (list DFA) [] exAddDFA exCombineDFAs exCompile
              exEmptyDFA exIfConditionFlag exEmptyDFA exManyActions)
    as (_ & Habort & _ & _).
  exact (Habort Hsize Hroot).
Defined.

Example ex_compile_invalid :
  compileRuleListEx exInvalid [123] = Done ([writeActions [0]], JSONInvalidRegex).
Proof. vm_compute. reflexivity. Qed.

Example ex_compile_block :
  compileRuleListEx [rule0 BlockLoad 0] [123]
  = Done ([writeActions [0]; writeFiltersWithoutConditionsBytecode [2; 0; 0];
           writeFiltersWithConditionsBytecode [1; 0]; finalize], NoError).
Proof. vm_compute. reflexivity. Qed.

Lemma invalid_pattern_stops_compilation_witness :
  (exParseRuleList exInvalid [123] = inr exInvalid ∧
   serializeActionsEx exInvalid = Done ([0; 0; 0], [0]) ∧
   parseFailed (exAddPattern [([97], 0)] [233] false 0).1 ∧
   compileRuleListEx exInvalid [123] = Done ([writeActions [0]], JSONInvalidRegex)) ∧
  (exParseRuleList [rule0 BlockLoad 0] [123] = inr [rule0 BlockLoad 0] ∧
   serializeActionsEx [rule0 BlockLoad 0] = Done ([0], [0]) ∧
   ¬ parseFailed (exAddPattern [] [97] false 0).1 ∧
   ∃ calls, compileRuleListEx [rule0 BlockLoad 0] [123] = Done (calls ++ [finalize], NoError) ∧
            finalize ∉ calls).
Proof.
  assert (Hfail : parseFailed (exAddPattern [([97], 0)] [233] false 0).1).
  { split; discriminate. }
  assert (Hser : serializeActionsEx exInvalid = Done ([0; 0; 0], [0]))
    by (vm_compute; reflexivity).
  assert (Hpass : ¬ parseFailed (exAddPattern [] [97] false 0).1).
  { intros [H _]. apply H. reflexivity. }
  assert (Hser' : serializeActionsEx [rule0 BlockLoad 0] = Done ([0], [0]))
    by (vm_compute; reflexivity).
  split.
  - split; [reflexivity|]. split; [exact Hser|]. split; [exact Hfail|].
    destruct (invalid_pattern_stops_compilation enumActionTypeByte latin1 oneBucket
                (exParseRuleList exInvalid) exFilters [] exAddPattern exAddDomain exFilters
                exProcessNFAs exConvert exGraphSize exMinimize (list DFA) [] exAddDFA
                exCombineDFAs exCompile exEmptyDFA exIfConditionFlag
                [123] exInvalid _ _ eq_refl Hser) as [Hstop _].
    apply (Hstop [rule0 BlockLoad 0] (ruleOn [233] 0 [] CondNone BlockLoad [])
             [rule0 BlockLoad 0] (mkPartition exFilters ∅ ∅ [([97], 0)] [] []) 0).
    + reflexivity.
    + vm_compute. reflexivity.
    + reflexivity.
    + exact Hfail.
  - split; [reflexivity|]. split; [exact Hser'|]. split; [exact Hpass|].
    destruct (invalid_pattern_stops_compilation enumActionTypeByte latin1 oneBucket
                (exParseRuleList [rule0 BlockLoad 0]) exFilters [] exAddPattern exAddDomain
                exFilters exProcessNFAs exConvert exGraphSize exMinimize (list DFA) []
                exAddDFA exCombineDFAs exCompile exEmptyDFA exIfConditionFlag
                [123] [rule0 BlockLoad 0] _ _ eq_refl Hser') as [_ Hgo].
    apply Hgo.
    + intros pre rule post st loc Heq Hpre Hloc.
      destruct pre as [|r pre].
      * simpl in Heq, Hpre, Hloc. simplify_eq. exact Hpass.
      * simpl in Heq. injection Heq as _ Heq. destruct pre; discriminate Heq.
    + intros f Hcrash.
      change (compileRuleListEx [rule0 BlockLoad 0] [123] = Crash f) in Hcrash.
      rewrite ex_compile_block in Hcrash. discriminate Hcrash.
Defined.

Lemma exAddPattern_universal (filters : exFilters) (pattern : String) (caseSensitive : bool)
    (word : Z) (filters' : exFilters) :
  exAddPattern filters pattern caseSensitive word = (MatchesEverything, filters') →
  filters' = filters.
Proof.
  unfold exAddPattern. case_decide; [by intros [= <-]|].
  destruct (forallb _ pattern); intros Hstatus; discriminate Hstatus.
Qed.

Lemma universal_actions_on_first_automaton_witness :
  serializeActionsEx [exUniversalIf] = Done ([0], [0]) ∧
  (exAddPattern [] [46; 42] false (2 ^ 47)).1 = MatchesEverything ∧
  conditionFilters exFilters
    (nextPartition exFilters exAddPattern exAddDomain exIfConditionFlag
       (emptyPartition exFilters []) 0 exUniversalIf)
  = [([97], 2 ^ 47)].
Proof.
  assert (Hser : serializeActionsEx [exUniversalIf] = Done ([0], [0]))
    by (vm_compute; reflexivity).
  assert (Hall : (exAddPattern [] [46; 42] false (2 ^ 47)).1 = MatchesEverything)
    by reflexivity.
  split; [exact Hser|]. split; [exact Hall|].
  destruct (universal_actions_on_first_automaton enumActionTypeByte latin1 oneBucket
              exFilters [] exAddPattern exAddDomain exFilters exProcessNFAs exConvert
              exGraphSize exMinimize (list DFA) [] exAddDFA exCombineDFAs exCompile
              exEmptyDFA exIfConditionFlag exAddPattern_universal
              [] [] exUniversalIf [0] [0] (emptyPartition exFilters []) 0
              Hser eq_refl eq_refl Hall)
    as (_ & _ & _ & Hdomains & _).
  exact Hdomains.
Defined.

(** C3 fails as stated.  The pattern of [exUniversalIf] matches everything
    and the rule has a condition: its action word [2^47] is added, under
    its domain, to the filters of the domain conditions, and it is in the
    chunk of their automaton, beside being on the root of the first
    automaton of the filters with conditions. *)
Lemma universal_action_counterexample :
  (exAddPattern [] [46; 42] false (2 ^ 47)).1 = MatchesEverything ∧
  partitionRulesEx [0] 0 [exUniversalIf] (emptyPartition exFilters [])
  = Done (inr (mkPartition exFilters ∅ ({[2 ^ 47]} ∪ ∅) [] [] [([97], 2 ^ 47)])) ∧
  compileRuleListEx [exUniversalIf] [123]
  = Done ([writeActions [0];
           writeFiltersWithoutConditionsBytecode [1; 0];
           writeFiltersWithConditionsBytecode [1; 1; 2 ^ 47; 2 ^ 47];
           writeConditionedFiltersBytecode [2; 0; 2 ^ 47];
           finalize], NoError).
Proof. split; [reflexivity|]. split; vm_compute; reflexivity. Qed.

(** * Further properties *)

(** ** Selector entries are self-delimiting *)

Lemma leBytes_2 (v : Z) : leBytes 2 v = [v `mod` 256; (v `div` 256) `mod` 256].
Proof.
  change (leBytes 2 v) with [Z.land (Z.shiftr v 0) 255; Z.land (Z.shiftr v 8) 255].
  change 255 with (Z.ones 8). rewrite !Z.land_ones by lia.
  rewrite Z.shiftr_0_r, Z.shiftr_div_pow2 by lia. done.
Qed.

Lemma leBytes_4 (v : Z) :
  leBytes 4 v = [v `mod` 256; (v `div` 256) `mod` 256; (v `div` 65536) `mod` 256;
                 (v `div` 16777216) `mod` 256].
Proof.
  change (leBytes 4 v) with [Z.land (Z.shiftr v 0) 255; Z.land (Z.shiftr v 8) 255;
                             Z.land (Z.shiftr v 16) 255; Z.land (Z.shiftr v 24) 255].
  change 255 with (Z.ones 8). rewrite !Z.land_ones by lia.
  rewrite Z.shiftr_0_r, !Z.shiftr_div_pow2 by lia. done.
Qed.

(** Strings of one length stored 8-bit are read back from their bytes. *)
Lemma narrow_payload_inj (s1 s2 : String) (r1 r2 : list Z) :
  length s1 = length s2 →
  Forall (λ c, 0 ≤ c < 2 ^ 8) s1 → Forall (λ c, 0 ≤ c < 2 ^ 8) s2 →
  ((λ c, Z.land c 255) <$> s1) ++ r1 = ((λ c, Z.land c 255) <$> s2) ++ r2 →
  s1 = s2 ∧ r1 = r2.
Proof.
  revert s2. induction s1 as [|c1 s1 IH]; intros [|c2 s2] Hlen H1 H2; try discriminate Hlen.
  - simpl. done.
  - inv H1. inv H2. rewrite !fmap_cons. cbn [app]. intros [= Hc Hrest].
    destruct (IH s2) as [-> ->]; [simpl in Hlen; lia|done|done|done|].
    split; [|done]. f_equal. revert Hc.
    change 255 with (Z.ones 8). rewrite !Z.land_ones by lia.
    change (2 ^ 8) with 256 in *. rewrite !Z.mod_small by lia. done.
Qed.

(** So are strings of one length stored 16-bit. *)
Lemma wide_payload_inj (s1 s2 : String) (r1 r2 : list Z) :
  length s1 = length s2 →
  Forall (λ c, 0 ≤ c < 2 ^ 16) s1 → Forall (λ c, 0 ≤ c < 2 ^ 16) s2 →
  mjoin (leBytes 2 <$> s1) ++ r1 = mjoin (leBytes 2 <$> s2) ++ r2 →
  s1 = s2 ∧ r1 = r2.
Proof.
  revert s2. induction s1 as [|c1 s1 IH]; intros [|c2 s2] Hlen H1 H2; try discriminate Hlen.
  - simpl. done.
  - inv H1. inv H2. rewrite !fmap_cons. cbn [mjoin list_join]. rewrite !leBytes_2. cbn [app].
    intros [= Hlo Hhi Hrest].
    destruct (IH s2) as [-> ->]; [simpl in Hlen; lia|done|done|done|].
    split; [|done]. f_equal.
    change (2 ^ 16) with 65536 in *. Z.div_mod_to_equations. lia.
Qed.

Section SelectorEntries.

Variable actionTypeByte : ActionType → Z.
Variable is8Bit : String → bool.

(** X1: [serializeSelector] writes a self-delimiting entry.  Two
    selectors serialized behind the same buffer, whatever bytes follow them,
    give the same bytes only if they are the same selector followed by the
    same bytes: the length field and the width flag tell where the selector
    ends, and no two selectors have the same entry. *)
Theorem serializeSelector_self_delimiting (actions : list Z) (s1 s2 : String)
    (r1 r2 : list Z) :
  fitsStorage is8Bit s1 → fitsStorage is8Bit s2 →
  serializeSelector actionTypeByte is8Bit actions s1 ++ r1
  = serializeSelector actionTypeByte is8Bit actions s2 ++ r2 →
  s1 = s2 ∧ r1 = r2.
Proof.
  intros [Hlen1 Hc1] [Hlen2 Hc2]. unfold serializeSelector.
  assert (Hhead : ∀ (b1 b2 : bool) (p1 p2 : list Z),
            (((actions ++ [actionTypeByte CSSDisplayNoneSelector])
                ++ leBytes 4 (Z.of_nat (length s1))) ++ [Z.b2z b1]) ++ p1
            = (((actions ++ [actionTypeByte CSSDisplayNoneSelector])
                  ++ leBytes 4 (Z.of_nat (length s2))) ++ [Z.b2z b2]) ++ p2 →
            length s1 = length s2 ∧ b1 = b2 ∧ p1 = p2).
  { intros b1 b2 p1 p2. rewrite <- !app_assoc. intros H%app_inv_head.
    rewrite !leBytes_4 in H. cbn [app] in H. injection H as H0 H1 H2 H3 Hb ->.
    split; [|split; [by destruct b1, b2|done]].
    change (2 ^ 32) with 4294967296 in *.
    apply Nat2Z.inj. Z.div_mod_to_equations. lia. }
  destruct (is8Bit s1) eqn:H81, (is8Bit s2) eqn:H82; cbn [negb];
    rewrite <- !(app_assoc _ _ r1), <- !(app_assoc _ _ r2);
    intros (Hlen & Hb & Hp)%Hhead; try discriminate Hb.
  - by apply narrow_payload_inj in Hp.
  - by apply wide_payload_inj in Hp.
Qed.

End SelectorEntries.

Lemma serializeSelector_self_delimiting_witness :
  fitsStorage latin1 [46; 97] ∧
  ([46; 97] = [46; 97] :> String) ∧ ([4; 0] = [4; 0] :> list Z).
Proof.
  assert (Hs : fitsStorage latin1 [46; 97]).
  { apply (bool_decide_unpack _). vm_compute. exact I. }
  split; [exact Hs|].
  exact (serializeSelector_self_delimiting enumActionTypeByte latin1 [0] [46; 97] [46; 97]
           [4; 0] [4; 0] Hs Hs eq_refl).
Defined.

(** ** When the serializer aborts *)

Section SerializerAborts.

Variable actionTypeByte : ActionType → Z.
Variable is8Bit : String → bool.
Variable slotRank : list Trigger → Trigger → nat.

Local Abbreviation step := (serializeRule actionTypeByte is8Bit slotRank).
Local Abbreviation serialize := (serializeActions actionTypeByte is8Bit slotRank).

(** A rule the serializer has no case for aborts its iteration. *)
Lemma step_not_reached (st : SerializerState) (rule : ContentExtensionRule) :
  wfState st → ¬ serializable rule → step st rule = Crash NotReached.
Proof.
  intros Hwf Hns. unfold serializeRule.
  destruct (clearMaps_total actionTypeByte is8Bit slotRank st (type (action rule)))
    as [st1 ->]; [apply Hwf|].
  cbn [mbind Run_bind]. unfold pushAction, serializable in *.
  destruct (decide (conditions (trigger rule) ≠ [])) as [Hc|Hc]; [by destruct Hns; left|].
  destruct (type (action rule)); try done; destruct Hns; right; done.
Qed.

Lemma run_outcome (st : SerializerState) (rules : list ContentExtensionRule) :
  wfState st →
  if decide (Forall serializable rules)
  then ∃ st', foldlM step st rules = Done st'
  else foldlM step st rules = Crash NotReached.
Proof.
  intros Hwf. case_decide as Hs; [by apply run_total|].
  revert st Hwf. induction rules as [|rule rules IH]; intros st Hwf; [by destruct Hs|].
  cbn [foldlM]. destruct (decide (serializable rule)) as [Hr|Hr].
  - destruct (step_total actionTypeByte is8Bit slotRank st rule Hwf Hr) as [st1 Hstep].
    rewrite Hstep. cbn [mbind Run_bind]. apply IH.
    + intros Hrest. apply Hs. by constructor.
    + by eapply step_wf.
  - by rewrite step_not_reached.
Qed.

(** X2: [serializeActions] aborts on exactly the lists that hold a rule with
    no conditions whose action type is [CSSDisplayNoneStyleSheet] or
    [InvalidAction], and the abort is the [RELEASE_ASSERT_NOT_REACHED] of
    the switch: no write of a location ever leaves the vector. *)
Theorem serializeActions_aborts_iff (rules : list ContentExtensionRule) (f : Fatal) :
  serialize rules = Crash f ↔
  f = NotReached ∧
  ∃ rule, rule ∈ rules ∧ conditions (trigger rule) = [] ∧
          (type (action rule) = CSSDisplayNoneStyleSheet ∨
           type (action rule) = InvalidAction).
Proof.
  pose proof (run_outcome initialState rules initialState_wf) as Hrun.
  assert (Hbad : ¬ Forall serializable rules ↔
                 ∃ rule, rule ∈ rules ∧ conditions (trigger rule) = [] ∧
                         (type (action rule) = CSSDisplayNoneStyleSheet ∨
                          type (action rule) = InvalidAction)).
  { rewrite <- Exists_Forall_neg by (intros r; destruct (decide (serializable r)); auto).
    rewrite Exists_exists.
    apply exist_proper. intros rule. unfold serializable. split.
    - intros [Hin Hns]. split; [done|].
      destruct (decide (conditions (trigger rule) = [])) as [Hc|Hc]; [|by destruct Hns; left].
      split; [done|]. destruct (type (action rule)); auto; destruct Hns; right; done.
    - intros (Hin & Hc & HT). split; [done|]. intros [Hc'|[H1 H2]]; [done|].
      by destruct HT. }
  rewrite <- Hbad. unfold serializeActions.
  case_decide as Hs.
  - destruct Hrun as [st Hrun]. rewrite Hrun. cbn [mbind Run_bind].
    rewrite (resolvePending_Done actionTypeByte is8Bit slotRank)
      by apply (run_wf _ _ _ _ _ _ initialState_wf Hrun).
    destruct (foldl _ _ _). split; [discriminate|]. intros [_ Hns]. done.
  - rewrite Hrun. cbn [mbind Run_bind]. split; [|intros [-> _]; done].
    intros [= <-]. done.
Qed.

End SerializerAborts.

(** ** What lies at the location of a rule *)

Lemma entryAt_head (buf : list Z) (l : Z) (b : Z) (entry : list Z) :
  entryAt buf l (b :: entry) → 0 ≤ l ∧ buf !! Z.to_nat l = Some b.
Proof.
  intros (before & after & -> & <-). split; [lia|].
  rewrite Nat2Z.id, lookup_app_r, Nat.sub_diag by lia. done.
Qed.

Section SerializerEntries.

Variable actionTypeByte : ActionType → Z.
Variable is8Bit : String → bool.
Variable slotRank : list Trigger → Trigger → nat.

Local Abbreviation entryOf := (selectorEntry actionTypeByte is8Bit).
Local Abbreviation step := (serializeRule actionTypeByte is8Bit slotRank).
Local Abbreviation serialize := (serializeActions actionTypeByte is8Bit slotRank).
Local Abbreviation tagged := (mapsTagged actionTypeByte).

Lemma selectorEntry_cons (s : String) :
  ∃ rest, entryOf s = actionTypeByte CSSDisplayNoneSelector :: rest.
Proof. unfold selectorEntry, serializeSelector. destruct (negb _); simpl; eauto. Qed.

Lemma clearEffect_tagged (st st' : SerializerState) (T : ActionType) :
  clearEffect actionTypeByte is8Bit slotRank st T st' → tagged st → tagged st'.
Proof.
  intros Heff Ht T' f l. pose proof (clearEffect_extends _ _ _ _ _ _ Heff) as ([ext ->] & _).
  destruct Heff as [_ _ _ Hmaps | _ _ _ _ Hmaps]; rewrite Hmaps;
    case_decide as HT'; try (by rewrite lookup_empty); intros Hl; apply entryAt_app.
  - subst T'. exact (Ht IgnorePreviousRules f l Hl).
  - exact (Ht _ _ _ Hl).
Qed.

Lemma pushEffect_tagged (st st' : SerializerState) (rule : ContentExtensionRule) :
  pushEffect actionTypeByte is8Bit st rule st' → tagged st → tagged st'.
Proof.
  intros Heff Ht T f l.
  destruct Heff as [Hc Hacts Hlocs Hcss Hmaps | Hc HT Hacts Hlocs Hcss Hmaps
                   | l' Hc HT Hget Hacts Hlocs Hcss Hmaps | Hc HT Hget Hacts Hlocs Hcss Hmaps];
    rewrite Hmaps, Hacts; try (intros Hl; exact (Ht _ _ _ Hl));
    try (intros Hl; apply entryAt_app; exact (Ht _ _ _ Hl)).
  case_decide as HT'; [|intros Hl; apply entryAt_app; exact (Ht _ _ _ Hl)].
  intros [[_ <-]|[_ Hl]]%lookup_insert_Some.
  - subst T. apply entryAt_here.
  - apply entryAt_app. exact (Ht _ _ _ Hl).
Qed.

Lemma initialState_tagged : tagged initialState.
Proof. intros T f l. destruct T; simpl; rewrite lookup_empty; done. Qed.

Lemma step_tagged (st st' : SerializerState) (rule : ContentExtensionRule) :
  wfState st → tagged st → step st rule = Done st' → tagged st'.
Proof.
  intros Hwf Ht Hstep.
  destruct (step_effect _ _ _ _ _ _ Hwf Hstep) as (st1 & Hc & _ & Hp & _).
  eapply pushEffect_tagged; [done|]. by eapply clearEffect_tagged.
Qed.

Lemma run_tagged (st st' : SerializerState) (rules : list ContentExtensionRule) :
  wfState st → tagged st → foldlM step st rules = Done st' → tagged st'.
Proof.
  revert st. induction rules as [|rule rules IH]; intros st Hwf Ht; simpl.
  - intros [= <-]. done.
  - intros (st1 & Hstep & Hrun)%bind_Done.
    eapply IH; [by eapply step_wf|by eapply step_tagged|done].
Qed.

(** The location of a rule with no conditions whose type has a map is the
    offset of a byte that is the rule's action type. *)
Lemma dedup_entry (A B : list ContentExtensionRule) (r : ContentExtensionRule)
    (locs acts : list Z) :
  serialize (A ++ r :: B) = Done (locs, acts) →
  conditions (trigger r) = [] → dedupType (type (action r)) →
  ∃ l, locs !! length A = Some l ∧ entryAt acts l [actionTypeByte (type (action r))].
Proof.
  intros Hser Hc HT.
  apply serializeActions_inv in Hser as (sE & s4 & Hrun & HwfE & Hflush & Hwf4 & <- & <-).
  apply foldlM_Done_app in Hrun as (sA & HrunA & Hrun).
  apply foldlM_Done_cons in Hrun as (sI & Hstep & HrunB).
  pose proof (run_wf _ _ _ _ _ _ initialState_wf HrunA) as HwfA.
  pose proof (step_wf _ _ _ _ _ _ HwfA Hstep) as HwfI.
  pose proof (run_length _ _ _ _ _ _ initialState_wf HrunA) as HlenA. simpl in HlenA.
  pose proof (run_tagged _ _ _ initialState_wf initialState_tagged HrunA) as HtA.
  pose proof (step_tagged _ _ _ HwfA HtA Hstep) as HtI.
  destruct (step_dedup _ _ _ _ _ _ HwfA Hstep Hc HT) as (l & Hmap & Hloc & Hnp & _).
  rewrite HlenA in Hloc, Hnp.
  assert (Hext : extends sI s4).
  { eapply extends_trans; [by eapply run_extends|by eapply clearEffect_extends]. }
  exists l. split.
  - destruct Hext as (_ & _ & Hst). destruct (Hst (length A)) as [-> _]; try done.
    by eapply lookup_lt_Some.
  - eapply extends_entryAt; [done|]. exact (HtI _ _ _ Hmap).
Qed.

(** The entry at the location of a selector rule with no conditions holds
    the rule's selector among those it joins. *)
Lemma pending_entry (rules : list ContentExtensionRule) (locs acts : list Z) (i : nat)
    (rule : ContentExtensionRule) :
  serialize rules = Done (locs, acts) → rules !! i = Some rule →
  pendingFor (trigger rule) rule →
  ∃ l sels, locs !! i = Some l ∧ stringArgument (action rule) ∈ sels ∧
            entryAt acts l (entryOf (joinComma sels)).
Proof.
  intros Hser Hi Hpf.
  destruct (segment_around rules i rule Hi) as (pre & seg & post & k & -> & Hseg & -> & Hk).
  { destruct Hpf as (_ & HT & _). unfold isIgnore. rewrite HT. done. }
  assert (Hin : rule ∈ filter (pendingFor (trigger rule)) seg).
  { apply list_elem_of_filter. split; [done|]. by eapply list_elem_of_lookup_2. }
  destruct (segment_group actionTypeByte is8Bit slotRank pre seg post locs acts
              (trigger rule) Hseg Hser) as (L & Hentry & Hlocs).
  { intros Hnil. rewrite Hnil in Hin. inv Hin. }
  exists L, (groupSelectors (trigger rule) seg). split_and!; [by eapply Hlocs| |done].
  unfold groupSelectors. apply list_elem_of_fmap. eauto.
Qed.

(** Every rule is, to the serializer, of one of three kinds. *)
Lemma rule_kinds (rules : list ContentExtensionRule) (res : list Z * list Z)
    (rule : ContentExtensionRule) :
  serialize rules = Done res → rule ∈ rules →
  conditions (trigger rule) ≠ [] ∨
  pendingFor (trigger rule) rule ∨
  (conditions (trigger rule) = [] ∧ dedupType (type (action rule))).
Proof.
  intros Hser Hin. apply serializeActions_serializable in Hser.
  rewrite Forall_forall in Hser. specialize (Hser rule Hin).
  destruct (decide (conditions (trigger rule) = [])) as [Hc|Hc]; [|by left].
  right. destruct Hser as [Hc'|[H1 H2]]; [done|]. unfold pendingFor, dedupType.
  destruct (type (action rule)); auto 10; done.
Qed.

(** The byte at the location of a rule is the rule's action type. *)
Lemma location_tag (rules : list ContentExtensionRule) (locs acts : list Z) (i : nat)
    (rule : ContentExtensionRule) :
  serialize rules = Done (locs, acts) → rules !! i = Some rule →
  ∃ l, locs !! i = Some l ∧ 0 ≤ l ∧
       acts !! Z.to_nat l = Some (actionTypeByte (type (action rule))).
Proof.
  intros Hser Hi.
  destruct (rule_kinds rules _ rule Hser) as [Hc|[Hpf|[Hc HT]]];
    [by eapply list_elem_of_lookup_2|..].
  - apply list_elem_of_split_length in Hi as (A & B & -> & ->).
    destruct (conditioned_alone _ _ _ _ _ _ _ _ Hser Hc) as (l & Hl & Hentry & _).
    exists l. split; [done|]. unfold ownEntry in Hentry. case_decide as HT.
    + rewrite HT. destruct (selectorEntry_cons (stringArgument (action rule))) as [rest Hrest].
      rewrite Hrest in Hentry. by eapply entryAt_head.
    + by eapply entryAt_head.
  - destruct (pending_entry _ _ _ _ _ Hser Hi Hpf) as (l & sels & Hl & _ & Hentry).
    exists l. split; [done|]. destruct Hpf as (_ & -> & _).
    destruct (selectorEntry_cons (joinComma sels)) as [rest Hrest].
    rewrite Hrest in Hentry. by eapply entryAt_head.
  - apply list_elem_of_split_length in Hi as (A & B & -> & ->).
    destruct (dedup_entry _ _ _ _ _ Hser Hc HT) as (l & Hl & Hentry).
    exists l. split; [done|]. by eapply entryAt_head.
Qed.

(** X3: the location [serializeActions] gives a rule is the offset of an
    entry for the rule's own action: a selector entry whose string joins
    selectors among which is the rule's, for a selector rule, and the byte
    of the rule's action type for any other rule. *)
Theorem location_holds_own_action (rules : list ContentExtensionRule) (locs acts : list Z)
    (i : nat) (rule : ContentExtensionRule) :
  serialize rules = Done (locs, acts) → rules !! i = Some rule →
  ∃ l, locs !! i = Some l ∧
       if decide (type (action rule) = CSSDisplayNoneSelector)
       then ∃ sels, stringArgument (action rule) ∈ sels ∧
                    entryAt acts l (entryOf (joinComma sels))
       else entryAt acts l [actionTypeByte (type (action rule))].
Proof.
  intros Hser Hi.
  destruct (rule_kinds rules _ rule Hser) as [Hc|[Hpf|[Hc HT]]];
    [by eapply list_elem_of_lookup_2|..].
  - apply list_elem_of_split_length in Hi as (A & B & -> & ->).
    destruct (conditioned_alone _ _ _ _ _ _ _ _ Hser Hc) as (l & Hl & Hentry & _).
    exists l. split; [done|]. unfold ownEntry in Hentry. case_decide as HT; [|done].
    exists [stringArgument (action rule)]. split; [apply list_elem_of_here|done].
  - destruct (pending_entry _ _ _ _ _ Hser Hi Hpf) as (l & sels & Hl & Hin & Hentry).
    exists l. split; [done|]. destruct Hpf as (_ & HT & _). rewrite decide_True by done.
    eauto.
  - apply list_elem_of_split_length in Hi as (A & B & -> & ->).
    destruct (dedup_entry _ _ _ _ _ Hser Hc HT) as (l & Hl & Hentry).
    exists l. split; [done|]. rewrite decide_False; [done|].
    intros HT'. rewrite HT' in HT. destruct HT as [?|[?|[?|?]]]; discriminate.
Qed.

(** X4: two rules whose action types are serialized as different bytes are
    never given the same location, whatever their flags, triggers and
    conditions. *)
Theorem action_types_never_share (rules : list ContentExtensionRule) (locs acts : list Z)
    (i j : nat) (ri rj : ContentExtensionRule) :
  serialize rules = Done (locs, acts) →
  rules !! i = Some ri → rules !! j = Some rj →
  actionTypeByte (type (action ri)) ≠ actionTypeByte (type (action rj)) →
  locs !! i ≠ locs !! j.
Proof.
  intros Hser Hi Hj Hne Heq.
  destruct (location_tag _ _ _ _ _ Hser Hi) as (li & Hli & _ & Hbi).
  destruct (location_tag _ _ _ _ _ Hser Hj) as (lj & Hlj & _ & Hbj).
  rewrite Hli, Hlj in Heq. injection Heq as ->. congruence.
Qed.

End SerializerEntries.

Lemma location_holds_own_action_witness :
  serializeActionsEx exMixed
    = Done ([0; 8; 9; 10; 27; 11; 19],
            [2; 2; 0; 0; 0; 0; 46; 97; 4; 0; 4;
             2; 2; 0; 0; 0; 0; 46; 99; 2; 2; 0; 0; 0; 0; 46; 100;
             2; 2; 0; 0; 0; 0; 46; 98]) ∧
  ∃ l, [0; 8; 9; 10; 27; 11; 19] !! 2%nat = Some l ∧
       entryAt [2; 2; 0; 0; 0; 0; 46; 97; 4; 0; 4;
                2; 2; 0; 0; 0; 0; 46; 99; 2; 2; 0; 0; 0; 0; 46; 100;
                2; 2; 0; 0; 0; 0; 46; 98] l [0].
Proof.
  assert (H : serializeActionsEx exMixed
              = Done ([0; 8; 9; 10; 27; 11; 19],
                      [2; 2; 0; 0; 0; 0; 46; 97; 4; 0; 4;
                       2; 2; 0; 0; 0; 0; 46; 99; 2; 2; 0; 0; 0; 0; 46; 100;
                       2; 2; 0; 0; 0; 0; 46; 98]))
    by (vm_compute; reflexivity).
  split; [exact H|].
  exact (location_holds_own_action enumActionTypeByte latin1 oneBucket exMixed _ _ 2%nat
           (rule0 BlockLoad 0) H eq_refl).
Defined.

Lemma action_types_never_share_witness :
  serializeActionsEx exBlockIgnoreBlock = Done ([0; 1; 2], [0; 4; 0]) ∧
  [0; 1; 2] !! 0%nat ≠ ([0; 1; 2] : list Z) !! 1%nat.
Proof.
  assert (H : serializeActionsEx exBlockIgnoreBlock = Done ([0; 1; 2], [0; 4; 0]))
    by (vm_compute; reflexivity).
  split; [exact H|].
  apply (action_types_never_share enumActionTypeByte latin1 oneBucket exBlockIgnoreBlock
           _ _ 0%nat 1%nat (rule0 BlockLoad 0) (rule0 IgnorePreviousRules 0) H eq_refl eq_refl).
  discriminate.
Defined.

(** ** The layout of the action buffer *)

Lemma entryOffset_app (entries more : list (list Z)) (k : nat) :
  (k ≤ length entries)%nat → entryOffset (entries ++ more) k = entryOffset entries k.
Proof. intros Hk. unfold entryOffset. by rewrite take_app_le. Qed.

Lemma entryOffset_length (entries more : list (list Z)) :
  entryOffset (entries ++ more) (length entries) = Z.of_nat (length (mjoin entries)).
Proof. unfold entryOffset. by rewrite take_app_length. Qed.

Lemma isOffset_app (entries more : list (list Z)) (l : Z) :
  isOffset entries l → isOffset (entries ++ more) l.
Proof.
  intros (k & Hk & ->). exists k. rewrite length_app. split; [lia|].
  rewrite entryOffset_app by lia. done.
Qed.

Lemma isOffset_new (entries more : list (list Z)) (entry : list Z) :
  isOffset (entries ++ entry :: more) (Z.of_nat (length (mjoin entries))).
Proof.
  exists (length entries). rewrite length_app. simpl. split; [lia|].
  by rewrite entryOffset_length.
Qed.

Lemma hashMapUpdate_Forall (Q : Trigger * PendingDisplayNoneActions → Prop) (t : Trigger)
    (f : PendingDisplayNoneActions → PendingDisplayNoneActions)
    (m : PendingDisplayNoneActionsMap) :
  (∀ k v, Q (k, f v)) → Forall Q m → Forall Q (hashMapUpdate t f m).
Proof.
  intros Hf. induction m as [|[k v] m IH]; intros Hm; [done|].
  inv Hm. cbn [hashMapUpdate]. destruct (decide (k = t)); constructor; auto.
Qed.

Lemma hashMapUpdate_last (t : Trigger)
    (f : PendingDisplayNoneActions → PendingDisplayNoneActions)
    (m : PendingDisplayNoneActionsMap) (v : PendingDisplayNoneActions) :
  t ∉ m.*1 → hashMapUpdate t f (m ++ [(t, v)]) = m ++ [(t, f v)].
Proof.
  induction m as [|[k v'] m IH]; intros Hnin; simpl.
  - by rewrite decide_True.
  - rewrite fmap_cons in Hnin. apply not_elem_of_cons in Hnin as [Hne Hnin].
    rewrite decide_False by done. by rewrite IH.
Qed.

Lemma addPending_nonempty (t : Trigger) (selector : String) (c : nat)
    (m : PendingDisplayNoneActionsMap) :
  Forall (λ slot, clientLocations slot.2 ≠ []) m →
  Forall (λ slot, clientLocations slot.2 ≠ []) (addPending t selector c m).
Proof.
  intros Hm. unfold addPending, hashMapAdd. destruct (decide (t ∈ m.*1)) as [Hin|Hnin].
  - apply hashMapUpdate_Forall; [|done]. intros k v. simpl. by destruct (clientLocations v).
  - rewrite hashMapUpdate_last by done. apply Forall_app. split; [done|].
    apply Forall_singleton. simpl. discriminate.
Qed.

Lemma addPending_length (t : Trigger) (selector : String) (c : nat)
    (m : PendingDisplayNoneActionsMap) :
  (length (addPending t selector c m) ≤ S (length m))%nat.
Proof.
  unfold addPending.
  rewrite <- (length_fmap fst (hashMapUpdate _ _ _)), hashMapUpdate_keys, length_fmap.
  unfold hashMapAdd. case_decide; [lia|]. rewrite length_app. simpl. lia.
Qed.

Section SerializerLayout.

Variable actionTypeByte : ActionType → Z.
Variable is8Bit : String → bool.
Variable slotRank : list Trigger → Trigger → nat.

Local Abbreviation entryOf := (selectorEntry actionTypeByte is8Bit).
Local Abbreviation resolvePure := (resolveSlotPure actionTypeByte is8Bit).
Local Abbreviation step := (serializeRule actionTypeByte is8Bit slotRank).
Local Abbreviation serialize := (serializeActions actionTypeByte is8Bit slotRank).
Local Abbreviation laidOut := (layout actionTypeByte is8Bit).
Local Abbreviation groupEntry :=
  (λ slot : Trigger * PendingDisplayNoneActions, entryOf (joinComma (selectors slot.2))).

(** A flush lays the entries of the groups behind those of the buffer, in
    the order of the slots, and gives the members of a group the offset of
    the group's entry. *)
Lemma flush_layout (slots : PendingDisplayNoneActionsMap) (entries : list (list Z))
    (locs : list Z) :
  NoDup (pendingIndices slots) →
  Forall (λ c, (c < length locs)%nat) (pendingIndices slots) →
  (foldl resolvePure (mjoin entries, locs) slots).1
  = mjoin (entries ++ (groupEntry <$> slots)) ∧
  ∀ j slot c, slots !! j = Some slot → c ∈ clientLocations slot.2 →
    (foldl resolvePure (mjoin entries, locs) slots).2 !! c
    = Some (entryOffset (entries ++ (groupEntry <$> slots)) (length entries + j)).
Proof.
  revert entries locs. induction slots as [|s0 slots IH]; intros entries locs Hnd Hlt.
  - simpl. rewrite app_nil_r. split; [done|]. intros j slot c Hj. done.
  - unfold pendingIndices in Hnd, Hlt. rewrite bind_cons in Hnd, Hlt.
    apply NoDup_app in Hnd as (Hnd0 & Hdisj & Hnd).
    apply Forall_app in Hlt as [Hlt0 Hlt].
    cbn [foldl]. unfold resolveSlotPure at 2 4. cbn [fst snd].
    rewrite serializeSelector_app, combineSelectors_joinComma.
    replace (mjoin entries ++ entryOf (joinComma (selectors s0.2)))
      with (mjoin (entries ++ [groupEntry s0])) by (rewrite join_app; simpl; by rewrite app_nil_r).
    destruct (IH (entries ++ [groupEntry s0])
                (assign locs (clientLocations s0.2) (Z.of_nat (length (mjoin entries)))))
      as [Hbuf Hlocs]; [done|by rewrite assign_length|].
    rewrite fmap_cons.
    replace (entries ++ groupEntry s0 :: (groupEntry <$> slots))
      with ((entries ++ [groupEntry s0]) ++ (groupEntry <$> slots))
      by (by rewrite <- app_assoc).
    split; [done|]. intros j slot c Hj Hc. destruct j as [|j].
    + injection Hj as <-.
      rewrite resolvePure_lookup_other by (by apply Hdisj).
      cbn [snd]. rewrite assign_lookup_written; [|done|].
      * rewrite Nat.add_0_r. rewrite <- app_assoc. by rewrite entryOffset_length.
      * rewrite Forall_forall in Hlt0. by apply Hlt0.
    + rewrite (Hlocs j slot c Hj Hc). f_equal. f_equal. rewrite length_app. simpl. lia.
Qed.

Lemma clearEffect_layout (st st' : SerializerState) (T : ActionType)
    (entries : list (list Z)) :
  wfState st → laidOut st entries →
  clearEffect actionTypeByte is8Bit slotRank st T st' →
  ∃ entries', laidOut st' entries'.
Proof.
  intros Hwf Hl Heff. pose proof (clearEffect_length _ _ _ _ _ _ Heff) as Hlen.
  destruct Heff as [-> Hres Hcss Hmaps | Hne Hacts Hlocs Hcss Hmaps].
  - set (slots := slotOrder slotRank (cssDisplayNoneActionsMap st)) in *.
    assert (Hperm : slots ≡ₚ cssDisplayNoneActionsMap st) by apply slotOrder_Permutation.
    assert (Hpi : pendingIndices slots ≡ₚ pendingIndices (cssDisplayNoneActionsMap st))
      by apply pendingIndices_slotOrder.
    rewrite (layout_buffer _ _ _ _ Hl) in Hres.
    destruct (flush_layout slots entries (actionLocations st)) as [Hbuf Hnew].
    { rewrite Hpi. apply Hwf. }
    { rewrite Hpi. apply Hwf. }
    rewrite <- Hres in Hbuf, Hnew. cbn [fst snd] in Hbuf, Hnew.
    assert (Hold : ∀ i, i ∉ pendingIndices (cssDisplayNoneActionsMap st) →
                        actionLocations st' !! i = actionLocations st !! i).
    { intros i Hi. change (actionLocations st') with ((actions st', actionLocations st').2).
      rewrite Hres. apply resolvePure_lookup_other. by rewrite Hpi. }
    exists (entries ++ (groupEntry <$> slots)). split; rewrite ?Hcss.
    + done.
    + apply Forall_app. split; [apply Hl|]. apply Forall_fmap, Forall_true.
      intros slot. right. eauto.
    + rewrite length_app, length_fmap, Hperm, Hlen. simpl.
      pose proof (layout_count _ _ _ _ Hl). lia.
    + constructor.
    + intros i l _ Hi.
      destruct (decide (i ∈ pendingIndices (cssDisplayNoneActionsMap st))) as [Hin|Hnin].
      * rewrite <- Hpi in Hin. apply list_elem_of_bind in Hin as (slot & Hc & Hslot).
        apply list_elem_of_lookup in Hslot as [j Hj].
        rewrite (Hnew j slot i Hj Hc) in Hi. injection Hi as <-.
        exists (length entries + j)%nat. split; [|done].
        rewrite length_app, length_fmap. apply lookup_lt_Some in Hj. lia.
      * rewrite Hold in Hi by done. by eapply isOffset_app, layout_locs.
    + intros T f l. rewrite Hmaps. case_decide; [|by rewrite lookup_empty].
      intros Hf. eapply isOffset_app, (layout_maps _ _ _ _ Hl IgnorePreviousRules). done.
    + intros k Hk. rewrite length_app, length_fmap in Hk.
      destruct (decide (k < length entries)%nat) as [Hlt|Hge].
      * destruct (layout_used _ _ _ _ Hl k Hlt) as (i & Hnin & Hi).
        exists i. split; [apply not_elem_of_nil|].
        rewrite Hold, entryOffset_app by (done || lia). done.
      * destruct (lookup_lt_is_Some_2 slots (k - length entries)%nat) as [slot Hj]; [lia|].
        assert (Hne : clientLocations slot.2 ≠ []).
        { pose proof (layout_groups _ _ _ _ Hl) as Hg. rewrite <- Hperm in Hg.
          rewrite Forall_forall in Hg. apply Hg. by eapply list_elem_of_lookup_2. }
        destruct (clientLocations slot.2) as [|c cs] eqn:Hcs; [done|].
        exists c. split; [apply not_elem_of_nil|].
        rewrite (Hnew _ slot c Hj) by (rewrite Hcs; apply list_elem_of_here).
        do 2 f_equal. lia.
  - exists entries. split; rewrite ?Hcss, ?Hlocs, ?Hacts; try apply Hl.
    intros T' f l. rewrite Hmaps. case_decide; [by rewrite lookup_empty|]. apply Hl.
Qed.

Lemma ownEntry_isEntry (rule : ContentExtensionRule) :
  isEntry actionTypeByte is8Bit (ownEntry actionTypeByte is8Bit rule).
Proof. unfold ownEntry. case_decide; [right|left]; eauto. Qed.

Lemma pushEffect_layout (st st' : SerializerState) (rule : ContentExtensionRule)
    (entries : list (list Z)) :
  wfState st → laidOut st entries →
  pushEffect actionTypeByte is8Bit st rule st' →
  ∃ entries', laidOut st' entries'.
Proof.
  intros Hwf Hl Heff.
  assert (Hnew : length (actionLocations st) ∉ pendingIndices (cssDisplayNoneActionsMap st)).
  { intros Hin. pose proof (wf_range st Hwf) as Hr. rewrite Forall_forall in Hr.
    apply Hr in Hin. lia. }
  (* an entry is appended, and the new position holds its offset *)
  assert (Happend : ∀ entry,
            isEntry actionTypeByte is8Bit entry →
            actions st' = actions st ++ entry →
            actionLocations st' = actionLocations st ++ [Z.of_nat (length (actions st))] →
            cssDisplayNoneActionsMap st' = cssDisplayNoneActionsMap st →
            (∀ T f l, dedupMap T st' !! f = Some l →
                      dedupMap T st !! f = Some l ∨ l = Z.of_nat (length (actions st))) →
            laidOut st' (entries ++ [entry])).
  { intros entry He Hacts Hlocs Hcss Hmaps.
    pose proof (layout_buffer _ _ _ _ Hl) as Hbuf.
    split; rewrite ?Hcss, ?Hlocs, ?Hacts.
    - rewrite join_app, Hbuf. simpl. by rewrite app_nil_r.
    - apply Forall_app. split; [apply Hl|by apply Forall_singleton].
    - rewrite !length_app. simpl. pose proof (layout_count _ _ _ _ Hl). lia.
    - apply Hl.
    - intros i l Hnin [Hi|[_ Hi]]%lookup_app_Some.
      + by eapply isOffset_app, layout_locs.
      + apply list_lookup_singleton_Some in Hi as [_ <-]. rewrite Hbuf. apply isOffset_new.
    - intros T f l Hf. apply Hmaps in Hf as [Hf| ->].
      + by eapply isOffset_app, layout_maps.
      + rewrite Hbuf. apply isOffset_new.
    - intros k Hk. rewrite length_app in Hk. simpl in Hk.
      destruct (decide (k < length entries)%nat) as [Hlt|Hge].
      + destruct (layout_used _ _ _ _ Hl k Hlt) as (i & Hnin & Hi).
        exists i. split; [done|]. rewrite entryOffset_app by lia.
        apply lookup_app_l_Some. done.
      + assert (k = length entries) as -> by lia. exists (length (actionLocations st)).
        split; [done|]. rewrite entryOffset_length, <- Hbuf.
        rewrite lookup_app_r, Nat.sub_diag by lia. done. }
  destruct Heff as [Hc Hacts Hlocs Hcss Hmaps | Hc HT Hacts Hlocs Hcss Hmaps
                   | l Hc HT Hget Hacts Hlocs Hcss Hmaps | Hc HT Hget Hacts Hlocs Hcss Hmaps].
  - exists (entries ++ [ownEntry actionTypeByte is8Bit rule]).
    apply Happend; try done; [apply ownEntry_isEntry|].
    intros T f l. rewrite Hmaps. auto.
  - exists entries. split; rewrite ?Hcss, ?Hlocs, ?Hacts.
    + apply Hl.
    + apply Hl.
    + rewrite length_app. simpl. pose proof (layout_count _ _ _ _ Hl).
      pose proof (addPending_length (trigger rule) (stringArgument (action rule))
                    (length (actionLocations st)) (cssDisplayNoneActionsMap st)). lia.
    + apply addPending_nonempty, Hl.
    + intros i l. rewrite pendingIndices_addPending.
      intros [Hnin Hne]%not_elem_of_app [Hi|[Hge Hi]]%lookup_app_Some.
      * by eapply layout_locs.
      * apply list_lookup_singleton_Some in Hi as [Hi _]. destruct Hne.
        apply list_elem_of_singleton. lia.
    + intros T f l. rewrite Hmaps. apply Hl.
    + intros k Hk. destruct (layout_used _ _ _ _ Hl k Hk) as (i & Hnin & Hi).
      exists i. split; [|by apply lookup_app_l_Some].
      rewrite pendingIndices_addPending. apply not_elem_of_app. split; [done|].
      apply lookup_lt_Some in Hi. intros ->%list_elem_of_singleton. lia.
  - exists entries. split; rewrite ?Hcss, ?Hlocs, ?Hacts; try apply Hl.
    + rewrite length_app. simpl. pose proof (layout_count _ _ _ _ Hl). lia.
    + intros i l0 Hnin [Hi|[_ Hi]]%lookup_app_Some.
      * by eapply layout_locs.
      * apply list_lookup_singleton_Some in Hi as [_ <-]. by eapply layout_maps.
    + intros T f l0. rewrite Hmaps. apply Hl.
    + intros k Hk. destruct (layout_used _ _ _ _ Hl k Hk) as (i & Hnin & Hi).
      exists i. split; [done|by apply lookup_app_l_Some].
  - exists (entries ++ [[actionTypeByte (type (action rule))]]).
    apply Happend; try done.
    + left. exists (type (action rule)). split; [|done].
      intros HT'. rewrite HT' in HT. destruct HT as [?|[?|[?|?]]]; discriminate.
    + intros T f l. rewrite Hmaps. case_decide; [|auto].
      intros [[_ <-]|[_ Hf]]%lookup_insert_Some; auto.
Qed.

Lemma initialState_layout : laidOut initialState [].
Proof.
  split; simpl.
  - done.
  - constructor.
  - lia.
  - constructor.
  - intros i l _ Hi. done.
  - intros T f l. destruct T; simpl; by rewrite lookup_empty.
  - intros k Hk. lia.
Qed.

Lemma step_layout (st st' : SerializerState) (rule : ContentExtensionRule) :
  wfState st ∧ (∃ entries, laidOut st entries) → step st rule = Done st' →
  wfState st' ∧ (∃ entries, laidOut st' entries).
Proof.
  intros [Hwf [entries Hl]] Hstep.
  destruct (step_effect _ _ _ _ _ _ Hwf Hstep) as (st1 & Hc & Hwf1 & Hp & Hwf').
  split; [done|].
  destruct (clearEffect_layout _ _ _ _ Hwf Hl Hc) as [entries1 Hl1].
  exact (pushEffect_layout _ _ _ _ Hwf1 Hl1 Hp).
Qed.

(** X5: the action buffer [serializeActions] returns is a sequence of whole
    entries, each the byte of an action type or a serialized selector, with
    nothing between them; every location it returns is the offset of one
    of these entries, every entry is the location of some rule, and there
    are no more entries than rules. *)
Theorem action_buffer_layout (rules : list ContentExtensionRule) (locs acts : list Z) :
  serialize rules = Done (locs, acts) →
  ∃ entries,
    acts = mjoin entries ∧
    Forall (isEntry actionTypeByte is8Bit) entries ∧
    (length entries ≤ length rules)%nat ∧
    (∀ i l, locs !! i = Some l →
       ∃ k, (k < length entries)%nat ∧ l = entryOffset entries k) ∧
    (∀ k, (k < length entries)%nat →
       ∃ i, (i < length rules)%nat ∧ locs !! i = Some (entryOffset entries k)).
Proof.
  intros Hser. pose proof (serializeActions_length _ _ _ _ _ _ Hser) as Hlen.
  apply serializeActions_inv in Hser as (sE & s4 & Hrun & HwfE & Hflush & Hwf4 & <- & <-).
  destruct (foldlM_invariant (λ st, wfState st ∧ ∃ entries, laidOut st entries) step rules
              (λ st rule st', step_layout st st' rule) initialState sE)
    as [_ [entriesE HlE]];
    [split; [apply initialState_wf|exists []; apply initialState_layout]|done|].
  destruct (clearEffect_layout _ _ _ _ HwfE HlE Hflush) as [entries Hl].
  assert (Hcss : cssDisplayNoneActionsMap s4 = []).
  { destruct Hflush as [_ _ Hcss _ | Hne _ _ _ _]; done. }
  exists entries. split_and!.
  - apply Hl.
  - apply Hl.
  - pose proof (layout_count _ _ _ _ Hl) as Hc. rewrite Hcss in Hc. simpl in Hc. lia.
  - intros i l Hi. eapply (layout_locs _ _ _ _ Hl i l); [|done].
    rewrite Hcss. apply not_elem_of_nil.
  - intros k Hk. destruct (layout_used _ _ _ _ Hl k Hk) as (i & _ & Hi).
    exists i. split; [|done]. apply lookup_lt_Some in Hi. lia.
Qed.

End SerializerLayout.

Lemma action_buffer_layout_witness :
  serializeActionsEx exShared
    = Done ([0; 1; 0; 1], [0; 2; 5; 0; 0; 0; 0; 46; 97; 44; 46; 98]) ∧
  ∃ entries : list (list Z),
    [0; 2; 5; 0; 0; 0; 0; 46; 97; 44; 46; 98] = mjoin entries ∧
    (length entries ≤ length exShared)%nat.
Proof.
  assert (H : serializeActionsEx exShared
              = Done ([0; 1; 0; 1], [0; 2; 5; 0; 0; 0; 0; 46; 97; 44; 46; 98]))
    by (vm_compute; reflexivity).
  split; [exact H|].
  destruct (action_buffer_layout enumActionTypeByte latin1 oneBucket exShared _ _ H)
    as (entries & Hbuf & _ & Hlen & _).
  exists entries. split; [exact Hbuf|exact Hlen].
Defined.

(** ** Rules appended to a list *)

Lemma isOffset_entryAt (entries : list (list Z)) (l : Z) :
  isOffset entries l → ∃ entry, entry ∈ entries ∧ entryAt (mjoin entries) l entry.
Proof.
  intros (k & Hk & ->). destruct (lookup_lt_is_Some_2 entries k Hk) as [entry He].
  exists entry. split; [by eapply list_elem_of_lookup_2|].
  exists (mjoin (take k entries)), (mjoin (drop (S k) entries)). split; [|done].
  rewrite <- (take_drop_middle entries k entry He) at 1.
  rewrite join_app. done.
Qed.

Section SerializerAppend.

Variable actionTypeByte : ActionType → Z.
Variable is8Bit : String → bool.
Variable slotRank : list Trigger → Trigger → nat.

Local Abbreviation step := (serializeRule actionTypeByte is8Bit slotRank).
Local Abbreviation serialize := (serializeActions actionTypeByte is8Bit slotRank).

(** A settled action does not wait in a group when the loop ends. *)
Lemma settled_not_pending (A : list ContentExtensionRule) (sA : SerializerState) (i : nat)
    (rule : ContentExtensionRule) :
  foldlM step initialState A = Done sA → A !! i = Some rule → settledRule A i rule →
  i ∉ pendingIndices (cssDisplayNoneActionsMap sA).
Proof.
  intros Hrun Hi [Hnp|(j & rk & Hij & Hj & Hig)].
  - apply list_elem_of_split_length in Hi as (A1 & A2 & -> & ->).
    apply foldlM_Done_app in Hrun as (s1 & Hrun1 & Hrun).
    apply foldlM_Done_cons in Hrun as (s2 & Hstep & Hrun2).
    pose proof (run_wf _ _ _ _ _ _ initialState_wf Hrun1) as Hwf1.
    pose proof (step_wf _ _ _ _ _ _ Hwf1 Hstep) as Hwf2.
    pose proof (run_length _ _ _ _ _ _ initialState_wf Hrun1) as Hlen1. simpl in Hlen1.
    pose proof (step_length _ _ _ _ _ _ Hwf1 Hstep) as Hlen2.
    destruct (step_effect _ _ _ _ _ _ Hwf1 Hstep) as (st1 & Hc & Hwfc & Hp & _).
    pose proof (clearEffect_length _ _ _ _ _ _ Hc) as Hlenc.
    assert (Hnin : length A1 ∉ pendingIndices (cssDisplayNoneActionsMap s2)).
    { assert (Hcss : cssDisplayNoneActionsMap s2 = cssDisplayNoneActionsMap st1).
      { destruct Hp as [Hc' _ _ Hcss _ | Hc' HT _ _ _ _ | l Hc' _ _ _ _ Hcss _
                       | Hc' _ _ _ _ Hcss _]; try done.
        destruct Hnp. done. }
      rewrite Hcss. intros Hin. pose proof (wf_range st1 Hwfc) as Hr.
      rewrite Forall_forall in Hr. apply Hr in Hin. lia. }
    destruct (run_extends _ _ _ _ _ _ Hwf2 Hrun2) as (_ & _ & Hst).
    destruct (Hst (length A1)) as [_ Hn]; [lia|done|done].
  - apply list_elem_of_split_length in Hj as (A1 & A2 & -> & ->).
    apply foldlM_Done_app in Hrun as (s1 & Hrun1 & Hrun).
    apply foldlM_Done_cons in Hrun as (s2 & Hstep & Hrun2).
    pose proof (run_wf _ _ _ _ _ _ initialState_wf Hrun1) as Hwf1.
    pose proof (step_wf _ _ _ _ _ _ Hwf1 Hstep) as Hwf2.
    pose proof (run_length _ _ _ _ _ _ initialState_wf Hrun1) as Hlen1. simpl in Hlen1.
    pose proof (step_length _ _ _ _ _ _ Hwf1 Hstep) as Hlen2.
    pose proof (step_ignore_css _ _ _ _ _ _ Hwf1 Hig Hstep) as Hcss.
    destruct (run_extends _ _ _ _ _ _ Hwf2 Hrun2) as (_ & _ & Hst).
    destruct (Hst i) as [_ Hn]; [lia| |done].
    rewrite Hcss. apply not_elem_of_nil.
Qed.

(** X6: rules appended to a list leave every settled action of the list
    where it was: the two action buffers start with the same bytes, and a
    rule of the list whose action is settled has in both results the same
    location, the offset of a whole entry in that common part. *)
Theorem appended_rules_keep_settled_actions (A B : list ContentExtensionRule)
    (locsA actsA locs acts : list Z) :
  serialize A = Done (locsA, actsA) →
  serialize (A ++ B) = Done (locs, acts) →
  ∃ common,
    (∃ ext, actsA = common ++ ext) ∧ (∃ ext, acts = common ++ ext) ∧
    ∀ i rule, A !! i = Some rule → settledRule A i rule →
      ∃ l entry, locsA !! i = Some l ∧ locs !! i = Some l ∧
                 isEntry actionTypeByte is8Bit entry ∧ entryAt common l entry.
Proof.
  intros HserA Hser.
  apply serializeActions_inv in HserA as (sA & s4A & HrunA & HwfA & HflushA & _ & <- & <-).
  apply serializeActions_inv in Hser as (sE & s4 & Hrun & HwfE & Hflush & _ & <- & <-).
  apply foldlM_Done_app in Hrun as (sA' & HrunA' & HrunB).
  rewrite HrunA in HrunA'. injection HrunA' as <-.
  assert (HextA : extends sA s4A) by (by eapply clearEffect_extends).
  assert (Hext : extends sA s4).
  { eapply extends_trans; [by eapply run_extends|by eapply clearEffect_extends]. }
  destruct (foldlM_invariant (λ st, wfState st ∧ ∃ entries, layout actionTypeByte is8Bit st entries)
              step A (λ st rule st', step_layout actionTypeByte is8Bit slotRank st st' rule)
              initialState sA) as [_ [entries Hl]];
    [split; [apply initialState_wf|exists []; apply initialState_layout]|done|].
  exists (actions sA). split_and!; [apply HextA|apply Hext|].
  intros i rule Hi Hs.
  pose proof (settled_not_pending A sA i rule HrunA Hi Hs) as Hnin.
  assert (Hlt : (i < length (actionLocations sA))%nat).
  { rewrite (run_length _ _ _ _ _ _ initialState_wf HrunA). simpl.
    by eapply lookup_lt_Some. }
  destruct (wf_resolved sA HwfA i Hlt Hnin) as (l & Hloc & _).
  destruct (isOffset_entryAt entries l) as (entry & Hin & Hentry);
    [by eapply layout_locs|].
  exists l, entry. split_and!.
  - destruct HextA as (_ & _ & Hst). destruct (Hst i Hlt Hnin) as [-> _]. done.
  - destruct Hext as (_ & _ & Hst). destruct (Hst i Hlt Hnin) as [-> _]. done.
  - pose proof (layout_entries _ _ _ _ Hl) as He. rewrite Forall_forall in He. by apply He.
  - by rewrite (layout_buffer _ _ _ _ Hl).
Qed.

End SerializerAppend.

Lemma appended_rules_keep_settled_actions_witness :
  serializeActionsEx [rule0 BlockLoad 0] = Done ([0], [0]) ∧
  serializeActionsEx ([rule0 BlockLoad 0] ++ [rule0 IgnorePreviousRules 0; rule0 BlockLoad 0])
    = Done ([0; 1; 2], [0; 4; 0]) ∧
  ∃ common : list Z, (∃ ext, [0] = common ++ ext) ∧ (∃ ext, [0; 4; 0] = common ++ ext).
Proof.
  assert (HA : serializeActionsEx [rule0 BlockLoad 0] = Done ([0], [0]))
    by (vm_compute; reflexivity).
  assert (HB : serializeActionsEx
                 ([rule0 BlockLoad 0] ++ [rule0 IgnorePreviousRules 0; rule0 BlockLoad 0])
               = Done ([0; 1; 2], [0; 4; 0]))
    by (vm_compute; reflexivity).
  split; [exact HA|]. split; [exact HB|].
  destruct (appended_rules_keep_settled_actions enumActionTypeByte latin1 oneBucket
              _ _ _ _ _ _ HA HB) as (common & H1 & H2 & _).
  exists common. split; [exact H1|exact H2].
Defined.

(** ** The bounds of a flush *)

Lemma foldlM_vectorSet_overflow (locs : list Z) (cs : list nat) (l : Z) :
  ¬ Forall (λ c, (c < length locs)%nat) cs →
  foldlM (λ locs c, vectorSet locs c l) locs cs = Crash VectorOverflow.
Proof.
  revert locs. induction cs as [|c cs IH]; intros locs Hcs; [by destruct Hcs|].
  cbn [foldlM]. destruct (decide (c < length locs)%nat) as [Hc|Hc].
  - rewrite vectorSet_Done by done. cbn [mbind Run_bind]. apply IH.
    intros Hrest. apply Hcs. constructor; [done|].
    eapply Forall_impl; [done|]. intros c'. by rewrite length_insert.
  - unfold vectorSet. by rewrite decide_False.
Qed.

Section FlushBounds.

Variable actionTypeByte : ActionType → Z.
Variable is8Bit : String → bool.
Variable slotRank : list Trigger → Trigger → nat.

Local Abbreviation resolvePure := (resolveSlotPure actionTypeByte is8Bit).
Local Abbreviation resolvePending :=
  (resolvePendingDisplayNoneActions actionTypeByte is8Bit slotRank).

Lemma foldlM_resolveSlot_overflow (acts locs : list Z) (slots : PendingDisplayNoneActionsMap) :
  ¬ Forall (λ c, (c < length locs)%nat) (pendingIndices slots) →
  foldlM (resolveSlot actionTypeByte is8Bit) (acts, locs) slots = Crash VectorOverflow.
Proof.
  revert acts locs. induction slots as [|slot slots IH]; intros acts locs Hcs;
    [by destruct Hcs|].
  unfold pendingIndices in Hcs. rewrite bind_cons in Hcs. cbn [foldlM].
  destruct (decide (Forall (λ c, (c < length locs)%nat) (clientLocations slot.2))) as [H0|H0].
  - rewrite resolveSlot_Done by done. cbn [mbind Run_bind].
    unfold resolveSlotPure at 1. cbn [fst snd]. apply IH.
    rewrite assign_length. intros Hrest. apply Hcs. by apply Forall_app.
  - unfold resolveSlot. rewrite foldlM_vectorSet_overflow by done. done.
Qed.

(** X7: [resolvePendingDisplayNoneActions] returns exactly when every client
    location of the map is a position of the location vector, and aborts
    on the vector's bounds check otherwise; when it returns, the vector has
    kept its length and every position that is no client location its
    value, the buffer has grown at its end, and nothing is appended for
    the map of no groups. *)
Theorem resolvePendingDisplayNoneActions_bounds (acts locs : list Z)
    (m : PendingDisplayNoneActionsMap) :
  if decide (Forall (λ c, (c < length locs)%nat) (pendingIndices m))
  then ∃ acts' locs',
         resolvePending acts locs m = Done (acts', locs') ∧
         length locs' = length locs ∧
         (∃ ext, acts' = acts ++ ext) ∧
         (∀ i, i ∉ pendingIndices m → locs' !! i = locs !! i) ∧
         (m = [] → acts' = acts)
  else resolvePending acts locs m = Crash VectorOverflow.
Proof.
  case_decide as Hr.
  - rewrite (resolvePending_Done actionTypeByte is8Bit slotRank) by done.
    destruct (foldl resolvePure (acts, locs) (slotOrder slotRank m)) as [acts' locs'] eqn:Hres.
    exists acts', locs'. split_and!.
    + done.
    + change locs' with (acts', locs').2. rewrite <- Hres. apply resolvePure_length.
    + change acts' with (acts', locs').1. rewrite <- Hres.
      apply (resolvePure_prefix actionTypeByte is8Bit (acts, locs)).
    + intros i Hi. change locs' with (acts', locs').2. rewrite <- Hres.
      apply (resolvePure_lookup_other actionTypeByte is8Bit (acts, locs)).
      by rewrite pendingIndices_slotOrder.
    + intros ->. by injection Hres.
  - unfold resolvePendingDisplayNoneActions. apply foldlM_resolveSlot_overflow.
    by rewrite pendingIndices_slotOrder.
Qed.

End FlushBounds.

(** ** The order of the slots *)

Section HashOrder.

Variable actionTypeByte : ActionType → Z.
Variable is8Bit : String → bool.
Variable slotRank1 slotRank2 : list Trigger → Trigger → nat.

Local Abbreviation entryOf := (selectorEntry actionTypeByte is8Bit).
Local Abbreviation resolvePure := (resolveSlotPure actionTypeByte is8Bit).
Local Abbreviation step1 := (serializeRule actionTypeByte is8Bit slotRank1).
Local Abbreviation step2 := (serializeRule actionTypeByte is8Bit slotRank2).
Local Abbreviation serialize1 := (serializeActions actionTypeByte is8Bit slotRank1).
Local Abbreviation serialize2 := (serializeActions actionTypeByte is8Bit slotRank2).

(** The bytes a flush appends are the entries of the slots, in the order
    of the visit. *)
Lemma flush_buffer (st : list Z * list Z) (slots : PendingDisplayNoneActionsMap) :
  (foldl resolvePure st slots).1
  = st.1 ++ mjoin ((λ slot, entryOf (joinComma (selectors slot.2))) <$> slots).
Proof.
  revert st. induction slots as [|slot slots IH]; intros st.
  - simpl. by rewrite app_nil_r.
  - cbn [foldl]. rewrite IH. unfold resolveSlotPure. cbn [fst].
    rewrite serializeSelector_app, combineSelectors_joinComma, fmap_cons.
    cbn [mjoin list_join]. by rewrite <- app_assoc.
Qed.

Lemma clearEffect_same (rules : list ContentExtensionRule) (s1 s2 c1 c2 : SerializerState)
    (T : ActionType) :
  sameButSlots rules s1 s2 →
  clearEffect actionTypeByte is8Bit slotRank1 s1 T c1 →
  clearEffect actionTypeByte is8Bit slotRank2 s2 T c2 →
  sameButSlots rules c1 c2.
Proof.
  intros (Hacts & Hlen & Hcss & Hmaps & Hpend & Hlocs) Heff1 Heff2.
  pose proof (clearEffect_length _ _ _ _ _ _ Heff1) as Hlen1.
  pose proof (clearEffect_length _ _ _ _ _ _ Heff2) as Hlen2.
  destruct Heff1 as [HT1 Hres1 Hcss1 Hmaps1 | HT1 Hacts1 Hlocs1 Hcss1 Hmaps1];
    destruct Heff2 as [HT2 Hres2 Hcss2 Hmaps2 | HT2 Hacts2 Hlocs2 Hcss2 Hmaps2];
    try done.
  - split_and!.
    + change (actions c1) with ((actions c1, actionLocations c1).1).
      change (actions c2) with ((actions c2, actionLocations c2).1).
      rewrite Hres1, Hres2, !flush_buffer. cbn [fst]. rewrite <- Hcss.
      rewrite !slotOrder_Permutation. by rewrite Hacts.
    + lia.
    + by rewrite Hcss1, Hcss2.
    + intros T'. rewrite Hmaps1, Hmaps2. case_decide; [|done].
      apply (Hmaps IgnorePreviousRules).
    + intros i. rewrite Hcss1. intros Hi. inv Hi.
    + intros i rule Hi Hnp.
      assert (Hnin : i ∉ pendingIndices (cssDisplayNoneActionsMap s1)).
      { intros (rule' & Hi' & Hpf)%Hpend. rewrite Hi in Hi'. injection Hi' as <-. done. }
      change (actionLocations c1) with ((actions c1, actionLocations c1).2).
      change (actionLocations c2) with ((actions c2, actionLocations c2).2).
      rewrite Hres1, Hres2.
      rewrite !resolvePure_lookup_other by (rewrite pendingIndices_slotOrder; congruence).
      by eapply Hlocs.
  - split_and!.
    + by rewrite Hacts1, Hacts2.
    + lia.
    + by rewrite Hcss1, Hcss2.
    + intros T'. rewrite Hmaps1, Hmaps2. case_decide; [done|apply Hmaps].
    + intros i. rewrite Hcss1. apply Hpend.
    + intros i rule Hi Hnp. rewrite Hlocs1, Hlocs2. by eapply Hlocs.
Qed.

Lemma pushEffect_same (rules : list ContentExtensionRule) (c1 c2 s1 s2 : SerializerState)
    (rule : ContentExtensionRule) :
  sameButSlots rules c1 c2 → length (actionLocations c1) = length rules →
  pushEffect actionTypeByte is8Bit c1 rule s1 →
  pushEffect actionTypeByte is8Bit c2 rule s2 →
  sameButSlots (rules ++ [rule]) s1 s2.
Proof.
  intros (Hacts & Hlen & Hcss & Hmaps & Hpend & Hlocs) Hrules Heff1 Heff2.
  pose proof (Permutation_length Hacts) as Hsize.
  (* the positions of the rules before *)
  assert (Hold : ∀ v1 v2 i r,
            (rules ++ [rule]) !! i = Some r → ¬ pendingFor (trigger r) r →
            (¬ pendingFor (trigger rule) rule → v1 = v2) →
            (actionLocations c1 ++ [v1]) !! i = (actionLocations c2 ++ [v2]) !! i).
  { intros v1 v2 i r [Hi|[Hge Hi]]%lookup_app_Some Hnp Hv.
    - pose proof (lookup_lt_Some _ _ _ Hi) as Hlt.
      rewrite !lookup_app_l by lia. by eapply Hlocs.
    - apply list_lookup_singleton_Some in Hi as [Hi <-].
      rewrite !lookup_app_r by lia.
      replace (i - length (actionLocations c1))%nat with 0%nat by lia.
      replace (i - length (actionLocations c2))%nat with 0%nat by lia.
      simpl. f_equal. by apply Hv. }
  assert (Hkeep : ∀ i, i ∈ pendingIndices (cssDisplayNoneActionsMap c1) →
            ∃ r, (rules ++ [rule]) !! i = Some r ∧ pendingFor (trigger r) r).
  { intros i (r & Hi & Hpf)%Hpend. exists r. split; [|done]. by apply lookup_app_l_Some. }
  assert (Hsel : dedupType (type (action rule)) →
                 type (action rule) = CSSDisplayNoneSelector → False).
  { intros [H|[H|[H|H]]] H'; rewrite H' in H; discriminate. }
  destruct Heff1 as [Hc1 Hacts1 Hlocs1 Hcss1 Hmaps1 | Hc1 HT1 Hacts1 Hlocs1 Hcss1 Hmaps1
                    | l1 Hc1 HT1 Hget1 Hacts1 Hlocs1 Hcss1 Hmaps1
                    | Hc1 HT1 Hget1 Hacts1 Hlocs1 Hcss1 Hmaps1];
    destruct Heff2 as [Hc2 Hacts2 Hlocs2 Hcss2 Hmaps2 | Hc2 HT2 Hacts2 Hlocs2 Hcss2 Hmaps2
                      | l2 Hc2 HT2 Hget2 Hacts2 Hlocs2 Hcss2 Hmaps2
                      | Hc2 HT2 Hget2 Hacts2 Hlocs2 Hcss2 Hmaps2];
    try done; try (exfalso; by eauto);
    try (rewrite Hmaps in Hget1; congruence).
  - (* a rule with conditions *)
    split_and!.
    + by rewrite Hacts1, Hacts2, Hacts.
    + rewrite Hlocs1, Hlocs2, !length_app. simpl. lia.
    + by rewrite Hcss1, Hcss2.
    + intros T. by rewrite Hmaps1, Hmaps2.
    + rewrite Hcss1. apply Hkeep.
    + intros i r Hi Hnp. rewrite Hlocs1, Hlocs2. eapply Hold; [done|done|]. intros _. lia.
  - (* a selector that joins a group *)
    split_and!.
    + by rewrite Hacts1, Hacts2.
    + rewrite Hlocs1, Hlocs2, !length_app. simpl. lia.
    + by rewrite Hcss1, Hcss2, Hcss, Hlen.
    + intros T. by rewrite Hmaps1, Hmaps2.
    + intros i. rewrite Hcss1, pendingIndices_addPending.
      intros [Hi|Hi]%elem_of_app; [by apply Hkeep|].
      apply list_elem_of_singleton in Hi as ->. exists rule. split; [|done].
      rewrite Hrules, lookup_app_r, Nat.sub_diag by lia. done.
    + intros i r Hi Hnp. rewrite Hlocs1, Hlocs2. eapply Hold; [done|done|].
      intros Hn. destruct Hn. done.
  - (* an action found in its map *)
    assert (l1 = l2) as <- by (rewrite Hmaps in Hget1; congruence).
    split_and!.
    + by rewrite Hacts1, Hacts2.
    + rewrite Hlocs1, Hlocs2, !length_app. simpl. lia.
    + by rewrite Hcss1, Hcss2.
    + intros T. by rewrite Hmaps1, Hmaps2.
    + rewrite Hcss1. apply Hkeep.
    + intros i r Hi Hnp. rewrite Hlocs1, Hlocs2. by eapply Hold.
  - (* an action new to its map *)
    split_and!.
    + by rewrite Hacts1, Hacts2, Hacts.
    + rewrite Hlocs1, Hlocs2, !length_app. simpl. lia.
    + by rewrite Hcss1, Hcss2.
    + intros T. rewrite Hmaps1, Hmaps2, Hmaps, Hsize. done.
    + rewrite Hcss1. apply Hkeep.
    + intros i r Hi Hnp. rewrite Hlocs1, Hlocs2. eapply Hold; [done|done|]. intros _. lia.
Qed.

Lemma run_same (rules done : list ContentExtensionRule) (s1 s2 s1' s2' : SerializerState) :
  wfState s1 → wfState s2 →
  sameButSlots done s1 s2 → length (actionLocations s1) = length done →
  foldlM step1 s1 rules = Done s1' → foldlM step2 s2 rules = Done s2' →
  sameButSlots (done ++ rules) s1' s2'.
Proof.
  revert done s1 s2. induction rules as [|rule rules IH]; intros done s1 s2 Hwf1 Hwf2 Hsame Hlen.
  - simpl. intros [= <-] [= <-]. by rewrite app_nil_r.
  - intros (m1 & Hstep1 & Hrun1)%foldlM_Done_cons (m2 & Hstep2 & Hrun2)%foldlM_Done_cons.
    destruct (step_effect _ _ _ _ _ _ Hwf1 Hstep1) as (c1 & Hc1 & _ & Hp1 & Hwfm1).
    destruct (step_effect _ _ _ _ _ _ Hwf2 Hstep2) as (c2 & Hc2 & _ & Hp2 & Hwfm2).
    pose proof (clearEffect_same _ _ _ _ _ _ Hsame Hc1 Hc2) as Hsamec.
    pose proof (clearEffect_length _ _ _ _ _ _ Hc1) as Hlenc.
    assert (Hsamem : sameButSlots (done ++ [rule]) m1 m2).
    { eapply pushEffect_same; [done| |done|done]. lia. }
    replace (done ++ rule :: rules) with ((done ++ [rule]) ++ rules)
      by (by rewrite <- app_assoc).
    eapply (IH (done ++ [rule]) m1 m2); try done.
    rewrite (pushEffect_length _ _ _ _ _ Hp1), length_app. simpl. lia.
Qed.

Lemma initialState_same : sameButSlots [] initialState initialState.
Proof. split_and!; try done. intros i Hi. inv Hi. Qed.

(** X15: the order in which the hash table of the pending groups is
    visited decides nothing but where the selector entries of a flush lie.
    With another order [serializeActions] returns on the same lists; the
    two buffers hold the same bytes, in another order; every rule that is
    no selector rule with no conditions has the same location; and the
    location of a selector rule with no conditions is, in each buffer, the
    offset of the same entry. *)
Theorem hash_order_moves_only_selector_entries (rules : list ContentExtensionRule)
    (locs1 acts1 : list Z) :
  serialize1 rules = Done (locs1, acts1) →
  ∃ locs2 acts2,
    serialize2 rules = Done (locs2, acts2) ∧
    acts1 ≡ₚ acts2 ∧
    length locs1 = length locs2 ∧
    (∀ i rule, rules !! i = Some rule → ¬ pendingFor (trigger rule) rule →
       locs1 !! i = locs2 !! i) ∧
    (∀ i rule, rules !! i = Some rule → pendingFor (trigger rule) rule →
       ∃ l1 l2 sels,
         locs1 !! i = Some l1 ∧ locs2 !! i = Some l2 ∧
         stringArgument (action rule) ∈ sels ∧
         entryAt acts1 l1 (entryOf (joinComma sels)) ∧
         entryAt acts2 l2 (entryOf (joinComma sels))).
Proof.
  intros Hser1.
  pose proof (serializeActions_serializable _ _ _ _ _ Hser1) as Hs.
  destruct (serializeActions_total actionTypeByte is8Bit slotRank2 rules Hs)
    as (locs2 & acts2 & Hser2).
  exists locs2, acts2. split; [done|].
  pose proof Hser1 as Hinv1. pose proof Hser2 as Hinv2.
  apply serializeActions_inv in Hinv1 as (e1 & f1 & Hrun1 & Hwf1 & Hflush1 & _ & <- & <-).
  apply serializeActions_inv in Hinv2 as (e2 & f2 & Hrun2 & Hwf2 & Hflush2 & _ & <- & <-).
  pose proof (run_same rules [] _ _ _ _ initialState_wf initialState_wf initialState_same
                eq_refl Hrun1 Hrun2) as Hsame.
  rewrite app_nil_l in Hsame.
  destruct (clearEffect_same _ _ _ _ _ _ Hsame Hflush1 Hflush2)
    as (Hacts & Hlen & _ & _ & _ & Hlocs).
  split_and!; try done.
  intros i rule Hi Hpf.
  destruct (segment_around rules i rule Hi) as (pre & seg & post & k & -> & Hseg & -> & Hk).
  { destruct Hpf as (_ & HT & _). unfold isIgnore. rewrite HT. done. }
  assert (Hin : rule ∈ filter (pendingFor (trigger rule)) seg).
  { apply list_elem_of_filter. split; [done|]. by eapply list_elem_of_lookup_2. }
  assert (Hne : filter (pendingFor (trigger rule)) seg ≠ []).
  { intros Hnil. rewrite Hnil in Hin. inv Hin. }
  destruct (segment_group actionTypeByte is8Bit slotRank1 pre seg post _ _
              (trigger rule) Hseg Hser1 Hne) as (L1 & Hentry1 & Hlocs1).
  destruct (segment_group actionTypeByte is8Bit slotRank2 pre seg post _ _
              (trigger rule) Hseg Hser2 Hne) as (L2 & Hentry2 & Hlocs2).
  exists L1, L2, (groupSelectors (trigger rule) seg). split_and!; try done.
  - by eapply Hlocs1.
  - by eapply Hlocs2.
  - unfold groupSelectors. apply list_elem_of_fmap. eauto.
Qed.

End HashOrder.

Lemma hash_order_moves_only_selector_entries_witness :
  serializeActionsEx exTwoGroups
    = Done ([0; 8], [2; 2; 0; 0; 0; 0; 46; 97; 2; 2; 0; 0; 0; 0; 46; 98]) ∧
  serializeActions enumActionTypeByte latin1 byFilterLength exTwoGroups
    = Done ([8; 0], [2; 2; 0; 0; 0; 0; 46; 98; 2; 2; 0; 0; 0; 0; 46; 97]) ∧
  ∃ locs2 acts2,
    serializeActions enumActionTypeByte latin1 byFilterLength exTwoGroups
      = Done (locs2, acts2) ∧
    [2; 2; 0; 0; 0; 0; 46; 97; 2; 2; 0; 0; 0; 0; 46; 98] ≡ₚ acts2.
Proof.
  assert (H : serializeActionsEx exTwoGroups
              = Done ([0; 8], [2; 2; 0; 0; 0; 0; 46; 97; 2; 2; 0; 0; 0; 0; 46; 98]))
    by (vm_compute; reflexivity).
  split; [exact H|]. split; [vm_compute; reflexivity|].
  destruct (hash_order_moves_only_selector_entries enumActionTypeByte latin1 oneBucket
              byFilterLength exTwoGroups _ _ H)
    as (locs2 & acts2 & Hser2 & Hperm & _).
  exists locs2, acts2. split; [exact Hser2|exact Hperm].
Defined.

(** ** Lists of rules with conditions *)

Section SerializerCompose.

Variable actionTypeByte : ActionType → Z.
Variable is8Bit : String → bool.
Variable slotRank : list Trigger → Trigger → nat.

Local Abbreviation step := (serializeRule actionTypeByte is8Bit slotRank).
Local Abbreviation serialize := (serializeActions actionTypeByte is8Bit slotRank).
Local Abbreviation own := (ownEntry actionTypeByte is8Bit).

(** The loop over rules that all have conditions. *)
Lemma run_conditioned (rules : list ContentExtensionRule) :
  Forall (λ rule, conditions (trigger rule) ≠ []) rules →
  ∃ st, foldlM step initialState rules = Done st ∧
        actions st = mjoin (own <$> rules) ∧
        actionLocations st = entryOffset (own <$> rules) <$> seq 0 (length rules) ∧
        cssDisplayNoneActionsMap st = [].
Proof.
  induction rules as [|rule rules IH] using rev_ind; intros Hc.
  - exists initialState. done.
  - apply Forall_app in Hc as [Hc Hrule]. rewrite Forall_singleton in Hrule.
    destruct (IH Hc) as (st & Hrun & Hacts & Hlocs & Hcss).
    pose proof (run_wf _ _ _ _ _ _ initialState_wf Hrun) as Hwf.
    destruct (step_total actionTypeByte is8Bit slotRank st rule Hwf) as [st' Hstep];
      [by left|].
    exists st'. split; [apply foldlM_Done_app; exists st; split; [done|]; simpl; by rewrite Hstep|].
    destruct (step_effect _ _ _ _ _ _ Hwf Hstep) as (st1 & Hclear & _ & Hpush & _).
    assert (H1 : actions st1 = actions st ∧ actionLocations st1 = actionLocations st ∧
                 cssDisplayNoneActionsMap st1 = []).
    { destruct Hclear as [_ Hres Hcss1 _ | _ Ha Hl Hcss1 _]; [|by rewrite Hcss1].
      rewrite Hcss in Hres. by injection Hres as -> ->. }
    destruct H1 as (Ha1 & Hl1 & Hcss1).
    destruct Hpush as [_ Ha Hl Hcss' _ | Hc' | l Hc' | Hc']; try done.
    rewrite Ha, Hl, Hcss', Ha1, Hl1, Hacts, Hlocs, Hcss1.
    rewrite fmap_app, join_app, length_app, seq_app, fmap_app. simpl.
    rewrite app_nil_r. split_and!; [done| |done]. f_equal.
    + apply list_fmap_ext. intros i k Hk. apply lookup_seq in Hk as [-> Hk].
      symmetry. apply entryOffset_app. rewrite length_fmap. lia.
    + f_equal. rewrite <- (length_fmap own rules). symmetry. apply entryOffset_length.
Qed.

(** X17: on rules that all have conditions [serializeActions] shares
    nothing and reorders nothing: the buffer is the entries of the rules'
    own actions, one after the other in the order of the rules, and the
    location of each rule is the offset of its entry. *)
Theorem conditioned_rules_serialize_in_order (rules : list ContentExtensionRule) :
  Forall (λ rule, conditions (trigger rule) ≠ []) rules →
  serialize rules
  = Done (entryOffset (own <$> rules) <$> seq 0 (length rules), mjoin (own <$> rules)).
Proof.
  intros Hc. destruct (run_conditioned rules Hc) as (st & Hrun & Hacts & Hlocs & Hcss).
  unfold serializeActions. rewrite Hrun. cbn [mbind Run_bind].
  rewrite Hcss, Hacts, Hlocs. done.
Qed.

End SerializerCompose.

Lemma conditioned_rules_serialize_in_order_witness :
  Forall (λ rule, conditions (trigger rule) ≠ []) exConditionedSelectors ∧
  serializeActionsEx exConditionedSelectors
  = Done (entryOffset (ownEntry enumActionTypeByte latin1 <$> exConditionedSelectors)
            <$> seq 0 (length exConditionedSelectors),
          mjoin (ownEntry enumActionTypeByte latin1 <$> exConditionedSelectors)).
Proof.
  assert (Hc : Forall (λ rule, conditions (trigger rule) ≠ []) exConditionedSelectors).
  { repeat constructor; discriminate. }
  split; [exact Hc|].
  exact (conditioned_rules_serialize_in_order enumActionTypeByte latin1 oneBucket
           exConditionedSelectors Hc).
Defined.

(** ** Action words *)

Lemma low_bits_small (v : Z) (n : Z) :
  0 ≤ v < 2 ^ 32 → 32 ≤ n → Z.testbit v n = false.
Proof.
  intros Hv Hn. destruct (decide (v = 0)) as [->|Hne]; [apply Z.bits_0|].
  apply Z.bits_above_log2; [lia|].
  assert (Z.log2 v < 32); [|lia]. apply Z.log2_lt_pow2; lia.
Qed.

Lemma land_low_lor (high v : Z) :
  0 ≤ v < 2 ^ 32 → Z.land (Z.lor (Z.shiftl high 32) v) (Z.ones 32) = v.
Proof.
  intros Hv. apply Z.bits_inj'. intros n Hn.
  rewrite Z.land_spec, Z.lor_spec, Z.shiftl_spec by lia.
  destruct (decide (n < 32)) as [Hlt|Hge].
  - rewrite Z.ones_spec_low, Z.testbit_neg_r by lia. simpl. by rewrite andb_true_r.
  - rewrite Z.ones_spec_high, (low_bits_small v n) by lia. by rewrite andb_false_r.
Qed.

Lemma shiftr_high_lor (high v : Z) :
  0 ≤ v < 2 ^ 32 → Z.shiftr (Z.lor (Z.shiftl high 32) v) 32 = high.
Proof.
  intros Hv. apply Z.bits_inj'. intros n Hn.
  rewrite Z.shiftr_spec, Z.lor_spec, Z.shiftl_spec by lia.
  rewrite (low_bits_small v (n + 32)) by lia. rewrite orb_false_r. f_equal. lia.
Qed.

Section ActionWords.

Variable IfConditionFlag : Z.

Local Abbreviation wordOf := (actionWord IfConditionFlag).

(** X8: the action word of a rule keeps the rule's location and flags
    apart.  For a location that fits [unsigned], the low 32 bits of the
    word are the location, whether or not the condition flag is set, as
    long as that flag lies above them; and the bits above are the resource
    flags, with the condition flag for a rule of type [IfDomain] that has
    conditions. *)
Theorem action_word_round_trip (t : Trigger) (actionLocation : Z) :
  0 ≤ actionLocation < 2 ^ 32 →
  Z.land IfConditionFlag (Z.ones 32) = 0 →
  Z.land (wordOf t actionLocation) (Z.ones 32) = actionLocation ∧
  Z.shiftr (wordOf t actionLocation) 32
  = if decide (conditions t ≠ [] ∧ conditionType t = IfDomain)
    then Z.lor (flags t) (Z.shiftr IfConditionFlag 32)
    else flags t.
Proof.
  intros Hloc Hflag. unfold actionWord, actionLocationAndFlagsOf.
  assert (Hif : Z.land (Z.lor (Z.lor (Z.shiftl (flags t) 32) actionLocation) IfConditionFlag)
                  (Z.ones 32) = actionLocation
                ∧ Z.shiftr (Z.lor (Z.lor (Z.shiftl (flags t) 32) actionLocation)
                              IfConditionFlag) 32
                  = Z.lor (flags t) (Z.shiftr IfConditionFlag 32)).
  { rewrite Z.land_lor_distr_l, Hflag, Z.lor_0_r, land_low_lor by done.
    rewrite Z.shiftr_lor, shiftr_high_lor by done. done. }
  destruct (decide (conditions t = [])) as [Hc|Hc].
  - rewrite decide_False by (intros [H _]; done).
    by rewrite land_low_lor, shiftr_high_lor.
  - destruct (conditionType t) eqn:Hct.
    + rewrite decide_False by (intros [_ H]; done). by rewrite land_low_lor, shiftr_high_lor.
    + rewrite decide_True by done. done.
    + rewrite decide_False by (intros [_ H]; done). by rewrite land_low_lor, shiftr_high_lor.
Qed.

End ActionWords.

Lemma action_word_round_trip_witness :
  0 ≤ 8 < 2 ^ 32 ∧ Z.land exIfConditionFlag (Z.ones 32) = 0 ∧
  Z.land (actionWord exIfConditionFlag exTriggerIf 8) (Z.ones 32) = 8.
Proof.
  assert (Hloc : 0 ≤ 8 < 2 ^ 32) by (split; [discriminate|reflexivity]).
  assert (Hflag : Z.land exIfConditionFlag (Z.ones 32) = 0) by reflexivity.
  split; [exact Hloc|]. split; [exact Hflag|].
  exact (proj1 (action_word_round_trip exIfConditionFlag exTriggerIf 8 Hloc Hflag)).
Defined.

(** ** The filters the loop over the rules builds *)

Section PartitionStreams.

Variable CombinedURLFilters : Type.
Variable emptyFilters : CombinedURLFilters.
Variable addPattern : CombinedURLFilters → String → bool → Z → ParseStatus * CombinedURLFilters.
Variable addDomain : CombinedURLFilters → Z → String → CombinedURLFilters.
Variable IfConditionFlag : Z.

Local Abbreviation partitionLoop :=
  (partitionRules CombinedURLFilters addPattern addDomain IfConditionFlag).
Local Abbreviation resultOf :=
  (patternResult CombinedURLFilters addPattern IfConditionFlag).
Local Abbreviation nextOf :=
  (nextPartition CombinedURLFilters addPattern addDomain IfConditionFlag).
Local Abbreviation start := (emptyPartition CombinedURLFilters emptyFilters).
Local Abbreviation F1 := (filtersWithoutConditions CombinedURLFilters).
Local Abbreviation F2 := (filtersWithConditions CombinedURLFilters).
Local Abbreviation CF := (conditionFilters CombinedURLFilters).
Local Abbreviation addP := (withPattern CombinedURLFilters addPattern IfConditionFlag).
Local Abbreviation addD := (withDomains CombinedURLFilters addDomain IfConditionFlag).

Lemma partitionRules_folds (locs : list Z) (i : nat) (rules : list ContentExtensionRule)
    (st st' : Partition CombinedURLFilters) :
  partitionLoop locs i rules st = Done (inr st') →
  F1 st' = foldl addP (F1 st) (filter hasNoConditions (zip rules (drop i locs))) ∧
  F2 st' = foldl addP (F2 st) (filter hasConditions (zip rules (drop i locs))) ∧
  CF st' = foldl addD (CF st) (filter hasConditions (zip rules (drop i locs))).
Proof.
  revert i st. induction rules as [|rule rules IH]; intros i st.
  - simpl. intros [= <-]. done.
  - cbn [partitionRules]. destruct (locs !! i) as [loc|] eqn:Hloc.
    + rewrite (partitionRule_cases _ _ _ _ _ _ _ _ _ Hloc). case_decide; [discriminate|].
      cbn [mbind Run_bind]. intros Hrest. apply IH in Hrest as (-> & -> & ->).
      rewrite (drop_S _ _ _ Hloc). cbn [zip zip_with].
      assert (Hp : ∀ f, addP f (rule, loc)
                = (addPattern f (urlFilter (trigger rule))
                     (urlFilterIsCaseSensitive (trigger rule))
                     (actionWord IfConditionFlag (trigger rule) loc)).2) by done.
      assert (Hd : ∀ f, addD f (rule, loc)
                = foldl (λ f condition,
                           addDomain f (actionWord IfConditionFlag (trigger rule) loc)
                             condition) f (conditions (trigger rule))) by done.
      unfold nextPartition, patternResult, patternFilters.
      destruct (decide (conditions (trigger rule) = [])) as [Hc|Hc].
      * rewrite (filter_cons_True hasNoConditions) by done.
        rewrite (filter_cons_False hasConditions) by (intros Hn; by apply Hn).
        cbn [foldl]. rewrite Hp.
        destruct (addPattern (F1 st) _ _ _) as [status filters]. done.
      * rewrite (filter_cons_False hasNoConditions) by done.
        rewrite (filter_cons_True hasConditions) by done.
        cbn [foldl]. rewrite Hp, Hd.
        destruct (addPattern (F2 st) _ _ _) as [status filters]. done.
    + rewrite (partitionRule_overflow CombinedURLFilters addPattern addDomain) by done.
      discriminate.
Qed.

(** X14: the loop over the rules adds the pattern of every rule to the
    filters of one stream and to no other, in the order of the rules and
    with the rule's own action word: the filters without conditions are
    the patterns of the rules with no conditions, the filters with
    conditions those of the rules with conditions, and the condition
    filters hold, for each rule with conditions in turn, its conditions in
    their order. *)
Theorem partition_adds_in_rule_order (locs : list Z) (rules : list ContentExtensionRule)
    (st : Partition CombinedURLFilters) :
  partitionLoop locs 0 rules start = Done (inr st) →
  F1 st = foldl addP emptyFilters (filter hasNoConditions (zip rules locs)) ∧
  F2 st = foldl addP emptyFilters (filter hasConditions (zip rules locs)) ∧
  CF st = foldl addD emptyFilters (filter hasConditions (zip rules locs)).
Proof. intros Hloop. apply partitionRules_folds in Hloop. by rewrite drop_0 in Hloop. Qed.

End PartitionStreams.

Lemma partition_adds_in_rule_order_witness :
  partitionRulesEx [0] 0 [exUniversalIf] (emptyPartition exFilters [])
  = Done (inr (mkPartition exFilters ∅ ({[2 ^ 47]} ∪ ∅) [] [] [([97], 2 ^ 47)])) ∧
  [([97], 2 ^ 47)]
  = foldl (withDomains exFilters exAddDomain exIfConditionFlag) []
      (filter hasConditions (zip [exUniversalIf] [0])).
Proof.
  assert (Hloop : partitionRulesEx [0] 0 [exUniversalIf] (emptyPartition exFilters [])
                  = Done (inr (mkPartition exFilters ∅ ({[2 ^ 47]} ∪ ∅) [] []
                                 [([97], 2 ^ 47)])))
    by (vm_compute; reflexivity).
  split; [exact Hloop|].
  destruct (partition_adds_in_rule_order exFilters [] exAddPattern exAddDomain
              exIfConditionFlag [0] [exUniversalIf] _ Hloop) as (_ & _ & Hdomains).
  exact Hdomains.
Defined.

(** ** Compilations from end to end *)

Lemma size_add_le (w : Z) (U : gset Z) : (size ({[w]} ∪ U) ≤ S (size U))%nat.
Proof.
  destruct (decide (w ∈ U)) as [Hin|Hnin].
  - rewrite (subseteq_union_1_L {[w]} U) by (by apply singleton_subseteq_l). lia.
  - rewrite size_union by (by apply disjoint_singleton_l). rewrite size_singleton. lia.
Qed.

Section OrchestratorRuns.

Variable actionTypeByte : ActionType → Z.
Variable is8Bit : String → bool.
Variable slotRank : list Trigger → Trigger → nat.
Variable parseRuleList : String → error_code + list ContentExtensionRule.
Variable CombinedURLFilters : Type.
Variable emptyFilters : CombinedURLFilters.
Variable addPattern : CombinedURLFilters → String → bool → Z → ParseStatus * CombinedURLFilters.
Variable addDomain : CombinedURLFilters → Z → String → CombinedURLFilters.
Variable NFA : Type.
Variable processNFAs : Z → CombinedURLFilters → list NFA.
Variable convert : NFA → DFA.
Variable graphSize : DFA → Z.
Variable minimize : DFA → DFA.
Variable DFACombiner : Type.
Variable emptyCombiner : DFACombiner.
Variable addDFA : DFACombiner → DFA → DFACombiner.
Variable combineDFAs : Z → DFACombiner → list DFA.
Variable compile : DFA → list Z.
Variable emptyDFA : DFA.
Variable IfConditionFlag : Z.

Local Abbreviation streamOf :=
  (streamDFAs CombinedURLFilters NFA processNFAs convert graphSize minimize DFACombiner
     emptyCombiner addDFA combineDFAs).
Local Abbreviation firstOf :=
  (firstDFA CombinedURLFilters NFA processNFAs convert graphSize minimize DFACombiner
     emptyCombiner addDFA combineDFAs emptyDFA).
Local Abbreviation laterOf :=
  (laterDFAs CombinedURLFilters NFA processNFAs convert graphSize minimize DFACombiner
     emptyCombiner addDFA combineDFAs).
Local Abbreviation partitionStep :=
  (partitionRule CombinedURLFilters addPattern addDomain IfConditionFlag).
Local Abbreviation partitionLoop :=
  (partitionRules CombinedURLFilters addPattern addDomain IfConditionFlag).
Local Abbreviation resultOf :=
  (patternResult CombinedURLFilters addPattern IfConditionFlag).
Local Abbreviation wordOf := (actionWord IfConditionFlag).
Local Abbreviation nextOf :=
  (nextPartition CombinedURLFilters addPattern addDomain IfConditionFlag).
Local Abbreviation compileParsed :=
  (compileParsedRuleList actionTypeByte is8Bit slotRank CombinedURLFilters emptyFilters
     addPattern addDomain NFA processNFAs convert graphSize minimize DFACombiner
     emptyCombiner addDFA combineDFAs compile emptyDFA IfConditionFlag).
Local Abbreviation compileJSON :=
  (compileRuleList actionTypeByte is8Bit slotRank parseRuleList CombinedURLFilters
     emptyFilters addPattern addDomain NFA processNFAs convert graphSize minimize
     DFACombiner emptyCombiner addDFA combineDFAs compile emptyDFA IfConditionFlag).
Local Abbreviation serialize := (serializeActions actionTypeByte is8Bit slotRank).
Local Abbreviation start := (emptyPartition CombinedURLFilters emptyFilters).
Local Abbreviation U1 := (universalActionsWithoutConditions CombinedURLFilters).
Local Abbreviation U2 := (universalActionsWithConditions CombinedURLFilters).
Local Abbreviation F1 := (filtersWithoutConditions CombinedURLFilters).
Local Abbreviation F2 := (filtersWithConditions CombinedURLFilters).
Local Abbreviation CF := (conditionFilters CombinedURLFilters).
Local Abbreviation callsOf := (sinkCalls NFA convert compile).
Local Abbreviation lowerStream :=
  (lowerFilters CombinedURLFilters NFA processNFAs convert graphSize minimize DFACombiner
     emptyCombiner addDFA combineDFAs compile emptyDFA).
Local Abbreviation small := (isSmall graphSize).
Local Abbreviation large := (isLarge graphSize).

(** The loop over the rules, one rule at its end. *)
Lemma partitionRules_snoc (locs : list Z) (rules : list ContentExtensionRule)
    (rule : ContentExtensionRule) (st : Partition CombinedURLFilters) :
  partitionLoop locs 0 (rules ++ [rule]) start = Done (inr st) →
  ∃ st0 loc,
    partitionLoop locs 0 rules start = Done (inr st0) ∧
    locs !! length rules = Some loc ∧
    ¬ parseFailed (resultOf st0 loc rule).1 ∧
    st = nextOf st0 loc rule.
Proof.
  rewrite (partitionRules_app CombinedURLFilters addPattern addDomain IfConditionFlag).
  intros (r & Hpre & Hlast)%bind_Done. destruct r as [e|st0]; [discriminate Hlast|].
  simpl in Hlast. apply bind_Done in Hlast as (r & Hstep & Hret).
  destruct (locs !! length rules) as [loc|] eqn:Hloc.
  - rewrite (partitionRule_cases _ _ _ _ _ _ _ _ _ Hloc) in Hstep.
    case_decide as Hfail; injection Hstep as <-; [discriminate Hret|].
    injection Hret as <-. exists st0, loc. done.
  - rewrite (partitionRule_overflow CombinedURLFilters addPattern addDomain) in Hstep by done.
    discriminate Hstep.
Qed.

(** X9: a universal action of a stream is the action word of a rule of
    that stream whose pattern [addPattern] reported as [MatchesEverything]:
    of a rule with no conditions for the stream without conditions, of a
    rule with conditions for the stream with conditions.  No other word is
    ever put on the root of an automaton. *)
Theorem universal_actions_have_sources (locs : list Z) (rules : list ContentExtensionRule)
    (st : Partition CombinedURLFilters) (word : Z) :
  partitionLoop locs 0 rules start = Done (inr st) →
  (word ∈ U1 st →
     ∃ pre rule post st0 loc,
       rules = pre ++ rule :: post ∧
       partitionLoop locs 0 pre start = Done (inr st0) ∧
       locs !! length pre = Some loc ∧
       conditions (trigger rule) = [] ∧
       (resultOf st0 loc rule).1 = MatchesEverything ∧
       word = wordOf (trigger rule) loc) ∧
  (word ∈ U2 st →
     ∃ pre rule post st0 loc,
       rules = pre ++ rule :: post ∧
       partitionLoop locs 0 pre start = Done (inr st0) ∧
       locs !! length pre = Some loc ∧
       conditions (trigger rule) ≠ [] ∧
       (resultOf st0 loc rule).1 = MatchesEverything ∧
       word = wordOf (trigger rule) loc).
Proof.
  revert st. induction rules as [|rule rules IH] using rev_ind; intros st Hloop.
  - injection Hloop as <-. split; intros Hin; by apply not_elem_of_empty in Hin.
  - apply partitionRules_snoc in Hloop as (st0 & loc & Hpre & Hloc & Hok & ->).
    destruct (IH st0 Hpre) as [IH1 IH2].
    assert (Hold : ∀ (P : ContentExtensionRule → Prop),
              (∃ pre r post s0 l,
                 rules = pre ++ r :: post ∧ partitionLoop locs 0 pre start = Done (inr s0) ∧
                 locs !! length pre = Some l ∧ P r ∧
                 (resultOf s0 l r).1 = MatchesEverything ∧ word = wordOf (trigger r) l) →
              ∃ pre r post s0 l,
                 rules ++ [rule] = pre ++ r :: post ∧
                 partitionLoop locs 0 pre start = Done (inr s0) ∧
                 locs !! length pre = Some l ∧ P r ∧
                 (resultOf s0 l r).1 = MatchesEverything ∧ word = wordOf (trigger r) l).
    { intros P (pre & r & post & s0 & l & -> & H). exists pre, r, (post ++ [rule]), s0, l.
      split; [by rewrite <- app_assoc|done]. }
    unfold nextPartition.
    assert (Hnew : (resultOf st0 loc rule).1 = MatchesEverything →
              word = wordOf (trigger rule) loc →
              ∀ (P : ContentExtensionRule → Prop), P rule →
              ∃ pre r post s0 l,
                 rules ++ [rule] = pre ++ r :: post ∧
                 partitionLoop locs 0 pre start = Done (inr s0) ∧
                 locs !! length pre = Some l ∧ P r ∧
                 (resultOf s0 l r).1 = MatchesEverything ∧ word = wordOf (trigger r) l).
    { intros Hst Hw P HP. exists rules, rule, [], st0, loc. done. }
    destruct (resultOf st0 loc rule) as [status filters] eqn:Hres. cbn [fst] in Hnew.
    split; intros Hin.
    + destruct (decide (conditions (trigger rule) = [])) as [Hc|Hc];
        cbn [universalActionsWithoutConditions] in Hin;
        [|by apply (Hold (λ r, conditions (trigger r) = [])), IH1].
      case_decide as Hst; [|by apply (Hold (λ r, conditions (trigger r) = [])), IH1].
      apply elem_of_union in Hin as [->%elem_of_singleton|Hin];
        [|by apply (Hold (λ r, conditions (trigger r) = [])), IH1].
      by apply (Hnew Hst eq_refl (λ r, conditions (trigger r) = [])).
    + destruct (decide (conditions (trigger rule) = [])) as [Hc|Hc];
        cbn [universalActionsWithConditions] in Hin;
        [by apply (Hold (λ r, conditions (trigger r) ≠ [])), IH2|].
      case_decide as Hst; [|by apply (Hold (λ r, conditions (trigger r) ≠ [])), IH2].
      apply elem_of_union in Hin as [->%elem_of_singleton|Hin];
        [|by apply (Hold (λ r, conditions (trigger r) ≠ [])), IH2].
      by apply (Hnew Hst eq_refl (λ r, conditions (trigger r) ≠ [])).
Qed.

(** The loop returns no error code but [JSONInvalidRegex]. *)
Lemma partitionRules_error (locs : list Z) (i : nat) (rules : list ContentExtensionRule)
    (st : Partition CombinedURLFilters) (e : error_code) :
  partitionLoop locs i rules st = Done (inl e) → e = JSONInvalidRegex.
Proof.
  revert i st. induction rules as [|rule rules IH]; intros i st; [discriminate|].
  cbn [partitionRules]. destruct (locs !! i) as [loc|] eqn:Hloc.
  - rewrite (partitionRule_cases _ _ _ _ _ _ _ _ _ Hloc). case_decide.
    + intros [= <-]. done.
    + cbn [mbind Run_bind]. apply IH.
  - rewrite (partitionRule_overflow CombinedURLFilters addPattern addDomain) by done.
    discriminate.
Qed.

(** Every rule adds at most one universal action. *)
Lemma partitionRules_universal_size (locs : list Z) (i : nat)
    (rules : list ContentExtensionRule) (st st' : Partition CombinedURLFilters) :
  partitionLoop locs i rules st = Done (inr st') →
  (size (U1 st') + size (U2 st') ≤ size (U1 st) + size (U2 st) + length rules)%nat.
Proof.
  revert i st. induction rules as [|rule rules IH]; intros i st.
  - simpl. intros [= <-]. lia.
  - cbn [partitionRules]. destruct (locs !! i) as [loc|] eqn:Hloc.
    + rewrite (partitionRule_cases _ _ _ _ _ _ _ _ _ Hloc). case_decide; [discriminate|].
      cbn [mbind Run_bind]. intros Hrest. apply IH in Hrest. cbn [length].
      etrans; [exact Hrest|]. unfold nextPartition.
      destruct (resultOf st loc rule) as [status filters].
      repeat case_decide;
        cbn [universalActionsWithoutConditions universalActionsWithConditions];
        try lia.
      * pose proof (size_add_le (wordOf (trigger rule) loc) (U1 st)). lia.
      * pose proof (size_add_le (wordOf (trigger rule) loc) (U2 st)). lia.
    + rewrite (partitionRule_overflow CombinedURLFilters addPattern addDomain) by done.
      discriminate.
Qed.

Lemma addUniversalActionsToDFA_returns (dfa : DFA) (U : gset Z) :
  is_Some (nodes dfa !! root dfa) → Z.of_nat (size U) < UINT16_MAX →
  ∃ dfa', addUniversalActionsToDFA dfa U = Done dfa'.
Proof.
  intros [rootNode Hroot] Hsize. destruct (decide (U = ∅)) as [->|HU].
  - rewrite addUniversalActionsToDFA_empty. eauto.
  - rewrite addUniversalActionsToDFA_cases, Hroot by done. rewrite decide_True by done. eauto.
Qed.

(** X10: [compileRuleList] does not abort on a parsed list of fewer than
    [2^16 - 1] rules whose action types the serializer has cases for, as
    long as every automaton its collaborators hand over has its root among
    its nodes: it returns, with the empty error code or with
    [JSONInvalidRegex]. *)
Theorem compile_returns (ruleJSON : String) (rules : list ContentExtensionRule) :
  parseRuleList ruleJSON = inr rules →
  Forall serializable rules →
  Z.of_nat (length rules) < UINT16_MAX →
  (∀ filters, is_Some (nodes (firstOf filters) !! root (firstOf filters))) →
  ∃ calls e, compileJSON ruleJSON = Done (calls, e) ∧ (e = NoError ∨ e = JSONInvalidRegex).
Proof.
  intros Hparse Hs Hlen Hroot.
  rewrite (compileRuleList_parsed _ _ _ _ _ _ _ _ _ _ _ _ _ _ _ _ _ _ _ _ _ _ Hparse).
  destruct (serializeActions_total actionTypeByte is8Bit slotRank rules Hs)
    as (locs & acts & Hser).
  rewrite (compileParsedRuleList_cases _ _ _ _ _ _ _ _ _ _ _ _ _ _ _ _ _ _ _ _ _ _ Hser).
  destruct (partitionRules_returns CombinedURLFilters addPattern addDomain IfConditionFlag
              locs 0 rules start) as [r Hloop].
  { rewrite (serializeActions_length _ _ _ _ _ _ Hser). simpl. lia. }
  rewrite Hloop. cbn [mbind Run_bind]. destruct r as [e|st].
  - apply partitionRules_error in Hloop as ->. eauto.
  - pose proof (partitionRules_universal_size _ _ _ _ _ Hloop) as Hsize.
    cbn [emptyPartition universalActionsWithoutConditions universalActionsWithConditions]
      in Hsize. rewrite size_empty in Hsize.
    destruct (addUniversalActionsToDFA_returns (firstOf (F1 st)) (U1 st)) as [d1 ->];
      [apply Hroot|lia|].
    destruct (addUniversalActionsToDFA_returns (firstOf (F2 st)) (U2 st)) as [d2 ->];
      [apply Hroot|lia|].
    cbn [mbind Run_bind]. eauto.
Qed.

(** X11: when [compileRuleList] returns an error code, the client has
    received no bytecode and no [finalize]: nothing at all when the parser
    failed, whose error code is then returned, and the action buffer of the
    whole list alone when a pattern failed, the code being
    [JSONInvalidRegex]. *)
Theorem failure_writes_no_bytecode (ruleJSON : String) (calls : list ClientCall)
    (e : error_code) :
  compileJSON ruleJSON = Done (calls, e) → e ≠ NoError →
  (parseRuleList ruleJSON = inl e ∧ calls = []) ∨
  (∃ rules locs acts,
     parseRuleList ruleJSON = inr rules ∧ serialize rules = Done (locs, acts) ∧
     e = JSONInvalidRegex ∧ calls = [writeActions acts]).
Proof.
  unfold compileRuleList. destruct (parseRuleList ruleJSON) as [e'|rules].
  - intros [= <- <-] _. by left.
  - intros Hc He. right.
    destruct (serialize rules) as [[locs acts]|f] eqn:Hser.
    2: { unfold compileParsedRuleList in Hc. rewrite Hser in Hc. discriminate Hc. }
    rewrite (compileParsedRuleList_cases _ _ _ _ _ _ _ _ _ _ _ _ _ _ _ _ _ _ _ _ _ _ Hser) in Hc.
    apply bind_Done in Hc as (r & Hloop & Hc). destruct r as [e'|st].
    + injection Hc as <- <-. apply partitionRules_error in Hloop as ->.
      exists rules, locs, acts. done.
    + apply bind_Done in Hc as (d1 & _ & Hc). apply bind_Done in Hc as (d2 & _ & Hc).
      injection Hc as _ <-. done.
Qed.

(** Rules with no conditions leave the locals of the other streams alone. *)
Lemma partitionRules_unconditioned (locs : list Z) (i : nat)
    (rules : list ContentExtensionRule) (st st' : Partition CombinedURLFilters) :
  Forall (λ rule, conditions (trigger rule) = []) rules →
  partitionLoop locs i rules st = Done (inr st') →
  U2 st' = U2 st ∧ F2 st' = F2 st ∧ CF st' = CF st.
Proof.
  revert i st. induction rules as [|rule rules IH]; intros i st Hc.
  - simpl. intros [= <-]. done.
  - inv Hc. cbn [partitionRules]. destruct (locs !! i) as [loc|] eqn:Hloc.
    + rewrite (partitionRule_cases _ _ _ _ _ _ _ _ _ Hloc). case_decide; [discriminate|].
      cbn [mbind Run_bind]. intros Hrest. apply IH in Hrest as (-> & -> & ->); [|done].
      unfold nextPartition. destruct (resultOf st loc rule) as [status filters].
      rewrite decide_True by done. done.
    + rewrite (partitionRule_overflow CombinedURLFilters addPattern addDomain) by done.
      discriminate.
Qed.

(** X12: a list of rules none of which has conditions leaves the two
    streams of the rules with conditions as the compilation of no rules
    has them: the stream of the filters with conditions is lowered from
    the empty filters, with no universal action on the root of its first
    automaton, and the stream of the domain conditions from the empty
    condition filters. *)
Theorem unconditioned_rules_leave_conditioned_streams (ruleJSON : String)
    (rules : list ContentExtensionRule) (calls : list ClientCall) :
  parseRuleList ruleJSON = inr rules →
  Forall (λ rule, conditions (trigger rule) = []) rules →
  compileJSON ruleJSON = Done (calls, NoError) →
  ∃ acts w1,
    w1 ≠ [] ∧
    calls = [writeActions acts]
            ++ (writeFiltersWithoutConditionsBytecode <$> w1)
            ++ (writeFiltersWithConditionsBytecode
                <$> (compile <$> firstOf emptyFilters :: laterOf emptyFilters))
            ++ (writeConditionedFiltersBytecode
                <$> (compile <$> (convert <$> processNFAs maxNFASize emptyFilters)))
            ++ [finalize].
Proof.
  intros Hparse Hc Hcomp.
  rewrite (compileRuleList_parsed _ _ _ _ _ _ _ _ _ _ _ _ _ _ _ _ _ _ _ _ _ _ Hparse) in Hcomp.
  apply compile_succeeds_inv in Hcomp
    as (locs & acts & st & d1 & d2 & _ & Hloop & Hd1 & Hd2 & ->).
  destruct (partitionRules_unconditioned _ _ _ _ _ Hc Hloop) as (HU & HF & HCF).
  cbn [emptyPartition universalActionsWithConditions filtersWithConditions conditionFilters]
    in HU, HF, HCF.
  rewrite HU, HF, addUniversalActionsToDFA_empty in Hd2. injection Hd2 as <-.
  exists acts, (compile <$> d1 :: laterOf (F1 st)). split; [discriminate|].
  unfold sinkCalls. by rewrite HF, HCF.
Qed.

(** X18: the lowering of a filter stream keeps the calls the client has
    received and adds one chunk for each automaton of the stream, in this
    order: the automata of graph size [smallDFASize] or more, minimized, as
    [processNFAs] comes to them, then what [combineDFAs] makes of the
    smaller ones, which are never lowered on their own nor minimized; the
    dummy automaton stands in when there is none.  The universal actions
    are put on the first automaton of that list and on no other. *)
Theorem stream_chunks_in_order (write : list Z → ClientCall) (U : gset Z)
    (filters : CombinedURLFilters) (calls calls' : list ClientCall) :
  lowerStream write U filters calls = Done calls' →
  ∃ first later d1,
    first :: later
    = match (minimize <$> filter large (convert <$> processNFAs maxNFASize filters))
            ++ combineDFAs smallDFASize
                 (foldl addDFA emptyCombiner
                    (filter small (convert <$> processNFAs maxNFASize filters))) with
      | [] => [emptyDFA]
      | dfas => dfas
      end ∧
    addUniversalActionsToDFA first U = Done d1 ∧
    calls' = calls ++ (write ∘ compile <$> d1 :: later).
Proof.
  rewrite (lowerFilters_stream CombinedURLFilters NFA processNFAs convert graphSize minimize
             DFACombiner emptyCombiner addDFA combineDFAs compile emptyDFA).
  intros (d1 & Hd1 & [= <-])%bind_Done.
  exists (firstOf filters), (laterOf filters), d1. split; [|done].
  unfold firstDFA, laterDFAs, streamDFAs.
  destruct (_ ++ _) as [|d ds]; done.
Qed.

End OrchestratorRuns.

Lemma exFirstDFA_root (filters : exFilters) :
  is_Some (nodes (firstDFA exFilters exFilters exProcessNFAs exConvert exGraphSize exMinimize
                    (list DFA) [] exAddDFA exCombineDFAs exEmptyDFA filters)
           !! root (firstDFA exFilters exFilters exProcessNFAs exConvert exGraphSize
                      exMinimize (list DFA) [] exAddDFA exCombineDFAs exEmptyDFA filters)).
Proof.
  unfold firstDFA, streamDFAs. destruct filters as [|p fs]; [eexists; reflexivity|].
  cbn [exProcessNFAs fmap list_fmap].
  destruct (decide (isSmall exGraphSize (exConvert (p :: fs)))) as [Hs|Hl].
  - rewrite (filter_cons_True (isSmall exGraphSize)) by done.
    rewrite (filter_cons_False (isLarge exGraphSize)) by (intros Hn; by apply Hn).
    eexists. reflexivity.
  - rewrite (filter_cons_True (isLarge exGraphSize)) by done.
    eexists. reflexivity.
Qed.

Lemma universal_actions_have_sources_witness :
  partitionRulesEx [0] 0 [exUniversalIf] (emptyPartition exFilters [])
  = Done (inr (mkPartition exFilters ∅ ({[2 ^ 47]} ∪ ∅) [] [] [([97], 2 ^ 47)])) ∧
  ∃ pre rule post st0 loc,
    [exUniversalIf] = pre ++ rule :: post ∧
    partitionRulesEx [0] 0 pre (emptyPartition exFilters []) = Done (inr st0) ∧
    [0] !! length pre = Some loc ∧
    conditions (trigger rule) ≠ [] ∧
    (patternResult exFilters exAddPattern exIfConditionFlag st0 loc rule).1
    = MatchesEverything ∧
    2 ^ 47 = actionWord exIfConditionFlag (trigger rule) loc.
Proof.
  assert (Hloop : partitionRulesEx [0] 0 [exUniversalIf] (emptyPartition exFilters [])
                  = Done (inr (mkPartition exFilters ∅ ({[2 ^ 47]} ∪ ∅) [] []
                                 [([97], 2 ^ 47)])))
    by (vm_compute; reflexivity).
  split; [exact Hloop|].
  destruct (universal_actions_have_sources exFilters [] exAddPattern exAddDomain
              exIfConditionFlag [0] [exUniversalIf] _ (2 ^ 47) Hloop) as [_ Hsrc].
  apply Hsrc. change (2 ^ 47 ∈ ({[2 ^ 47]} ∪ ∅ : gset Z)).
  apply elem_of_union_l, elem_of_singleton. reflexivity.
Defined.

Lemma compile_returns_witness :
  exParseRuleList [rule0 BlockLoad 0] [123] = inr [rule0 BlockLoad 0] ∧
  Forall serializable [rule0 BlockLoad 0] ∧
  Z.of_nat (length [rule0 BlockLoad 0]) < UINT16_MAX ∧
  ∃ calls e, compileRuleListEx [rule0 BlockLoad 0] [123] = Done (calls, e) ∧
             (e = NoError ∨ e = JSONInvalidRegex).
Proof.
  assert (Hs : Forall serializable [rule0 BlockLoad 0]).
  { apply (bool_decide_unpack _). vm_compute. exact I. }
  assert (Hlen : Z.of_nat (length [rule0 BlockLoad 0]) < UINT16_MAX) by reflexivity.
  split; [reflexivity|]. split; [exact Hs|]. split; [exact Hlen|].
  exact (compile_returns enumActionTypeByte latin1 oneBucket
           (exParseRuleList [rule0 BlockLoad 0]) exFilters [] exAddPattern exAddDomain
           exFilters exProcessNFAs exConvert exGraphSize exMinimize (list DFA) [] exAddDFA
           exCombineDFAs exCompile exEmptyDFA exIfConditionFlag
           [123] [rule0 BlockLoad 0] eq_refl Hs Hlen exFirstDFA_root).
Defined.

Lemma failure_writes_no_bytecode_witness :
  compileRuleListEx exInvalid [123] = Done ([writeActions [0]], JSONInvalidRegex) ∧
  JSONInvalidRegex ≠ NoError ∧
  ((exParseRuleList exInvalid [123] = inl JSONInvalidRegex ∧ [writeActions [0]] = []) ∨
   (∃ rules locs acts,
      exParseRuleList exInvalid [123] = inr rules ∧
      serializeActionsEx rules = Done (locs, acts) ∧
      JSONInvalidRegex = JSONInvalidRegex ∧ [writeActions [0]] = [writeActions acts])).
Proof.
  assert (He : JSONInvalidRegex ≠ NoError) by discriminate.
  split; [exact ex_compile_invalid|]. split; [exact He|].
  exact (failure_writes_no_bytecode enumActionTypeByte latin1 oneBucket
           (exParseRuleList exInvalid) exFilters [] exAddPattern exAddDomain
           exFilters exProcessNFAs exConvert exGraphSize exMinimize (list DFA) [] exAddDFA
           exCombineDFAs exCompile exEmptyDFA exIfConditionFlag
           [123] _ _ ex_compile_invalid He).
Defined.

Lemma unconditioned_rules_leave_conditioned_streams_witness :
  exParseRuleList [rule0 BlockLoad 0] [123] = inr [rule0 BlockLoad 0] ∧
  Forall (λ rule, conditions (trigger rule) = []) [rule0 BlockLoad 0] ∧
  compileRuleListEx [rule0 BlockLoad 0] [123]
  = Done ([writeActions [0]; writeFiltersWithoutConditionsBytecode [2; 0; 0];
           writeFiltersWithConditionsBytecode [1; 0]; finalize], NoError) ∧
  ∃ acts w1,
    w1 ≠ [] ∧
    [writeActions [0]; writeFiltersWithoutConditionsBytecode [2; 0; 0];
     writeFiltersWithConditionsBytecode [1; 0]; finalize]
    = [writeActions acts]
      ++ (writeFiltersWithoutConditionsBytecode <$> w1)
      ++ (writeFiltersWithConditionsBytecode <$> [exCompile exEmptyDFA])
      ++ [finalize].
Proof.
  assert (Hc : Forall (λ rule, conditions (trigger rule) = []) [rule0 BlockLoad 0]).
  { apply Forall_singleton. reflexivity. }
  split; [reflexivity|]. split; [exact Hc|]. split; [exact ex_compile_block|].
  exact (unconditioned_rules_leave_conditioned_streams enumActionTypeByte latin1 oneBucket
           (exParseRuleList [rule0 BlockLoad 0]) exFilters [] exAddPattern exAddDomain
           exFilters exProcessNFAs exConvert exGraphSize exMinimize (list DFA) [] exAddDFA
           exCombineDFAs exCompile exEmptyDFA exIfConditionFlag
           [123] [rule0 BlockLoad 0] _ eq_refl Hc ex_compile_block).
Defined.

Lemma stream_chunks_in_order_witness :
  lowerFilters exFilters exFilters exProcessNFAs exConvert exGraphSize exMinimize (list DFA)
    [] exAddDFA exCombineDFAs exCompile exEmptyDFA writeFiltersWithoutConditionsBytecode
    ∅ [([97], 0)] [writeActions [0]]
  = Done [writeActions [0]; writeFiltersWithoutConditionsBytecode [2; 0; 0]] ∧
  ∃ first later d1,
    addUniversalActionsToDFA first ∅ = Done d1 ∧
    [writeActions [0]; writeFiltersWithoutConditionsBytecode [2; 0; 0]]
    = [writeActions [0]]
      ++ (writeFiltersWithoutConditionsBytecode ∘ exCompile <$> d1 :: later).
Proof.
  assert (H : lowerFilters exFilters exFilters exProcessNFAs exConvert exGraphSize exMinimize
                (list DFA) [] exAddDFA exCombineDFAs exCompile exEmptyDFA
                writeFiltersWithoutConditionsBytecode ∅ [([97], 0)] [writeActions [0]]
              = Done [writeActions [0]; writeFiltersWithoutConditionsBytecode [2; 0; 0]])
    by (vm_compute; reflexivity).
  split; [exact H|].
  destruct (stream_chunks_in_order exFilters exFilters exProcessNFAs exConvert exGraphSize
              exMinimize (list DFA) [] exAddDFA exCombineDFAs exCompile exEmptyDFA
              _ _ _ _ _ H) as (first & later & d1 & _ & Hd1 & Hcalls).
  exists first, later, d1. split; [exact Hd1|exact Hcalls].
Defined.

(** ** What the universal actions leave of an automaton *)

(** X13: [addUniversalActionsToDFA] changes nothing of an automaton but the
    actions of its root.  The number of nodes and the root stay, every
    node keeps its transitions, the root among them, every other node is
    left as it is, and the action words are only appended to, by the
    universal actions, so that the words any node's range selects among
    those there before are the same.  The root is given the range of the
    appended words in place of the range it had, and with no universal
    action the automaton is returned untouched, whatever its root is. *)
Theorem addUniversalActionsToDFA_frame (dfa dfa' : DFA) (U : gset Z) :
  addUniversalActionsToDFA dfa U = Done dfa' →
  length (nodes dfa') = length (nodes dfa) ∧
  root dfa' = root dfa ∧
  dfaActions dfa' = dfaActions dfa ++ elements U ∧
  (∀ i, i ≠ root dfa → nodes dfa' !! i = nodes dfa !! i) ∧
  (∀ i, transitions <$> nodes dfa' !! i = transitions <$> nodes dfa !! i) ∧
  (∀ node, 0 ≤ actionsStart node → 0 ≤ actionsLength node →
     actionsStart node + actionsLength node ≤ Z.of_nat (length (dfaActions dfa)) →
     nodeActions dfa' node = nodeActions dfa node) ∧
  (U ≠ ∅ →
     ∃ rootNode, nodes dfa !! root dfa = Some rootNode ∧
       nodes dfa' !! root dfa
       = Some (mkDFANode (transitions rootNode) (Z.of_nat (length (dfaActions dfa)))
                 (Z.of_nat (size U))) ∧
       rootActions dfa' = elements U) ∧
  (U = ∅ → dfa' = dfa).
Proof.
  destruct (decide (U = ∅)) as [->|HU].
  - rewrite addUniversalActionsToDFA_empty. intros [= <-]. split_and!; try done.
    by rewrite elements_empty, app_nil_r.
  - intros Hadd.
    destruct (addUniversalActionsToDFA_root dfa dfa' U HU Hadd) as (Hroot' & _).
    revert Hroot' Hadd. rewrite addUniversalActionsToDFA_cases by done.
    destruct (nodes dfa !! root dfa) as [rootNode|] eqn:Hroot; [|done].
    case_decide; [|done]. intros Hroot' [= <-]. cbn [nodes root dfaActions].
    pose proof (lookup_lt_Some _ _ _ Hroot) as Hlt.
    split_and!.
    + by rewrite length_insert.
    + done.
    + done.
    + intros i Hi. by rewrite list_lookup_insert_ne.
    + intros i. destruct (decide (i = root dfa)) as [->|Hi].
      * rewrite list_lookup_insert_eq by done. by rewrite Hroot.
      * by rewrite list_lookup_insert_ne.
    + intros node Hs Hl Hle. unfold nodeActions. cbn [dfaActions].
      rewrite drop_app_le by lia. rewrite take_app_le; [done|].
      rewrite length_drop. lia.
    + intros _. exists rootNode. split; [done|]. split; [|done].
      by rewrite list_lookup_insert_eq.
    + done.
Qed.

Lemma addUniversalActionsToDFA_frame_witness :
  addUniversalActionsToDFA (mkDFA [mkDFANode [(97, 97, 1%nat)] 0 0; mkDFANode [] 0 1] [7] 0)
    {[9]}
  = Done (mkDFA [mkDFANode [(97, 97, 1%nat)] 1 1; mkDFANode [] 0 1] [7; 9] 0) ∧
  transitions <$> [mkDFANode [(97, 97, 1%nat)] 1 1; mkDFANode [] 0 1] !! 0%nat
  = transitions <$> [mkDFANode [(97, 97, 1%nat)] 0 0; mkDFANode [] 0 1] !! 0%nat ∧
  nodeActions (mkDFA [mkDFANode [(97, 97, 1%nat)] 1 1; mkDFANode [] 0 1] [7; 9] 0)
    (mkDFANode [] 0 1)
  = nodeActions (mkDFA [mkDFANode [(97, 97, 1%nat)] 0 0; mkDFANode [] 0 1] [7] 0)
      (mkDFANode [] 0 1).
Proof.
  assert (H : addUniversalActionsToDFA
                (mkDFA [mkDFANode [(97, 97, 1%nat)] 0 0; mkDFANode [] 0 1] [7] 0) {[9]}
              = Done (mkDFA [mkDFANode [(97, 97, 1%nat)] 1 1; mkDFANode [] 0 1] [7; 9] 0))
    by (vm_compute; reflexivity).
  split; [exact H|].
  destruct (addUniversalActionsToDFA_frame _ _ _ H) as (_ & _ & _ & _ & Htrans & Hsame & _).
  split; [exact (Htrans 0%nat)|].
  apply Hsame; [discriminate|discriminate|].
  simpl. discriminate.
Defined.
